(** * Strassen matrix multiplication with a classic cutoff

    A shallow embedding of [matrix.py], [classic.py] and [strassen.py].

    Python lists are mutable heap objects: a matrix is a list object whose
    items are references to row objects, and the code fills result matrices
    in place ([Ci[j] = ...], [C[i][:mid] = ...]).  The embedding therefore
    keeps an explicit object store and runs every function in a state and
    exception monad over it.  Python integers are unbounded, so matrix
    entries are [Z]; lengths and loop indices are [nat]. *)

From Stdlib Require Import ZArith List Lia String.
From stdpp Require Import gmap list.

Open Scope Z_scope.
Open Scope nat_scope.

(** ** Object store *)

Definition loc := positive.

(** A list object is either a row (a list of integers) or a matrix (a list
    of references to rows); this is [Matrix = List[List[int]]]. *)
Inductive obj :=
| ORow (r : list Z)
| OMat (rows : list loc).

Inductive error :=
| ValueError (msg : string)
| IndexError
| TypeError.

(** [perf] is the sequence of readings of the performance counter and
    [ticks] the number of readings consumed so far.  [perf_counter()]
    returns seconds as a float; a reading is an integer number of clock
    units here, so that sums and differences of readings are exact. *)
Record state := State {
  heap : gmap loc obj;
  ticks : nat;
  perf : nat → Z
}.

Definition set_heap (h : gmap loc obj) (s : state) : state :=
  State h (ticks s) (perf s).

(** A computation returns a value, raises an exception, or exhausts the
    budget of nested calls that bounds the recursion of [_strassen_rec].  The state is kept in the first two cases: an
    exception does not undo the effects that came before it. *)
Inductive outcome (A : Type) :=
| Ret (a : A) (s : state)
| Raise (e : error) (s : state)
| OutOfFuel.
Arguments Ret {A} a s.
Arguments Raise {A} e s.
Arguments OutOfFuel {A}.

Definition M (A : Type) : Type := state → outcome A.

Definition ret {A} (a : A) : M A := λ s, Ret a s.
Definition raise {A} (e : error) : M A := λ s, Raise e s.
Definition bind {A B} (m : M A) (k : A → M B) : M B :=
  λ s, match m s with
       | Ret a s' => k a s'
       | Raise e s' => Raise e s'
       | OutOfFuel => OutOfFuel
       end.

Declare Scope py_scope.
Delimit Scope py_scope with py.
Notation "x ← y ; z" := (bind y (λ x, z))
  (at level 20, y at level 100, z at level 200, only parsing) : py_scope.
Notation "' x ← y ; z" := (bind y (λ x, z))
  (at level 20, x pattern, y at level 100, z at level 200, only parsing) : py_scope.
Notation "x ;; z" := (bind x (λ _, z))
  (at level 100, z at level 200, only parsing, right associativity) : py_scope.
Open Scope py_scope.

(** *** Primitive operations on list objects *)

Definition alloc (o : obj) : M loc :=
  λ s, let l := fresh (dom (heap s)) in Ret l (set_heap (<[l := o]> (heap s)) s).

Definition row_of (l : loc) : M (list Z) :=
  λ s, match heap s !! l with
       | Some (ORow r) => Ret r s
       | _ => Raise TypeError s
       end.

Definition mat_of (l : loc) : M (list loc) :=
  λ s, match heap s !! l with
       | Some (OMat ls) => Ret ls s
       | _ => Raise TypeError s
       end.

Definition store_row (l : loc) (r : list Z) : M unit :=
  λ s, match heap s !! l with
       | Some (ORow _) => Ret tt (set_heap (<[l := ORow r]> (heap s)) s)
       | _ => Raise TypeError s
       end.

(** [[... for ...]] with a row as item, and with a reference as item. *)
Definition new_row (r : list Z) : M loc := alloc (ORow r).
Definition new_mat (ls : list loc) : M loc := alloc (OMat ls).

(** [len(A)], [len(row)] *)
Definition len_mat (A : loc) : M nat := ls ← mat_of A; ret (length ls).
Definition len_row (l : loc) : M nat := r ← row_of l; ret (length r).

(** [A[i]] and [Ai[j]] for a non-negative index *)
Definition getitem_mat (A : loc) (i : nat) : M loc :=
  ls ← mat_of A;
  match ls !! i with
  | Some l => ret l
  | None => raise IndexError
  end.

Definition getitem_row (l : loc) (j : nat) : M Z :=
  r ← row_of l;
  match r !! j with
  | Some x => ret x
  | None => raise IndexError
  end.

(** [Ci[j] = x] *)
Definition setitem_row (l : loc) (j : nat) (x : Z) : M unit :=
  r ← row_of l;
  if decide (j < length r) then store_row l (<[j := x]> r)
  else raise IndexError.

(** [Ci[:mid] = xs] and [Ci[mid:] = xs]: the slice is replaced by the items
    of [xs], whatever their number.  The right-hand side of an assignment
    is evaluated before its target. *)
Definition setslice_to (l : loc) (mid : nat) (xs : list Z) : M unit :=
  r ← row_of l; store_row l (xs ++ drop mid r).

Definition setslice_from (l : loc) (mid : nat) (xs : list Z) : M unit :=
  r ← row_of l; store_row l (take mid r ++ xs).

(** [for x in xs: body] *)
Fixpoint for_each {A} (xs : list A) (body : A → M unit) : M unit :=
  match xs with
  | [] => ret tt
  | x :: xs' => body x;; for_each xs' body
  end.

(** [for i in range(n): body] *)
Definition for_range (n : nat) (body : nat → M unit) : M unit :=
  for_each (seq 0 n) body.

(** [for i in range(n): acc = body(i, acc)] for a loop that updates one
    local variable. *)
Fixpoint fold_each {A S} (xs : list A) (body : A → S → M S) (acc : S) : M S :=
  match xs with
  | [] => ret acc
  | x :: xs' => acc' ← body x acc; fold_each xs' body acc'
  end.

Definition fold_range {S} (n : nat) (body : nat → S → M S) (acc : S) : M S :=
  fold_each (seq 0 n) body acc.

(** [[f(x) for x in xs]]: the items, in order; the caller allocates the
    list object. *)
Fixpoint list_comp {A B} (f : A → M B) (xs : list A) : M (list B) :=
  match xs with
  | [] => ret []
  | x :: xs' => y ← f x; ys ← list_comp f xs'; ret (y :: ys)
  end.

(** [all(p(x) for x in xs)] stops at the first false item. *)
Fixpoint all_gen {A} (p : A → M bool) (xs : list A) : M bool :=
  match xs with
  | [] => ret true
  | x :: xs' => b ← p x; if b then all_gen p xs' else ret false
  end.

(** ** matrix.py *)

Definition zeros (n : nat) : M loc :=
  rows ← list_comp (λ _, new_row (replicate n 0%Z)) (seq 0 n);
  new_mat rows.

Definition add (A B : loc) : M loc :=
  n ← len_mat A;
  C ← zeros n;
  for_range n (λ i,
    Ai ← getitem_mat A i;
    Bi ← getitem_mat B i;
    Ci ← getitem_mat C i;
    for_range n (λ j,
      a ← getitem_row Ai j;
      b ← getitem_row Bi j;
      setitem_row Ci j (a + b)%Z));;
  ret C.

Definition sub (A B : loc) : M loc :=
  n ← len_mat A;
  C ← zeros n;
  for_range n (λ i,
    Ai ← getitem_mat A i;
    Bi ← getitem_mat B i;
    Ci ← getitem_mat C i;
    for_range n (λ j,
      a ← getitem_row Ai j;
      b ← getitem_row Bi j;
      setitem_row Ci j (a - b)%Z));;
  ret C.

(** [[row[lo:hi] for row in rows]], allocated as a new matrix; [slice] is
    the pure slice taken of every row. *)
Definition sliced_rows (slice : list Z → list Z) (rows : list loc) : M loc :=
  rs ← list_comp (λ row, r ← row_of row; new_row (slice r)) rows;
  new_mat rs.

Definition split (A : loc) : M (loc * loc * loc * loc) :=
  n ← len_mat A;
  let mid := n / 2 in
  rows ← mat_of A;
  A11 ← sliced_rows (take mid) (take mid rows);
  A12 ← sliced_rows (drop mid) (take mid rows);
  A21 ← sliced_rows (take mid) (drop mid rows);
  A22 ← sliced_rows (drop mid) (drop mid rows);
  ret (A11, A12, A21, A22).

Definition combine (C11 C12 C21 C22 : loc) : M loc :=
  mid ← len_mat C11;
  let n := mid * 2 in
  C ← zeros n;
  for_range mid (λ i,
    (x ← getitem_mat C11 i; Ci ← getitem_mat C i; xs ← row_of x;
     setslice_to Ci mid xs);;
    (y ← getitem_mat C12 i; Ci ← getitem_mat C i; ys ← row_of y;
     setslice_from Ci mid ys));;
  for_range mid (λ i,
    (x ← getitem_mat C21 i; Ci ← getitem_mat C (i + mid); xs ← row_of x;
     setslice_to Ci mid xs);;
    (y ← getitem_mat C22 i; Ci ← getitem_mat C (i + mid); ys ← row_of y;
     setslice_from Ci mid ys));;
  ret C.

(** [while p < n: p <<= 1].  Every iteration at least adds one to [p >= 1],
    so [n] iterations are enough; [fuel] bounds them. *)
Fixpoint next_power_of_two_loop (fuel p n : nat) : nat :=
  match fuel with
  | 0 => p
  | S fuel' => if decide (p < n) then next_power_of_two_loop fuel' (p * 2) n else p
  end.

Definition next_power_of_two (n : nat) : nat :=
  next_power_of_two_loop n 1 n.

Definition pad_to_size (A : loc) (new_n : nat) : M loc :=
  n ← len_mat A;
  P ← zeros new_n;
  for_range n (λ i,
    Pi ← getitem_mat P i;
    Ai ← getitem_mat A i;
    for_range n (λ j,
      a ← getitem_row Ai j;
      setitem_row Pi j a));;
  ret P.

Definition crop (A : loc) (n : nat) : M loc :=
  rows ← mat_of A;
  sliced_rows (take n) (take n rows).

Definition is_square (A : loc) : M bool :=
  n ← len_mat A;
  rows ← mat_of A;
  all_gen (λ row, m ← len_row row; ret (bool_decide (m = n))) rows.

Definition assert_square (A : loc) (name : string) : M unit :=
  b ← is_square A;
  if b then ret tt
  else raise (ValueError ("Matriz " ++ name ++ " não é quadrada.")).

(** ** classic.py *)

Definition size_message : string := "A e B devem ter o mesmo tamanho (n x n).".

Definition mul_classic (A B : loc) : M loc :=
  assert_square A "A";;
  assert_square B "B";;
  n ← len_mat A;
  nB ← len_mat B;
  if decide (nB ≠ n) then raise (ValueError size_message) else
  C ← zeros n;
  for_range n (λ i,
    Ai ← getitem_mat A i;
    Ci ← getitem_mat C i;
    for_range n (λ j,
      s ← fold_range n (λ k s,
             a ← getitem_row Ai k;
             Bk ← getitem_mat B k;
             b ← getitem_row Bk j;
             ret (s + a * b)%Z) 0%Z;
      setitem_row Ci j s));;
  ret C.

(** ** strassen.py *)

Record StrassenStats := Stats {
  calls : Z;
  split_combine_time : Z
}.

(** [perf_counter()]: the next reading of the clock. *)
Definition perf_counter : M Z :=
  λ s, Ret (perf s (ticks s)) (State (heap s) (S (ticks s)) (perf s)).

(** The statistics object has a single reference, threaded through the
    recursion; its updates are written as state passing.  [fuel] bounds the
    depth of the recursion. *)
Fixpoint _strassen_rec (fuel : nat) (A B : loc) (cutoff : Z) (stats : StrassenStats)
  : M (loc * StrassenStats) :=
  match fuel with
  | 0 => λ _, OutOfFuel
  | S fuel' =>
    let stats := Stats (calls stats + 1) (split_combine_time stats) in
    n ← len_mat A;
    if decide (n = 1) then
      A0 ← getitem_mat A 0; a ← getitem_row A0 0;
      B0 ← getitem_mat B 0; b ← getitem_row B0 0;
      r ← new_row [(a * b)%Z];
      C ← new_mat [r];
      ret (C, stats)
    else if decide (Z.of_nat n ≤ cutoff)%Z then
      C ← mul_classic A B; ret (C, stats)
    else
      t0 ← perf_counter;
      '(A11, A12, A21, A22) ← split A;
      '(B11, B12, B21, B22) ← split B;
      A11_plus_A22 ← add A11 A22;
      B11_plus_B22 ← add B11 B22;
      A21_plus_A22 ← add A21 A22;
      B12_minus_B22 ← sub B12 B22;
      B21_minus_B11 ← sub B21 B11;
      A11_plus_A12 ← add A11 A12;
      A21_minus_A11 ← sub A21 A11;
      B11_plus_B12 ← add B11 B12;
      A12_minus_A22 ← sub A12 A22;
      B21_plus_B22 ← add B21 B22;
      t ← perf_counter;
      let stats := Stats (calls stats) (split_combine_time stats + (t - t0))%Z in
      '(M1, stats) ← _strassen_rec fuel' A11_plus_A22 B11_plus_B22 cutoff stats;
      '(M2, stats) ← _strassen_rec fuel' A21_plus_A22 B11 cutoff stats;
      '(M3, stats) ← _strassen_rec fuel' A11 B12_minus_B22 cutoff stats;
      '(M4, stats) ← _strassen_rec fuel' A22 B21_minus_B11 cutoff stats;
      '(M5, stats) ← _strassen_rec fuel' A11_plus_A12 B22 cutoff stats;
      '(M6, stats) ← _strassen_rec fuel' A21_minus_A11 B11_plus_B12 cutoff stats;
      '(M7, stats) ← _strassen_rec fuel' A12_minus_A22 B21_plus_B22 cutoff stats;
      t1 ← perf_counter;
      S1 ← add M1 M4; S2 ← sub S1 M5; C11 ← add S2 M7;
      C12 ← add M3 M5;
      C21 ← add M2 M4;
      S3 ← add M1 M3; S4 ← sub S3 M2; C22 ← add S4 M6;
      C ← combine C11 C12 C21 C22;
      t ← perf_counter;
      let stats := Stats (calls stats) (split_combine_time stats + (t - t1))%Z in
      ret (C, stats)
  end.

Definition mul_strassen (fuel : nat) (A B : loc) (cutoff : Z)
    (stats : option StrassenStats) : M (loc * StrassenStats) :=
  assert_square A "A";;
  assert_square B "B";;
  n ← len_mat A;
  nB ← len_mat B;
  if decide (nB ≠ n) then raise (ValueError size_message) else
  let stats := match stats with None => Stats 0 0 | Some st => st end in
  let m := next_power_of_two n in
  if decide (m ≠ n) then
    A_pad ← pad_to_size A m;
    B_pad ← pad_to_size B m;
    '(C_pad, stats) ← _strassen_rec fuel A_pad B_pad cutoff stats;
    C ← crop C_pad n;
    ret (C, stats)
  else
    '(C, stats) ← _strassen_rec fuel A B cutoff stats;
    ret (C, stats).

(** ** Reading a matrix out of the store *)

Definition read_row (s : state) (l : loc) : option (list Z) :=
  match heap s !! l with
  | Some (ORow r) => Some r
  | _ => None
  end.

Definition read_matrix (s : state) (A : loc) : option (list (list Z)) :=
  match heap s !! A with
  | Some (OMat ls) => mapM (read_row s) ls
  | _ => None
  end.

(** A matrix literal [[[a, b], [c, d]]]. *)
Definition literal (v : list (list Z)) : M loc :=
  rows ← list_comp new_row v; new_mat rows.

Definition empty_state : state := State ∅ 0 (λ k, Z.of_nat k).

Definition run2 {A} (v w : list (list Z)) (f : loc → loc → M A) : outcome A :=
  (a ← literal v; b ← literal w; f a b) empty_state.

Definition result_matrix (o : outcome loc) : option (list (list Z)) :=
  match o with Ret C s => read_matrix s C | _ => None end.

(** ** Specification vocabulary *)

(** [returns m s Q]: from [s], [m] returns normally, with a value and a
    final state that satisfy [Q]. *)
Definition returns {A} (m : M A) (s : state) (Q : A → state → Prop) : Prop :=
  ∃ a s', m s = Ret a s' ∧ Q a s'.

(** The store only grows and the clock is not read. *)
Definition extends (s s' : state) : Prop :=
  heap s ⊆ heap s' ∧ ticks s' = ticks s ∧ perf s' = perf s.

Definition row_at (s : state) (l : loc) (r : list Z) : Prop :=
  heap s !! l = Some (ORow r).

Definition mat_at (s : state) (A : loc) (v : list (list Z)) : Prop :=
  ∃ ls, heap s !! A = Some (OMat ls) ∧ Forall2 (row_at s) ls v.

(** [filling s0 s C cs vs]: since [s0], the matrix [C] with rows [cs] was
    allocated and holds [vs]; nothing that [s0] holds was touched. *)
Record filling (s0 s : state) (C : loc) (cs : list loc) (vs : list (list Z)) : Prop := {
  fill_ext : extends s0 s;
  fill_mat : heap s !! C = Some (OMat cs);
  fill_new : heap s0 !! C = None;
  fill_nodup : NoDup cs;
  fill_rows_new : Forall (λ l, heap s0 !! l = None) cs;
  fill_rows : Forall2 (row_at s) cs vs
}.

(** What a finished construction leaves: a matrix none of whose objects the
    earlier store held. *)
Definition new_matrix (s s' : state) (C : loc) (v : list (list Z)) : Prop :=
  ∃ cs, heap s' !! C = Some (OMat cs) ∧ heap s !! C = None ∧
        Forall (λ l, heap s !! l = None) cs ∧ Forall2 (row_at s') cs v.

Definition produces (s : state) (v : list (list Z)) : loc → state → Prop :=
  λ C s', extends s s' ∧ new_matrix s s' C v.

(** *** Matrices as values *)

Definition entry (v : list (list Z)) (i j : nat) : Z := (v !!! i) !!! j.

Definition dims (n m : nat) (v : list (list Z)) : Prop :=
  length v = n ∧ Forall (λ r, length r = m) v.

Definition square (n : nat) (v : list (list Z)) : Prop := dims n n v.

Definition madd (v w : list (list Z)) : list (list Z) :=
  zip_with (zip_with Z.add) v w.

Definition msub (v w : list (list Z)) : list (list Z) :=
  zip_with (zip_with Z.sub) v w.

(** [sumZ f n] is the sum of [f k] for [k] from [0] to [n - 1]. *)
Fixpoint sumZ (f : nat → Z) (n : nat) : Z :=
  match n with
  | 0 => 0%Z
  | S n' => (sumZ f n' + f n')%Z
  end.

(** The [n] by [n] matrix with entry [f i j] at row [i] and column [j]. *)
Definition matrix_of (n : nat) (f : nat → nat → Z) : list (list Z) :=
  map (λ i, map (f i) (seq 0 n)) (seq 0 n).

(** The product of two [n] by [n] matrices,
    [C[i][j] = sum(A[i][k] * B[k][j] for k in 0..n-1)]. *)
Definition mmul (n : nat) (v w : list (list Z)) : list (list Z) :=
  matrix_of n (λ i j, sumZ (λ k, entry v i k * entry w k j)%Z n).

(** Zero padding of [v] to [m] by [m]. *)
Definition mpad (m : nat) (v : list (list Z)) : list (list Z) :=
  map (λ r, r ++ replicate (m - length r) 0%Z) v
  ++ replicate (m - length v) (replicate m 0%Z).

(** [is_square] on values. *)
Definition is_square_val (v : list (list Z)) : bool :=
  forallb (λ r, bool_decide (length r = length v)) v.

(** [add] and [sub] are the same two loops around a different operator;
    their proofs go through this common form. *)
Definition elementwise (op : Z → Z → Z) (A B : loc) : M loc :=
  n ← len_mat A;
  C ← zeros n;
  for_range n (λ i,
    Ai ← getitem_mat A i;
    Bi ← getitem_mat B i;
    Ci ← getitem_mat C i;
    for_range n (λ j,
      a ← getitem_row Ai j;
      b ← getitem_row Bi j;
      setitem_row Ci j (op a b)));;
  ret C.

(** The four quadrants that [split] cuts at [mid = len(A) // 2]. *)
Definition quadrant11 (v : list (list Z)) := map (take (length v / 2)) (take (length v / 2) v).
Definition quadrant12 (v : list (list Z)) := map (drop (length v / 2)) (take (length v / 2) v).
Definition quadrant21 (v : list (list Z)) := map (take (length v / 2)) (drop (length v / 2) v).
Definition quadrant22 (v : list (list Z)) := map (drop (length v / 2)) (drop (length v / 2) v).

(** What [split] returns: four new matrices holding the quadrants. *)
Definition split_post (s : state) (v : list (list Z))
    (r : loc * loc * loc * loc) (s' : state) : Prop :=
  let '(A11, A12, A21, A22) := r in
  extends s s' ∧
  new_matrix s s' A11 (quadrant11 v) ∧ new_matrix s s' A12 (quadrant12 v) ∧
  new_matrix s s' A21 (quadrant21 v) ∧ new_matrix s s' A22 (quadrant22 v).

(** Four blocks side by side and on top of each other. *)
Definition mcombine (v11 v12 v21 v22 : list (list Z)) : list (list Z) :=
  zip_with app v11 v12 ++ zip_with app v21 v22.

(** [crop] on values. *)
Definition mcrop (n : nat) (v : list (list Z)) : list (list Z) :=
  map (take n) (take n v).

(** One level of Strassen's scheme on values, with the seven products
    taken as exact products of the [mid] by [mid] blocks. *)
Definition strassen_level (mid : nat) (vA vB : list (list Z)) : list (list Z) :=
  let a11 := quadrant11 vA in let a12 := quadrant12 vA in
  let a21 := quadrant21 vA in let a22 := quadrant22 vA in
  let b11 := quadrant11 vB in let b12 := quadrant12 vB in
  let b21 := quadrant21 vB in let b22 := quadrant22 vB in
  let M1 := mmul mid (madd a11 a22) (madd b11 b22) in
  let M2 := mmul mid (madd a21 a22) b11 in
  let M3 := mmul mid a11 (msub b12 b22) in
  let M4 := mmul mid a22 (msub b21 b11) in
  let M5 := mmul mid (madd a11 a12) b22 in
  let M6 := mmul mid (msub a21 a11) (madd b11 b12) in
  let M7 := mmul mid (msub a12 a22) (madd b21 b22) in
  mcombine (madd (msub (madd M1 M4) M5) M7) (madd M3 M5)
           (madd M2 M4) (madd (msub (madd M1 M3) M2) M6).

(** *** Cost of the recursion on a [2^k] by [2^k] pair *)

(** Number of invocations of [_strassen_rec]. *)
Fixpoint calls_added (k : nat) (cutoff : Z) : Z :=
  match k with
  | 0 => 1%Z
  | S k' => if decide (Z.of_nat (2 ^ k) ≤ cutoff)%Z then 1%Z
            else (1 + 7 * calls_added k' cutoff)%Z
  end.

(** Number of timed sections: two in every invocation that recurses. *)
Fixpoint timed_pairs (k : nat) (cutoff : Z) : nat :=
  match k with
  | 0 => 0
  | S k' => if decide (Z.of_nat (2 ^ k) ≤ cutoff)%Z then 0
            else 2 + 7 * timed_pairs k' cutoff
  end.

(** The total length of [n] timed sections, when the clock is read at the
    start and at the end of each and the first reading is number [t0]. *)
Definition intervals (clock : nat → Z) (t0 n : nat) : Z :=
  sumZ (λ i, (clock (t0 + 2 * i + 1)%nat - clock (t0 + 2 * i)%nat)%Z) n.

(** [track s s' dt]: the store grew and the clock was read [dt] times. *)
Definition track (s s' : state) (dt : nat) : Prop :=
  heap s ⊆ heap s' ∧ perf s' = perf s ∧ ticks s' = ticks s + dt.

(** What [_strassen_rec] returns on a [2^k] by [2^k] pair with product [v]. *)
Definition rec_post (k : nat) (cutoff : Z) (s : state) (st : StrassenStats)
    (v : list (list Z)) (r : loc * StrassenStats) (s' : state) : Prop :=
  track s s' (2 * timed_pairs k cutoff) ∧
  new_matrix s s' r.1 v ∧
  calls r.2 = (calls st + calls_added k cutoff)%Z ∧
  split_combine_time r.2
  = (split_combine_time st + intervals (perf s) (ticks s) (timed_pairs k cutoff))%Z.

(** Depth of the recursion that [mul_strassen] starts on size [n]. *)
Definition depth (n : nat) : nat := Nat.log2 (next_power_of_two n).

(** What [mul_strassen] returns on an [n] by [n] pair with product [v],
    when it starts from the statistics [st]. *)
Definition strassen_post (n : nat) (cutoff : Z) (s : state) (st : StrassenStats)
    (v : list (list Z)) (r : loc * StrassenStats) (s' : state) : Prop :=
  rec_post (depth n) cutoff s st v r s'.

(** *** Concrete stores for the examples *)

(** [A = [[1, 2], [3, 4]]] at reference 3 and [B = [[5, 6], [7, 8]]] at
    reference 6; the clock reads 0, 1, 2, ... *)
Definition store_2x2 : state :=
  State (list_to_map
           [(1%positive, ORow [1; 2]%Z); (2%positive, ORow [3; 4]%Z);
            (3%positive, OMat [1%positive; 2%positive]);
            (4%positive, ORow [5; 6]%Z); (5%positive, ORow [7; 8]%Z);
            (6%positive, OMat [4%positive; 5%positive])])
        0 Z.of_nat.

(** A 3 by 3 matrix at reference 4 and a 2 by 2 matrix at reference 7. *)
Definition store_3x3_2x2 : state :=
  State (list_to_map
           [(1%positive, ORow [1; 2; 3]%Z); (2%positive, ORow [4; 5; 6]%Z);
            (3%positive, ORow [7; 8; 9]%Z);
            (4%positive, OMat [1%positive; 2%positive; 3%positive]);
            (5%positive, ORow [1; 0]%Z); (6%positive, ORow [0; 1]%Z);
            (7%positive, OMat [5%positive; 6%positive])])
        0 Z.of_nat.

(** The inputs that the validation of [mul_classic] and [mul_strassen]
    rejects. *)
Definition invalid_pair (vA vB : list (list Z)) : Prop :=
  is_square_val vA = false ∨ is_square_val vB = false ∨ length vA ≠ length vB.

(** A call that returns a new matrix and leaves every object of the store
    of the call as it was. *)
Definition returns_new (s : state) (o : outcome loc) : Prop :=
  ∃ C s' v, o = Ret C s' ∧ heap s ⊆ heap s' ∧ new_matrix s s' C v.

(** Result matrix and call count of [mul_strassen] on two literals. *)
Definition run_strassen (fuel : nat) (v w : list (list Z)) (cutoff : Z)
  : option (list (list Z) * Z) :=
  match run2 v w (λ a b, mul_strassen fuel a b cutoff None) with
  | Ret (C, st) s => (λ c, (c, calls st)) <$> read_matrix s C
  | _ => None
  end.


(** * More of the code *)

From Stdlib Require Import DecimalString.

(** [for x in xs: body], where the body may leave the loop with a value
    ([return v] or [raise e] written as [Some v]); [None] means that the
    loop ran to its end. *)
Fixpoint for_each_exit {A R} (xs : list A) (body : A → M (option R)) : M (option R) :=
  match xs with
  | [] => ret None
  | x :: xs' =>
      r ← body x;
      match r with
      | Some v => ret (Some v)
      | None => for_each_exit xs' body
      end
  end.

Definition for_range_exit {R} (n : nat) (body : nat → M (option R)) : M (option R) :=
  for_each_exit (seq 0 n) body.

(** ** classic.py: [matrices_equal] *)

(** [A[i] != B[i]] compares two lists of integers by value. *)
Definition matrices_equal (A B : loc) : M bool :=
  nA ← len_mat A;
  nB ← len_mat B;
  if decide (nA ≠ nB) then ret false else
  n ← len_mat A;
  r ← for_range_exit n (λ i,
        Ai ← getitem_mat A i; ra ← row_of Ai;
        Bi ← getitem_mat B i; rb ← row_of Bi;
        if decide (ra ≠ rb) then ret (Some false) else ret None);
  match r with
  | Some b => ret b
  | None => ret true
  end.

(** ** benchmark.py: [medir_tempo] *)


(** ** tests_smoke.py *)

(** What a checking function of the tests does: it returns, or it raises
    [AssertionError] with a message. *)
Inductive checked :=
| Passed
| AssertionError (msg : string).

(** [str(z)] of an integer, as an f-string formats it. *)
Definition str (z : Z) : string := NilZero.string_of_int (Z.to_int z).

Definition newline : string := String (Ascii.ascii_of_nat 10) EmptyString.

Definition difference_message (msg : string) (i j : nat) (x y : Z) : string :=
  msg ++ newline ++ "Diferença em (" ++ str (Z.of_nat i) ++ "," ++ str (Z.of_nat j)
      ++ "): clássico=" ++ str x ++ " strassen=" ++ str y.

Definition garantir_iguais (C1 C2 : loc) (msg : string) : M checked :=
  eq ← matrices_equal C1 C2;
  if eq then ret Passed else
  n ← len_mat C1;
  r ← for_range_exit n (λ i,
        for_range_exit n (λ j,
          r1 ← getitem_mat C1 i; x ← getitem_row r1 j;
          r2 ← getitem_mat C2 i; y ← getitem_row r2 j;
          if decide (x ≠ y) then
            r1 ← getitem_mat C1 i; x ← getitem_row r1 j;
            r2 ← getitem_mat C2 i; y ← getitem_row r2 j;
            ret (Some (AssertionError (difference_message msg i j x y)))
          else ret None));
  match r with
  | Some e => ret e
  | None => ret (AssertionError msg)
  end.

Definition comparar_classico_vs_strassen (fuel : nat) (A B : loc) (cutoff : Z)
  : M checked :=
  C_classico ← mul_classic A B;
  '(C_strassen, _) ← mul_strassen fuel A B cutoff (Some (Stats 0 0));
  garantir_iguais C_classico C_strassen "Clássico != Strassen".

(** *** Vocabulary for the properties below *)

(** [raises m s e Q]: from [s], [m] raises [e], in a store that satisfies
    [Q]. *)
Definition raises {A} (m : M A) (s : state) (e : error) (Q : state → Prop) : Prop :=
  ∃ s', m s = Raise e s' ∧ Q s'.

(** The first position, rows first, at which two matrices differ. *)
Definition first_difference (n : nat) (v w : list (list Z)) (i j : nat) : Prop :=
  i < n ∧ j < n ∧ entry v i j ≠ entry w i j ∧
  ∀ i' j', i' < n → j' < n → (i' < i ∨ (i' = i ∧ j' < j)) →
           entry v i' j' = entry w i' j'.

(** The value with which a loop over [xs] exits, when its body exits on
    [x] with [f x]. *)
Fixpoint first_exit {A R} (f : A → option R) (xs : list A) : option R :=
  match xs with
  | [] => None
  | x :: xs' =>
      match f x with
      | Some v => Some v
      | None => first_exit f xs'
      end
  end.

(** [exhausts m s]: from [s], [m] runs out of its budget of nested calls. *)
Definition exhausts {A} (m : M A) (s : state) : Prop := m s = OutOfFuel.

(** [covers n v]: [v] has at least [n] rows, and each of the first [n] has
    at least [n] items. *)
Definition covers (n : nat) (v : list (list Z)) : bool :=
  bool_decide (n ≤ length v) && forallb (λ r, bool_decide (n ≤ length r)) (take n v).

(** An empty matrix at reference 1. *)
Definition store_empty : state :=
  State (list_to_map [(1%positive, OMat [])]) 0 Z.of_nat.

(** Entry [(i, j)] of four [mid] by [mid] blocks put side by side and on
    top of each other. *)
Definition block_entry (mid : nat) (v11 v12 v21 v22 : list (list Z)) (i j : nat) : Z :=
  if decide (i < mid)
  then if decide (j < mid) then entry v11 i j else entry v12 i (j - mid)
  else if decide (j < mid) then entry v21 (i - mid) j
       else entry v22 (i - mid) (j - mid).

(** * Proofs *)

(** ** Reasoning about computations *)

Lemma returns_ret {A} (a : A) s (Q : A → state → Prop) :
  Q a s → returns (ret a) s Q.
Proof. intros HQ. exists a, s. done. Qed.

Lemma returns_bind {A B} (m : M A) (k : A → M B) s (Q : B → state → Prop) :
  returns m s (λ a s', returns (k a) s' Q) → returns (bind m k) s Q.
Proof.
  intros (a & s' & Hm & b & s'' & Hk & HQ).
  exists b, s''. unfold bind. by rewrite Hm.
Qed.

Lemma returns_mono {A} (m : M A) s (Q Q' : A → state → Prop) :
  returns m s Q → (∀ a s', Q a s' → Q' a s') → returns m s Q'.
Proof. intros (a & s' & Hm & HQ) HQQ. exists a, s'. eauto. Qed.

Lemma extends_refl s : extends s s.
Proof. done. Qed.

Lemma extends_trans s1 s2 s3 : extends s1 s2 → extends s2 s3 → extends s1 s3.
Proof.
  intros (H1 & H2 & H3) (H4 & H5 & H6). split; [by etrans|]. split; congruence.
Qed.

Lemma row_at_mono s s' l r : heap s ⊆ heap s' → row_at s l r → row_at s' l r.
Proof. intros Hsub Hr. by eapply lookup_weaken. Qed.

Lemma rows_at_mono s s' ls v :
  heap s ⊆ heap s' → Forall2 (row_at s) ls v → Forall2 (row_at s') ls v.
Proof.
  intros Hsub Hrows. eapply Forall2_impl; [done|].
  intros l r. by apply row_at_mono.
Qed.

Lemma mat_at_mono s s' A v : heap s ⊆ heap s' → mat_at s A v → mat_at s' A v.
Proof.
  intros Hsub (ls & HA & Hrows). exists ls. split; [by eapply lookup_weaken|].
  by eapply rows_at_mono.
Qed.

Lemma read_row_at s l r : read_row s l = Some r ↔ row_at s l r.
Proof.
  unfold read_row, row_at. destruct (heap s !! l) as [[r'|ls]|]; naive_solver.
Qed.

Lemma read_matrix_at s A v : read_matrix s A = Some v ↔ mat_at s A v.
Proof.
  unfold read_matrix, mat_at. destruct (heap s !! A) as [[r'|ls]|].
  - split; [done|]. by intros (? & ? & ?).
  - rewrite mapM_Some. split.
    + intros H. exists ls. split; [done|]. eapply Forall2_impl; [done|].
      intros l r. apply read_row_at.
    + intros (ls' & [= <-] & H). eapply Forall2_impl; [done|].
      intros l r. apply read_row_at.
  - split; [done|]. by intros (? & ? & ?).
Qed.

(** *** Equations for the primitives *)

Lemma returns_bind_eq {A B} (m : M A) (k : A → M B) s a s' (Q : B → state → Prop) :
  m s = Ret a s' → returns (k a) s' Q → returns (bind m k) s Q.
Proof. intros Hm (b & s'' & Hk & HQ). exists b, s''. unfold bind. by rewrite Hm. Qed.

Lemma mat_of_eq s A ls : heap s !! A = Some (OMat ls) → mat_of A s = Ret ls s.
Proof. intros H. unfold mat_of. by rewrite H. Qed.

Lemma len_mat_eq s A ls : heap s !! A = Some (OMat ls) → len_mat A s = Ret (length ls) s.
Proof. intros H. unfold len_mat, bind. by rewrite (mat_of_eq _ _ _ H). Qed.

Lemma getitem_mat_eq s A ls i l :
  heap s !! A = Some (OMat ls) → ls !! i = Some l → getitem_mat A i s = Ret l s.
Proof. intros H Hi. unfold getitem_mat, bind. by rewrite (mat_of_eq _ _ _ H), Hi. Qed.

Lemma row_of_eq s l r : row_at s l r → row_of l s = Ret r s.
Proof. intros H. unfold row_of. by rewrite H. Qed.

Lemma len_row_eq s l r : row_at s l r → len_row l s = Ret (length r) s.
Proof. intros H. unfold len_row, bind. by rewrite (row_of_eq _ _ _ H). Qed.

Lemma getitem_row_eq s l r j x :
  row_at s l r → r !! j = Some x → getitem_row l j s = Ret x s.
Proof. intros H Hj. unfold getitem_row, bind. by rewrite (row_of_eq _ _ _ H), Hj. Qed.

Lemma store_row_eq s l r r' :
  row_at s l r → store_row l r' s = Ret tt (set_heap (<[l := ORow r']> (heap s)) s).
Proof. intros H. unfold store_row. by rewrite H. Qed.

Lemma setitem_row_eq s l r j x :
  row_at s l r → j < length r →
  setitem_row l j x s = Ret tt (set_heap (<[l := ORow (<[j := x]> r)]> (heap s)) s).
Proof.
  intros H Hj. unfold setitem_row, bind. rewrite (row_of_eq _ _ _ H).
  rewrite decide_True by done. by eapply store_row_eq.
Qed.

Lemma setslice_to_eq s l r mid xs :
  row_at s l r →
  setslice_to l mid xs s = Ret tt (set_heap (<[l := ORow (xs ++ drop mid r)]> (heap s)) s).
Proof.
  intros H. unfold setslice_to, bind. rewrite (row_of_eq _ _ _ H).
  by eapply store_row_eq.
Qed.

Lemma setslice_from_eq s l r mid xs :
  row_at s l r →
  setslice_from l mid xs s = Ret tt (set_heap (<[l := ORow (take mid r ++ xs)]> (heap s)) s).
Proof.
  intros H. unfold setslice_from, bind. rewrite (row_of_eq _ _ _ H).
  by eapply store_row_eq.
Qed.

Lemma mat_at_len s A v : mat_at s A v → len_mat A s = Ret (length v) s.
Proof.
  intros (ls & HA & Hrows). rewrite <- (Forall2_length _ _ _ Hrows).
  by apply len_mat_eq.
Qed.

(** Allocation returns a reference that the store does not hold yet. *)
Lemma alloc_eq o s :
  ∃ l, heap s !! l = None ∧ alloc o s = Ret l (set_heap (<[l := o]> (heap s)) s).
Proof.
  exists (fresh (dom (heap s))). split; [|done].
  apply not_elem_of_dom, is_fresh.
Qed.

Lemma extends_insert s l o :
  heap s !! l = None → extends s (set_heap (<[l := o]> (heap s)) s).
Proof. intros H. split; [|done]. simpl. by apply insert_subseteq. Qed.

(** *** Loops *)

Lemma for_each_seq_returns (I : nat → state → Prop) body len : ∀ start s,
  I start s →
  (∀ i s, start ≤ i < start + len → I i s →
          returns (body i) s (λ _ s', I (S i) s')) →
  returns (for_each (seq start len) body) s (λ _ s', I (start + len) s').
Proof.
  induction len as [|len IH]; intros start s HI Hbody; simpl.
  - apply returns_ret. by rewrite Nat.add_0_r.
  - apply returns_bind. eapply returns_mono; [apply Hbody; [lia|done]|].
    intros [] s' HI'. simpl in HI'.
    replace (start + S len) with (S start + len) by lia.
    apply IH; [done|]. intros i s1 Hi. apply Hbody. lia.
Qed.

Lemma for_range_returns (I : nat → state → Prop) n body s :
  I 0 s →
  (∀ i s, i < n → I i s → returns (body i) s (λ _ s', I (S i) s')) →
  returns (for_range n body) s (λ _ s', I n s').
Proof.
  intros HI Hbody. apply (for_each_seq_returns I body n 0 s HI).
  intros i s1 Hi. apply Hbody. lia.
Qed.

(** A loop whose body only reads the store computes a left fold. *)
Lemma fold_each_pure {A S} (xs : list A) (body : A → S → M S) (g : S → A → S) s :
  ∀ acc, (∀ x a, x ∈ xs → body x a s = Ret (g a x) s) →
  fold_each xs body acc s = Ret (foldl g acc xs) s.
Proof.
  induction xs as [|x xs IH]; intros acc Hbody; simpl; [done|].
  unfold bind. rewrite Hbody by set_solver.
  apply IH. intros y a Hy. apply Hbody. set_solver.
Qed.

(** *** Matrices under construction *)

Lemma rows_at_store s cs vs i l r' :
  NoDup cs → cs !! i = Some l → Forall2 (row_at s) cs vs →
  Forall2 (row_at (set_heap (<[l := ORow r']> (heap s)) s)) cs (<[i := r']> vs).
Proof.
  intros Hnd Hl Hrows.
  apply Forall2_same_length_lookup in Hrows as [Hlen Hrows].
  apply Forall2_same_length_lookup. split; [by rewrite length_insert|].
  intros k x y Hx Hy. unfold row_at. simpl.
  destruct (decide (k = i)) as [->|Hne].
  - rewrite Hl in Hx. injection Hx as <-.
    rewrite list_lookup_insert_eq in Hy by (rewrite <- Hlen; by eapply lookup_lt_Some).
    injection Hy as <-. by rewrite lookup_insert_eq.
  - rewrite list_lookup_insert_ne in Hy by done.
    rewrite lookup_insert_ne; [by eapply Hrows|].
    intros ->. apply Hne. by eapply NoDup_lookup.
Qed.

Lemma filling_store s0 s C cs vs i l r' :
  filling s0 s C cs vs → cs !! i = Some l →
  filling s0 (set_heap (<[l := ORow r']> (heap s)) s) C cs (<[i := r']> vs).
Proof.
  intros [Hext HC Hnew Hnd Hrn Hrows] Hl.
  assert (heap s0 !! l = None) as Hl0.
  { eapply Forall_lookup_1 in Hrn; [|done]. done. }
  assert (∃ r, row_at s l r) as [r Hr].
  { destruct (Forall2_lookup_l _ _ _ _ _ Hrows Hl) as (r & _ & Hr). by exists r. }
  split; try done.
  - destruct Hext as (Hsub & Ht & Hp). split; [|done]. simpl.
    by apply insert_subseteq_r.
  - simpl. rewrite lookup_insert_ne; [done|]. intros ->.
    unfold row_at in Hr. congruence.
  - by apply rows_at_store.
Qed.

Lemma filling_getitem s0 s C cs vs i :
  filling s0 s C cs vs → i < length vs →
  ∃ l r, getitem_mat C i s = Ret l s ∧ cs !! i = Some l ∧ vs !! i = Some r ∧ row_at s l r.
Proof.
  intros Hf Hi. destruct (lookup_lt_is_Some_2 vs i Hi) as [r Hr].
  destruct (Forall2_lookup_r _ _ _ _ _ (fill_rows _ _ _ _ _ Hf) Hr) as (l & Hl & Hlr).
  exists l, r. split; [|done]. eapply getitem_mat_eq; [apply Hf|done].
Qed.

Lemma filling_done s0 s C cs vs : filling s0 s C cs vs → produces s0 vs C s.
Proof. intros [Hext HC Hnew Hnd Hrn Hrows]. split; [done|]. by exists cs. Qed.

Lemma new_matrix_at s s' C v : new_matrix s s' C v → mat_at s' C v.
Proof. intros (cs & HC & _ & _ & Hrows). by exists cs. Qed.

Lemma produces_weaken s0 s v C s' :
  extends s0 s → produces s v C s' → produces s0 v C s'.
Proof.
  intros Hext [Hext' (cs & HC & Hnew & Hrn & Hrows)].
  split; [by eapply extends_trans|]. exists cs.
  destruct Hext as (Hsub & _). repeat split; try done.
  - by eapply lookup_weaken_None.
  - eapply Forall_impl; [done|]. intros l Hl. simpl in *.
    eapply lookup_weaken_None; eassumption.
Qed.

(** *** Comprehensions that allocate rows *)

Lemma list_comp_alloc {A} (f : A → M loc) (val : A → list Z) (xs : list A) s0 :
  (∀ x s, x ∈ xs → extends s0 s →
     ∃ l, heap s !! l = None ∧
          f x s = Ret l (set_heap (<[l := ORow (val x)]> (heap s)) s)) →
  ∀ s, extends s0 s →
  returns (list_comp f xs) s (λ ls s',
    extends s s' ∧ NoDup ls ∧ Forall (λ l, heap s !! l = None) ls ∧
    Forall2 (row_at s') ls (map val xs)).
Proof.
  induction xs as [|x xs IH]; intros Hf s Hs; simpl.
  - apply returns_ret. split; [done|]. split; [constructor|]. split; constructor.
  - destruct (Hf x s) as (l & Hl & Hfx); [set_solver|done|].
    eapply returns_bind_eq; [exact Hfx|].
    set (s1 := set_heap (<[l := ORow (val x)]> (heap s)) s).
    assert (extends s s1) as Hs1 by by apply extends_insert.
    apply returns_bind. eapply returns_mono.
    { apply IH; [|by eapply extends_trans].
      intros y s2 Hy. apply Hf. set_solver. }
    intros ls s' (Hext & Hnd & Hnew & Hrows). apply returns_ret.
    assert (row_at s' l (val x)) as Hlrow.
    { eapply row_at_mono; [apply Hext|]. unfold row_at, s1. simpl.
      by rewrite lookup_insert_eq. }
    split; [by eapply extends_trans|]. split; [|split].
    + constructor; [|done]. intros Hin.
      rewrite Forall_forall in Hnew. specialize (Hnew l Hin).
      simpl in Hnew. by rewrite lookup_insert_eq in Hnew.
    + constructor; [done|]. eapply Forall_impl; [done|].
      intros l' Hl'. simpl in Hl'. eapply lookup_weaken_None; [exact Hl'|].
      apply Hs1.
    + by constructor.
Qed.

Lemma map_const_seq {A} (z : A) n start : map (λ _, z) (seq start n) = replicate n z.
Proof. revert start. induction n as [|n IH]; intros start; simpl; [done|]. by rewrite IH. Qed.

Lemma new_mat_filling s0 s cs vs :
  extends s0 s → NoDup cs → Forall (λ l, heap s0 !! l = None) cs →
  Forall2 (row_at s) cs vs →
  returns (new_mat cs) s (λ C s', filling s0 s' C cs vs).
Proof.
  intros Hext Hnd Hnew Hrows. destruct (alloc_eq (OMat cs) s) as (C & HC & Heq).
  exists C, (set_heap (<[C := OMat cs]> (heap s)) s). split; [done|].
  pose proof (extends_insert s C (OMat cs) HC) as Hext'.
  split; try done.
  - by eapply extends_trans.
  - simpl. by rewrite lookup_insert_eq.
  - eapply lookup_weaken_None; [exact HC|apply Hext].
  - eapply rows_at_mono; [apply Hext'|done].
Qed.

Lemma zeros_filling n s :
  returns (zeros n) s (λ C s', ∃ cs, filling s s' C cs (replicate n (replicate n 0%Z))).
Proof.
  unfold zeros. apply returns_bind. eapply returns_mono.
  { apply (list_comp_alloc _ (λ _, replicate n 0%Z) (seq 0 n) s); [|done].
    intros _ s1 _ _. apply alloc_eq. }
  intros cs s1 (Hext & Hnd & Hnew & Hrows). rewrite map_const_seq in Hrows.
  eapply returns_mono; [by apply (new_mat_filling s s1 cs)|].
  intros C s2 Hf. by exists cs.
Qed.

Lemma sliced_rows_produces (slice : list Z → list Z) rows vs s :
  Forall2 (row_at s) rows vs →
  returns (sliced_rows slice rows) s (produces s (map slice vs)).
Proof.
  intros Hrows. unfold sliced_rows.
  set (val := λ l : loc, match heap s !! l with
                         | Some (ORow r) => slice r
                         | _ => []
                         end).
  assert (map val rows = map slice vs) as Hval.
  { clear -Hrows. induction Hrows as [|l r ls rs Hl _ IH]; simpl; [done|].
    rewrite IH. f_equal. unfold val. by rewrite Hl. }
  apply returns_bind. eapply returns_mono.
  { apply (list_comp_alloc _ val rows s); [|done].
    intros l s1 Hl Hext.
    apply list_elem_of_lookup in Hl as [i Hi].
    destruct (Forall2_lookup_l _ _ _ _ _ Hrows Hi) as (r & _ & Hr).
    assert (row_at s1 l r) as Hr1 by (eapply row_at_mono; [apply Hext|done]).
    destruct (alloc_eq (ORow (slice r)) s1) as (l' & Hl' & Heq).
    exists l'. split; [done|]. unfold bind. rewrite (row_of_eq _ _ _ Hr1).
    unfold val. rewrite Hr. exact Heq. }
  intros cs s1 (Hext & Hnd & Hnew & Hrows1). rewrite Hval in Hrows1.
  eapply returns_mono; [by apply (new_mat_filling s s1 cs)|].
  intros C s2 Hf. by apply filling_done in Hf.
Qed.


(** *** Filling a zero matrix row by row *)

Lemma fill_step {A} (F : list A) (z : A) n i x :
  F !! i = Some x → i < n →
  <[i := x]> (take i F ++ replicate (n - i) z)
  = take (S i) F ++ replicate (n - S i) z.
Proof.
  intros Hx Hi. pose proof (lookup_lt_Some _ _ _ Hx) as Hlt.
  rewrite (take_S_r _ _ _ Hx), <- app_assoc.
  rewrite insert_app_r_alt by (rewrite length_take; lia).
  rewrite length_take, Nat.min_l, Nat.sub_diag by lia.
  replace (n - i) with (S (n - S i)) by lia. done.
Qed.

Lemma fill_start {A} (F : list A) (z : A) n : replicate n z = take 0 F ++ replicate (n - 0) z.
Proof. by rewrite take_0, Nat.sub_0_r. Qed.

Lemma fill_lookup {A} (F : list A) (z : A) n i :
  i < n → i ≤ length F → (take i F ++ replicate (n - i) z) !! i = Some z.
Proof.
  intros Hi HF. rewrite lookup_app_r by (rewrite length_take; lia).
  rewrite length_take, Nat.min_l, Nat.sub_diag by lia.
  replace (n - i) with (S (n - S i)) by lia. done.
Qed.

Lemma fill_length {A} (F : list A) (z : A) n i :
  i ≤ n → i ≤ length F → length (take i F ++ replicate (n - i) z) = n.
Proof. intros. rewrite length_app, length_take, length_replicate. lia. Qed.

(** The inner loop: iteration [j] stores [Fi[j]] at [Ci[j]]. *)
Lemma fill_row_loop s0 s C cs vs i lc (n m : nat) (Fi : list Z) (body : nat → M unit) :
  filling s0 s C cs vs → cs !! i = Some lc →
  vs !! i = Some (replicate m 0%Z) → n ≤ m → n ≤ length Fi →
  (∀ j s' r x, j < n → extends s0 s' → row_at s' lc r → j < length r →
     Fi !! j = Some x →
     body j s' = Ret tt (set_heap (<[lc := ORow (<[j := x]> r)]> (heap s')) s')) →
  returns (for_range n body) s
    (λ _ s', filling s0 s' C cs (<[i := take n Fi ++ replicate (m - n) 0%Z]> vs)).
Proof.
  intros Hfill Hlc Hvi Hnm HnF Hbody.
  pose proof (lookup_lt_Some _ _ _ Hvi) as Hilt.
  apply (for_range_returns
    (λ j s', filling s0 s' C cs (<[i := take j Fi ++ replicate (m - j) 0%Z]> vs))).
  - rewrite <- fill_start. by rewrite list_insert_id.
  - intros j s1 Hj Hf1.
    destruct (lookup_lt_is_Some_2 Fi j) as [x Hx]; [lia|].
    set (r := take j Fi ++ replicate (m - j) 0%Z) in *.
    assert (row_at s1 lc r) as Hr.
    { pose proof (fill_rows _ _ _ _ _ Hf1) as Hrows.
      eapply Forall2_lookup_lr in Hrows; [exact Hrows|exact Hlc|].
      by rewrite list_lookup_insert_eq. }
    exists tt. eexists. split.
    + apply (Hbody j s1 r x); try done; [apply Hf1|].
      unfold r. rewrite fill_length; lia.
    + apply (filling_store _ _ _ _ _ i lc (<[j := x]> r)) in Hf1; [|done].
      rewrite list_insert_insert_eq in Hf1. unfold r in *.
      rewrite (fill_step Fi 0%Z m j x) in Hf1; [|done|lia].
      rewrite (fill_step Fi 0%Z m j x); [done|done|lia].
Qed.

(** The outer loop: iteration [i] turns row [off + i], still zero, into
    row [off + i] of [F]. *)
Lemma fill_matrix_loop s0 s C cs (off n m : nat) (z : list Z) (F : list (list Z))
    (body : nat → M unit) :
  filling s0 s C cs (take off F ++ replicate (m - off) z) →
  off + n ≤ m → off + n ≤ length F →
  (∀ i s' vs Fi, i < n → filling s0 s' C cs vs → length vs = m →
     vs !! (off + i) = Some z → F !! (off + i) = Some Fi →
     returns (body i) s' (λ _ s'', filling s0 s'' C cs (<[off + i := Fi]> vs))) →
  returns (for_range n body) s
    (λ _ s', filling s0 s' C cs (take (off + n) F ++ replicate (m - (off + n)) z)).
Proof.
  intros Hfill Hnm HnF Hbody.
  apply (for_range_returns
    (λ i s', filling s0 s' C cs (take (off + i) F ++ replicate (m - (off + i)) z))).
  - by rewrite Nat.add_0_r.
  - intros i s1 Hi Hf1.
    destruct (lookup_lt_is_Some_2 F (off + i)) as [Fi HFi]; [lia|].
    eapply returns_mono.
    + apply (Hbody i s1 _ Fi Hi Hf1); [|apply fill_lookup; lia|done].
      rewrite fill_length; lia.
    + intros [] s2 Hf2. simpl in Hf2.
      rewrite (fill_step F z m (off + i) Fi) in Hf2; [|done|lia].
      by replace (off + S i) with (S (off + i)) by lia.
Qed.


(** ** matrix.py: what each function returns *)

Lemma mat_getitem_ext s0 s A v i r :
  mat_at s0 A v → extends s0 s → v !! i = Some r →
  ∃ l, getitem_mat A i s = Ret l s ∧ row_at s0 l r.
Proof.
  intros (ls & HA & Hrows) Hext Hi.
  destruct (Forall2_lookup_r _ _ _ _ _ Hrows Hi) as (l & Hl & Hr).
  exists l. split; [|done]. eapply getitem_mat_eq; [|done].
  eapply lookup_weaken; [done|apply Hext].
Qed.

Lemma row_getitem_ext s0 s l r j x :
  row_at s0 l r → extends s0 s → r !! j = Some x → getitem_row l j s = Ret x s.
Proof.
  intros Hr Hext Hj. eapply getitem_row_eq; [|done].
  eapply row_at_mono; [apply Hext|done].
Qed.

Lemma dims_lookup n m v i r : dims n m v → v !! i = Some r → length r = m.
Proof. intros [_ Hrows] Hi. by eapply (Forall_lookup_1 _ _ _ _ Hrows Hi). Qed.

Lemma filling_zero_start s0 s C cs m (z : list Z) (F : list (list Z)) :
  filling s0 s C cs (replicate m z) →
  filling s0 s C cs (take 0 F ++ replicate (m - 0) z).
Proof. by rewrite <- fill_start. Qed.

Lemma fill_end {A} (F : list A) (z : A) n : length F = n → take n F ++ replicate (n - n) z = F.
Proof. intros <-. by rewrite firstn_all, Nat.sub_diag, app_nil_r. Qed.

Lemma elementwise_produces op s A B vA vB n :
  mat_at s A vA → mat_at s B vB → square n vA → square n vB →
  returns (elementwise op A B) s (produces s (zip_with (zip_with op) vA vB)).
Proof.
  intros HA HB HsA HsB. pose proof HsA as [HlA _]. pose proof HsB as [HlB _].
  unfold elementwise.
  eapply returns_bind_eq; [by apply mat_at_len|]. rewrite HlA.
  apply returns_bind. eapply returns_mono; [apply zeros_filling|].
  intros C s1 (cs & Hfill). simpl.
  set (F := zip_with (zip_with op) vA vB).
  assert (length F = n) as HlF by (unfold F; rewrite length_zip_with; lia).
  apply returns_bind. eapply returns_mono.
  { apply (fill_matrix_loop s s1 C cs 0 n n (replicate n 0%Z) F);
      [by apply filling_zero_start|lia|lia|].
    intros i s2 vs Fi Hi Hf2 Hlen Hvi HFi. simpl in Hvi, HFi |- *.
    unfold F in HFi. apply lookup_zip_with_Some in HFi as (ra & rb & -> & Hra & Hrb).
    pose proof (dims_lookup _ _ _ _ _ HsA Hra) as Hlra.
    pose proof (dims_lookup _ _ _ _ _ HsB Hrb) as Hlrb.
    destruct (mat_getitem_ext s s2 A vA i ra HA (fill_ext _ _ _ _ _ Hf2) Hra)
      as (la & Hla & Hrowa).
    destruct (mat_getitem_ext s s2 B vB i rb HB (fill_ext _ _ _ _ _ Hf2) Hrb)
      as (lb & Hlb & Hrowb).
    destruct (filling_getitem s s2 C cs vs i Hf2) as (lc & rc & Hlc & Hcs & Hvs & _);
      [lia|].
    eapply returns_bind_eq; [exact Hla|].
    eapply returns_bind_eq; [exact Hlb|].
    eapply returns_bind_eq; [exact Hlc|].
    eapply returns_mono.
    { apply (fill_row_loop s s2 C cs vs i lc n n (zip_with op ra rb)); try done.
      { rewrite length_zip_with. lia. }
      intros j s3 r x Hj Hext Hr Hjr Hx.
      apply lookup_zip_with_Some in Hx as (a & b & -> & Ha & Hb).
      unfold bind.
      rewrite (row_getitem_ext s s3 la ra j a), (row_getitem_ext s s3 lb rb j b) by done.
      by eapply setitem_row_eq. }
    intros [] s3 Hf3. simpl in Hf3.
    rewrite fill_end in Hf3; [done|]. rewrite length_zip_with. lia. }
  intros [] s2 Hf2. apply returns_ret. simpl in Hf2.
  rewrite fill_end in Hf2 by done. by eapply filling_done.
Qed.

Lemma add_produces s A B vA vB n :
  mat_at s A vA → mat_at s B vB → square n vA → square n vB →
  returns (add A B) s (produces s (madd vA vB)).
Proof. apply (elementwise_produces Z.add). Qed.

Lemma sub_produces s A B vA vB n :
  mat_at s A vA → mat_at s B vB → square n vA → square n vB →
  returns (sub A B) s (produces s (msub vA vB)).
Proof. apply (elementwise_produces Z.sub). Qed.

Lemma mpad_length m v : length v ≤ m → length (mpad m v) = m.
Proof.
  intros H. unfold mpad. rewrite length_app, length_map, length_replicate. lia.
Qed.

Lemma mpad_lookup m v i r :
  v !! i = Some r → mpad m v !! i = Some (r ++ replicate (m - length r) 0%Z).
Proof.
  intros Hi. unfold mpad. rewrite lookup_app_l.
  - by rewrite list_lookup_fmap, Hi.
  - rewrite length_map. by eapply lookup_lt_Some.
Qed.

Lemma mpad_fill_end m v :
  length v ≤ m →
  take (length v) (mpad m v) ++ replicate (m - length v) (replicate m 0%Z) = mpad m v.
Proof.
  intros H. unfold mpad. rewrite take_app_length'; [done|]. by rewrite length_map.
Qed.

Lemma pad_to_size_produces s A vA n m :
  mat_at s A vA → square n vA → n ≤ m →
  returns (pad_to_size A m) s (produces s (mpad m vA)).
Proof.
  intros HA HsA Hnm. pose proof HsA as [HlA _]. unfold pad_to_size.
  eapply returns_bind_eq; [by apply mat_at_len|]. rewrite HlA.
  apply returns_bind. eapply returns_mono; [apply zeros_filling|].
  intros P s1 (cs & Hfill). simpl.
  apply returns_bind. eapply returns_mono.
  { apply (fill_matrix_loop s s1 P cs 0 n m (replicate m 0%Z) (mpad m vA));
      [by apply filling_zero_start|lia|rewrite mpad_length; lia|].
    intros i s2 vs Fi Hi Hf2 Hlen Hvi HFi. simpl in Hvi, HFi |- *.
    destruct (lookup_lt_is_Some_2 vA i) as [ra Hra]; [lia|].
    rewrite (mpad_lookup m vA i ra Hra) in HFi. injection HFi as <-.
    pose proof (dims_lookup _ _ _ _ _ HsA Hra) as Hlra.
    destruct (filling_getitem s s2 P cs vs i Hf2) as (lc & rc & Hlc & Hcs & Hvs & _);
      [lia|].
    destruct (mat_getitem_ext s s2 A vA i ra HA (fill_ext _ _ _ _ _ Hf2) Hra)
      as (la & Hla & Hrowa).
    eapply returns_bind_eq; [exact Hlc|].
    eapply returns_bind_eq; [exact Hla|].
    eapply returns_mono.
    { apply (fill_row_loop s s2 P cs vs i lc n m ra); try done; [lia|].
      intros j s3 r x Hj Hext Hr Hjr Hx. unfold bind.
      rewrite (row_getitem_ext s s3 la ra j x) by done.
      by eapply setitem_row_eq. }
    intros [] s3 Hf3. simpl in Hf3. rewrite take_ge in Hf3 by lia.
    by rewrite Hlra. }
  intros [] s2 Hf2. apply returns_ret. simpl in Hf2.
  rewrite <- HlA in Hf2. rewrite mpad_fill_end in Hf2 by lia.
  by eapply filling_done.
Qed.


Lemma returns_eq {A} (m : M A) s a s' (Q : A → state → Prop) :
  m s = Ret a s' → Q a s' → returns m s Q.
Proof. intros Hm HQ. by exists a, s'. Qed.

Lemma new_matrix_mono s0 s s' C v :
  heap s ⊆ heap s' → new_matrix s0 s C v → new_matrix s0 s' C v.
Proof.
  intros Hsub (cs & HC & Hnew & Hrn & Hrows). exists cs.
  repeat split; try done.
  - by eapply lookup_weaken.
  - by eapply rows_at_mono.
Qed.

Lemma mat_at_rows s A v :
  mat_at s A v → ∃ ls, mat_of A s = Ret ls s ∧ Forall2 (row_at s) ls v.
Proof. intros (ls & HA & Hrows). exists ls. split; [by apply mat_of_eq|done]. Qed.

Lemma crop_produces s A v n :
  mat_at s A v → returns (crop A n) s (produces s (mcrop n v)).
Proof.
  intros HA. destruct (mat_at_rows _ _ _ HA) as (ls & Hls & Hrows). unfold crop.
  eapply returns_bind_eq; [exact Hls|].
  apply sliced_rows_produces. by apply Forall2_take.
Qed.

Lemma split_returns s A v :
  mat_at s A v → returns (split A) s (split_post s v).
Proof.
  intros HA. destruct (mat_at_rows _ _ _ HA) as (ls & Hls & Hrows).
  pose proof (Forall2_length _ _ _ Hrows) as Hlen. unfold split.
  eapply returns_bind_eq; [by apply mat_at_len|].
  eapply returns_bind_eq; [exact Hls|].
  set (mid := length v / 2).
  apply returns_bind. eapply returns_mono.
  { apply (sliced_rows_produces (take mid) (take mid ls) (take mid v)).
    by apply Forall2_take. }
  intros A11 s1 [Hext1 Hn1]. simpl.
  apply returns_bind. eapply returns_mono.
  { apply (sliced_rows_produces (drop mid) (take mid ls) (take mid v)).
    apply Forall2_take. eapply rows_at_mono; [apply Hext1|done]. }
  intros A12 s2 H2. pose proof (proj1 H2) as Hs12.
  apply (produces_weaken s s1) in H2 as [Hext2 Hn2]; [|done]. simpl.
  apply returns_bind. eapply returns_mono.
  { apply (sliced_rows_produces (take mid) (drop mid ls) (drop mid v)).
    apply Forall2_drop. eapply rows_at_mono; [apply Hext2|done]. }
  intros A21 s3 H3. pose proof (proj1 H3) as Hs23.
  apply (produces_weaken s s2) in H3 as [Hext3 Hn3]; [|done]. simpl.
  apply returns_bind. eapply returns_mono.
  { apply (sliced_rows_produces (drop mid) (drop mid ls) (drop mid v)).
    apply Forall2_drop. eapply rows_at_mono; [apply Hext3|done]. }
  intros A22 s4 H4. pose proof (proj1 H4) as Hs34.
  apply (produces_weaken s s3) in H4 as [Hext4 Hn4]; [|done]. simpl.
  apply returns_ret. unfold split_post. split; [done|].
  pose proof (extends_trans _ _ _ Hs23 Hs34) as Hs24.
  pose proof (extends_trans _ _ _ Hs12 Hs24) as Hs14.
  split; [exact (new_matrix_mono _ _ _ _ _ (proj1 Hs14) Hn1)|].
  split; [exact (new_matrix_mono _ _ _ _ _ (proj1 Hs24) Hn2)|].
  split; [exact (new_matrix_mono _ _ _ _ _ (proj1 Hs34) Hn3)|done].
Qed.


(** One iteration of either loop of [combine]: row [k] of [C], still zero,
    becomes row [i] of the left block followed by row [i] of the right. *)
Lemma combine_row s0 s C cs vs k (mid : nat) X Y vX vY i xs ys :
  filling s0 s C cs vs → vs !! k = Some (replicate (mid * 2) 0%Z) →
  mat_at s0 X vX → mat_at s0 Y vY →
  vX !! i = Some xs → vY !! i = Some ys → length xs = mid →
  returns
    ((x ← getitem_mat X i; Ci ← getitem_mat C k; xs ← row_of x;
      setslice_to Ci mid xs);;
     (y ← getitem_mat Y i; Ci ← getitem_mat C k; ys ← row_of y;
      setslice_from Ci mid ys)) s
    (λ _ s', filling s0 s' C cs (<[k := xs ++ ys]> vs)).
Proof.
  intros Hf Hk HX HY Hxs Hys Hlen.
  pose proof (lookup_lt_Some _ _ _ Hk) as Hklt.
  destruct (mat_getitem_ext s0 s X vX i xs HX (fill_ext _ _ _ _ _ Hf) Hxs)
    as (lx & Hlx & Hrowx).
  destruct (filling_getitem s0 s C cs vs k Hf Hklt) as (lc & rc & Hlc & Hcs & Hvs & Hrc).
  rewrite Hk in Hvs. injection Hvs as <-.
  apply returns_bind.
  eapply returns_bind_eq; [exact Hlx|].
  eapply returns_bind_eq; [exact Hlc|].
  eapply returns_bind_eq.
  { apply row_of_eq. eapply row_at_mono; [apply Hf|exact Hrowx]. }
  eapply returns_eq; [by eapply setslice_to_eq|].
  set (r1 := xs ++ drop mid (replicate (mid * 2) 0%Z)).
  pose proof (filling_store _ _ _ _ _ k lc r1 Hf Hcs) as Hf1.
  set (s1 := set_heap (<[lc := ORow r1]> (heap s)) s) in *.
  destruct (mat_getitem_ext s0 s1 Y vY i ys HY (fill_ext _ _ _ _ _ Hf1) Hys)
    as (ly & Hly & Hrowy).
  assert (getitem_mat C k s1 = Ret lc s1) as Hlc1.
  { eapply getitem_mat_eq; [apply Hf1|done]. }
  assert (row_at s1 lc r1) as Hrc1.
  { unfold row_at, s1. simpl. by rewrite lookup_insert_eq. }
  eapply returns_bind_eq; [exact Hly|].
  eapply returns_bind_eq; [exact Hlc1|].
  eapply returns_bind_eq.
  { apply row_of_eq. eapply row_at_mono; [apply Hf1|exact Hrowy]. }
  eapply returns_eq; [by eapply setslice_from_eq|].
  pose proof (filling_store _ _ _ _ _ k lc (take mid r1 ++ ys) Hf1 Hcs) as Hf2.
  rewrite list_insert_insert_eq in Hf2.
  assert (take mid r1 = xs) as Ht by (unfold r1; by rewrite take_app_length').
  rewrite Ht in Hf2 |- *. exact Hf2.
Qed.

Lemma mcombine_lookup_top v11 v12 v21 v22 i xs ys :
  v11 !! i = Some xs → v12 !! i = Some ys →
  mcombine v11 v12 v21 v22 !! i = Some (xs ++ ys).
Proof.
  intros Hx Hy. unfold mcombine. rewrite lookup_app_l.
  - rewrite lookup_zip_with, Hx. simpl. by rewrite Hy.
  - rewrite length_zip_with.
    pose proof (lookup_lt_Some _ _ _ Hx). pose proof (lookup_lt_Some _ _ _ Hy). lia.
Qed.

Lemma mcombine_lookup_bottom v11 v12 v21 v22 mid i xs ys :
  length v11 = mid → length v12 = mid →
  v21 !! i = Some xs → v22 !! i = Some ys →
  mcombine v11 v12 v21 v22 !! (mid + i) = Some (xs ++ ys).
Proof.
  intros H11 H12 Hx Hy. unfold mcombine.
  rewrite lookup_app_r by (rewrite length_zip_with; lia).
  rewrite length_zip_with, H11, H12, Nat.min_id.
  replace (mid + i - mid) with i by lia.
  rewrite lookup_zip_with, Hx. simpl. by rewrite Hy.
Qed.

Lemma mcombine_length v11 v12 v21 v22 mid :
  length v11 = mid → length v12 = mid → length v21 = mid → length v22 = mid →
  length (mcombine v11 v12 v21 v22) = mid * 2.
Proof.
  intros. unfold mcombine. rewrite length_app, !length_zip_with. lia.
Qed.

Lemma combine_produces s C11 C12 C21 C22 v11 v12 v21 v22 mid :
  mat_at s C11 v11 → mat_at s C12 v12 → mat_at s C21 v21 → mat_at s C22 v22 →
  square mid v11 → square mid v12 → square mid v21 → square mid v22 →
  returns (combine C11 C12 C21 C22) s (produces s (mcombine v11 v12 v21 v22)).
Proof.
  intros H11 H12 H21 H22 Hs11 Hs12 Hs21 Hs22.
  pose proof Hs11 as [Hl11 _]. pose proof Hs12 as [Hl12 _].
  pose proof Hs21 as [Hl21 _]. pose proof Hs22 as [Hl22 _].
  unfold combine.
  eapply returns_bind_eq; [by apply mat_at_len|]. rewrite Hl11.
  apply returns_bind. eapply returns_mono; [apply zeros_filling|].
  intros C s1 (cs & Hfill). simpl.
  set (F := mcombine v11 v12 v21 v22).
  assert (length F = mid * 2) as HlF by by apply mcombine_length.
  set (z := replicate (mid * 2) 0%Z) in *.
  apply returns_bind. eapply returns_mono.
  { apply (fill_matrix_loop s s1 C cs 0 mid (mid * 2) z F);
      [by apply filling_zero_start|lia|lia|].
    intros i s2 vs Fi Hi Hf2 Hlen Hvi HFi. simpl in Hvi, HFi |- *.
    destruct (lookup_lt_is_Some_2 v11 i) as [xs Hxs]; [lia|].
    destruct (lookup_lt_is_Some_2 v12 i) as [ys Hys]; [lia|].
    unfold F in HFi.
    rewrite (mcombine_lookup_top _ _ _ _ _ _ _ Hxs Hys) in HFi. injection HFi as <-.
    eapply (combine_row s s2 C cs vs i mid C11 C12 v11 v12 i xs ys); try done.
    exact (dims_lookup _ _ _ _ _ Hs11 Hxs). }
  intros [] s2 Hf2. simpl in Hf2.
  apply returns_bind. eapply returns_mono.
  { apply (fill_matrix_loop s s2 C cs mid mid (mid * 2) z F); [|lia|lia|].
    { by replace (mid * 2 - mid) with (mid * 2 - (0 + mid)) by lia. }
    intros i s3 vs Fi Hi Hf3 Hlen Hvi HFi.
    destruct (lookup_lt_is_Some_2 v21 i) as [xs Hxs]; [lia|].
    destruct (lookup_lt_is_Some_2 v22 i) as [ys Hys]; [lia|].
    unfold F in HFi.
    rewrite (mcombine_lookup_bottom _ _ _ _ mid _ _ _ Hl11 Hl12 Hxs Hys) in HFi.
    injection HFi as <-. rewrite (Nat.add_comm i mid).
    eapply (combine_row s s3 C cs vs (mid + i) mid C21 C22 v21 v22 i xs ys); try done.
    exact (dims_lookup _ _ _ _ _ Hs21 Hxs). }
  intros [] s3 Hf3. apply returns_ret. simpl in Hf3.
  replace (mid + mid) with (mid * 2) in Hf3 by lia.
  rewrite fill_end in Hf3 by done. by eapply filling_done.
Qed.


(** ** Validation *)

Lemma all_gen_lengths s n ls v :
  Forall2 (row_at s) ls v →
  all_gen (λ row, m ← len_row row; ret (bool_decide (m = n))) ls s
  = Ret (forallb (λ r, bool_decide (length r = n)) v) s.
Proof.
  induction 1 as [|l r ls v Hl _ IH]; simpl; [done|].
  unfold bind at 1. unfold bind at 1. rewrite (len_row_eq _ _ _ Hl). unfold ret at 1.
  destruct (bool_decide (length r = n)); [exact IH|done].
Qed.

Lemma is_square_eq s A v : mat_at s A v → is_square A s = Ret (is_square_val v) s.
Proof.
  intros HA. destruct (mat_at_rows _ _ _ HA) as (ls & Hls & Hrows).
  unfold is_square, bind. rewrite (mat_at_len _ _ _ HA), Hls.
  by apply all_gen_lengths.
Qed.

Lemma assert_square_ok s A v name :
  mat_at s A v → is_square_val v = true → assert_square A name s = Ret tt s.
Proof.
  intros HA Hsq. unfold assert_square, bind. by rewrite (is_square_eq _ _ _ HA), Hsq.
Qed.

Lemma assert_square_raises s A v name :
  mat_at s A v → is_square_val v = false →
  assert_square A name s
  = Raise (ValueError ("Matriz " ++ name ++ " não é quadrada.")) s.
Proof.
  intros HA Hsq. unfold assert_square, bind. by rewrite (is_square_eq _ _ _ HA), Hsq.
Qed.

Lemma is_square_val_true v : is_square_val v = true ↔ square (length v) v.
Proof.
  unfold is_square_val, square, dims. rewrite forallb_forall, Forall_forall. split.
  - intros H. split; [done|]. intros r Hr.
    apply list_elem_of_In in Hr. specialize (H r Hr). by apply bool_decide_eq_true in H.
  - intros [_ H] r Hr. apply bool_decide_eq_true, H. by apply list_elem_of_In.
Qed.

Lemma square_is_square_val n v : square n v → is_square_val v = true.
Proof. intros H. pose proof H as [<- _]. by apply is_square_val_true. Qed.

(** ** classic.py *)

Lemma foldl_sumZ (f : nat → Z) n :
  foldl (λ acc k, (acc + f k)%Z) 0%Z (seq 0 n) = sumZ f n.
Proof.
  induction n as [|n IH]; [done|].
  rewrite seq_S, foldl_app. simpl. by rewrite IH.
Qed.

Lemma matrix_of_lookup n f i :
  i < n → matrix_of n f !! i = Some (map (f i) (seq 0 n)).
Proof.
  intros Hi. unfold matrix_of. by rewrite list_lookup_fmap, lookup_seq_lt.
Qed.

Lemma matrix_of_length n f : length (matrix_of n f) = n.
Proof. unfold matrix_of. by rewrite length_map, length_seq. Qed.

Lemma entry_lookup v i r j x : v !! i = Some r → r !! j = Some x → entry v i j = x.
Proof.
  intros Hi Hj. unfold entry.
  by rewrite (list_lookup_total_correct _ _ _ Hi), (list_lookup_total_correct _ _ _ Hj).
Qed.

Lemma square_entry n v i j :
  square n v → i < n → j < n →
  ∃ r, v !! i = Some r ∧ length r = n ∧ r !! j = Some (entry v i j).
Proof.
  intros Hsq Hi Hj. pose proof Hsq as [Hl _].
  destruct (lookup_lt_is_Some_2 v i) as [r Hr]; [lia|].
  pose proof (dims_lookup _ _ _ _ _ Hsq Hr) as Hlr.
  destruct (lookup_lt_is_Some_2 r j) as [x Hx]; [lia|].
  exists r. by rewrite (entry_lookup _ _ _ _ _ Hr Hx).
Qed.

Lemma mul_classic_produces s A B vA vB n :
  mat_at s A vA → mat_at s B vB → square n vA → square n vB →
  returns (mul_classic A B) s (produces s (mmul n vA vB)).
Proof.
  intros HA HB HsA HsB. pose proof HsA as [HlA _]. pose proof HsB as [HlB _].
  unfold mul_classic.
  eapply returns_bind_eq; [by eapply assert_square_ok, square_is_square_val|].
  eapply returns_bind_eq; [by eapply assert_square_ok, square_is_square_val|].
  eapply returns_bind_eq; [by apply mat_at_len|].
  eapply returns_bind_eq; [by apply mat_at_len|].
  rewrite HlA, HlB. rewrite decide_False by (intros H; by apply H).
  apply returns_bind. eapply returns_mono; [apply zeros_filling|].
  intros C s1 (cs & Hfill). simpl.
  set (F := mmul n vA vB).
  assert (length F = n) as HlF by apply matrix_of_length.
  apply returns_bind. eapply returns_mono.
  { apply (fill_matrix_loop s s1 C cs 0 n n (replicate n 0%Z) F);
      [by apply filling_zero_start|lia|lia|].
    intros i s2 vs Fi Hi Hf2 Hlen Hvi HFi. simpl in Hvi, HFi |- *.
    unfold F, mmul in HFi. rewrite matrix_of_lookup in HFi by done.
    injection HFi as <-.
    destruct (lookup_lt_is_Some_2 vA i) as [ra Hra]; [lia|].
    pose proof (dims_lookup _ _ _ _ _ HsA Hra) as Hlra.
    destruct (mat_getitem_ext s s2 A vA i ra HA (fill_ext _ _ _ _ _ Hf2) Hra)
      as (la & Hla & Hrowa).
    destruct (filling_getitem s s2 C cs vs i Hf2) as (lc & rc & Hlc & Hcs & Hvs & _);
      [lia|].
    eapply returns_bind_eq; [exact Hla|].
    eapply returns_bind_eq; [exact Hlc|].
    eapply returns_mono.
    { apply (fill_row_loop s s2 C cs vs i lc n n
               (map (λ j, sumZ (λ k, (entry vA i k * entry vB k j)%Z) n) (seq 0 n)));
        try done.
      { by rewrite length_map, length_seq. }
      intros j s3 r x Hj Hext Hr Hjr Hx.
      rewrite list_lookup_fmap, lookup_seq_lt in Hx by done. injection Hx as <-.
      unfold bind at 1, fold_range.
      rewrite (fold_each_pure (seq 0 n) _
                 (λ acc k, (acc + entry vA i k * entry vB k j)%Z) s3 0%Z).
      - rewrite foldl_sumZ. by eapply setitem_row_eq.
      - intros k acc Hk. apply elem_of_seq in Hk.
        destruct (square_entry n vB k j HsB) as (rb & Hrb & Hlrb & Hb); [lia|done|].
        destruct (mat_getitem_ext s s3 B vB k rb HB Hext Hrb) as (lb & Hlb & Hrowb).
        destruct (lookup_lt_is_Some_2 ra k) as [a Ha]; [lia|].
        unfold bind. rewrite (row_getitem_ext s s3 la ra k a) by done.
        rewrite Hlb. rewrite (row_getitem_ext s s3 lb rb j _ Hrowb Hext Hb).
        by rewrite (entry_lookup vA i ra k a). }
    intros [] s3 Hf3. simpl in Hf3.
    rewrite fill_end in Hf3; [done|]. by rewrite length_map, length_seq. }
  intros [] s2 Hf2. apply returns_ret. simpl in Hf2.
  rewrite fill_end in Hf2 by done. by eapply filling_done.
Qed.


(** ** Matrix algebra on values *)

Lemma sumZ_ext f g n : (∀ k, k < n → f k = g k) → sumZ f n = sumZ g n.
Proof.
  induction n as [|n IH]; intros H; simpl; [done|].
  rewrite IH, H; [done|lia|]. intros k Hk. apply H. lia.
Qed.

Lemma sumZ_add f g n : sumZ (λ k, (f k + g k)%Z) n = (sumZ f n + sumZ g n)%Z.
Proof. induction n as [|n IH]; simpl; [done|]. rewrite IH. lia. Qed.

Lemma sumZ_sub f g n : sumZ (λ k, (f k - g k)%Z) n = (sumZ f n - sumZ g n)%Z.
Proof. induction n as [|n IH]; simpl; [done|]. rewrite IH. lia. Qed.

Lemma sumZ_zero n : sumZ (λ _, 0%Z) n = 0%Z.
Proof. induction n as [|n IH]; simpl; [done|]. rewrite IH. lia. Qed.

Lemma sumZ_app f n m :
  sumZ f (n + m) = (sumZ f n + sumZ (λ k, f (n + k)%nat) m)%Z.
Proof.
  induction m as [|m IH]; simpl.
  - rewrite Nat.add_0_r. lia.
  - replace (n + S m) with (S (n + m)) by lia. simpl. rewrite IH. lia.
Qed.

Lemma sumZ_double f mid :
  sumZ f (mid * 2) = (sumZ f mid + sumZ (λ k, f (mid + k)%nat) mid)%Z.
Proof. replace (mid * 2) with (mid + mid) by lia. apply sumZ_app. Qed.

Lemma matrix_of_ext n f g :
  (∀ i j, i < n → j < n → f i j = g i j) → matrix_of n f = matrix_of n g.
Proof.
  intros H. unfold matrix_of. apply map_ext_in. intros i Hi. apply in_seq in Hi.
  apply map_ext_in. intros j Hj. apply in_seq in Hj. apply H; lia.
Qed.

Lemma matrix_of_square n f : square n (matrix_of n f).
Proof.
  split; [apply matrix_of_length|]. unfold matrix_of. apply Forall_forall.
  intros r Hr. apply list_elem_of_fmap in Hr as (i & -> & _).
  by rewrite length_map, length_seq.
Qed.

Lemma entry_matrix_of n f i j : i < n → j < n → entry (matrix_of n f) i j = f i j.
Proof.
  intros Hi Hj. eapply entry_lookup; [by apply matrix_of_lookup|].
  by rewrite list_lookup_fmap, lookup_seq_lt.
Qed.

(** A square matrix is the table of its entries. *)
Lemma square_matrix_of n v : square n v → v = matrix_of n (entry v).
Proof.
  intros Hsq. pose proof Hsq as [Hl Hrows]. apply list_eq_same_length with n;
    [apply matrix_of_length|done|].
  intros i r r' Hi Hr Hr'. rewrite matrix_of_lookup in Hr' by done.
  injection Hr' as <-. pose proof (dims_lookup _ _ _ _ _ Hsq Hr) as Hlr.
  apply list_eq_same_length with n; [by rewrite length_map, length_seq|done|].
  intros j x y Hj Hx Hy. rewrite list_lookup_fmap, lookup_seq_lt in Hy by done.
  injection Hy as <-. by rewrite (entry_lookup _ _ _ _ _ Hr Hx).
Qed.

Lemma zip_with_map_same {A B C D} (op : B → C → D) (f : A → B) (g : A → C) l :
  zip_with op (map f l) (map g l) = map (λ x, op (f x) (g x)) l.
Proof. induction l as [|x l IH]; simpl; [done|]. by rewrite IH. Qed.

Lemma zip_matrix_of op n f g :
  zip_with (zip_with op) (matrix_of n f) (matrix_of n g)
  = matrix_of n (λ i j, op (f i j) (g i j)).
Proof.
  unfold matrix_of. rewrite zip_with_map_same. apply map_ext. intros i.
  apply zip_with_map_same.
Qed.

Lemma madd_matrix_of n f g :
  madd (matrix_of n f) (matrix_of n g) = matrix_of n (λ i j, (f i j + g i j)%Z).
Proof. apply (zip_matrix_of Z.add). Qed.

Lemma msub_matrix_of n f g :
  msub (matrix_of n f) (matrix_of n g) = matrix_of n (λ i j, (f i j - g i j)%Z).
Proof. apply (zip_matrix_of Z.sub). Qed.

Lemma mmul_matrix_of n f g :
  mmul n (matrix_of n f) (matrix_of n g)
  = matrix_of n (λ i j, sumZ (λ k, (f i k * g k j)%Z) n).
Proof.
  unfold mmul. apply matrix_of_ext. intros i j Hi Hj. apply sumZ_ext.
  intros k Hk. by rewrite !entry_matrix_of.
Qed.

Lemma mmul_square n v w : square n (mmul n v w).
Proof. apply matrix_of_square. Qed.

Lemma map_seq_shift {A} (f : nat → A) start n :
  map f (seq start n) = map (λ i, f (start + i)) (seq 0 n).
Proof.
  rewrite <- (Nat.add_0_r start) at 1.
  by rewrite <- (fmap_add_seq start 0 n), <- list_fmap_compose.
Qed.

Lemma take_map_seq {A} (f : nat → A) mid :
  take mid (map f (seq 0 (mid * 2))) = map f (seq 0 mid).
Proof.
  rewrite <- fmap_take, take_seq. f_equal. f_equal. lia.
Qed.

Lemma drop_map_seq {A} (f : nat → A) mid :
  drop mid (map f (seq 0 (mid * 2))) = map (λ i, f (mid + i)) (seq 0 mid).
Proof.
  rewrite <- fmap_drop, drop_seq, map_seq_shift. simpl.
  by replace (mid * 2 - mid) with mid by lia.
Qed.

Lemma half_double mid : mid * 2 / 2 = mid.
Proof. by apply Nat.div_mul. Qed.

Lemma quadrant11_matrix_of mid f :
  quadrant11 (matrix_of (mid * 2) f) = matrix_of mid f.
Proof.
  unfold quadrant11. rewrite matrix_of_length, half_double. unfold matrix_of.
  rewrite take_map_seq, map_map. apply map_ext. intros i. apply take_map_seq.
Qed.

Lemma quadrant12_matrix_of mid f :
  quadrant12 (matrix_of (mid * 2) f) = matrix_of mid (λ i j, f i (mid + j)).
Proof.
  unfold quadrant12. rewrite matrix_of_length, half_double. unfold matrix_of.
  rewrite take_map_seq, map_map. apply map_ext. intros i. apply drop_map_seq.
Qed.

Lemma quadrant21_matrix_of mid f :
  quadrant21 (matrix_of (mid * 2) f) = matrix_of mid (λ i j, f (mid + i) j).
Proof.
  unfold quadrant21. rewrite matrix_of_length, half_double. unfold matrix_of.
  rewrite drop_map_seq, map_map. apply map_ext. intros i. apply take_map_seq.
Qed.

Lemma quadrant22_matrix_of mid f :
  quadrant22 (matrix_of (mid * 2) f) = matrix_of mid (λ i j, f (mid + i) (mid + j)).
Proof.
  unfold quadrant22. rewrite matrix_of_length, half_double. unfold matrix_of.
  rewrite drop_map_seq, map_map. apply map_ext. intros i. apply drop_map_seq.
Qed.

Lemma map_seq_double {A} (f : nat → A) mid :
  map f (seq 0 (mid * 2)) = map f (seq 0 mid) ++ map (λ i, f (mid + i)) (seq 0 mid).
Proof.
  replace (mid * 2) with (mid + mid) by lia.
  by rewrite seq_app, map_app, (map_seq_shift f (0 + mid)).
Qed.

Lemma mcombine_matrix_of mid f11 f12 f21 f22 g :
  (∀ i j, i < mid → j < mid → g i j = f11 i j) →
  (∀ i j, i < mid → j < mid → g i (mid + j) = f12 i j) →
  (∀ i j, i < mid → j < mid → g (mid + i) j = f21 i j) →
  (∀ i j, i < mid → j < mid → g (mid + i) (mid + j) = f22 i j) →
  mcombine (matrix_of mid f11) (matrix_of mid f12)
           (matrix_of mid f21) (matrix_of mid f22)
  = matrix_of (mid * 2) g.
Proof.
  intros H11 H12 H21 H22. unfold mcombine, matrix_of.
  rewrite !zip_with_map_same, (map_seq_double _ mid). f_equal.
  - apply map_ext_in. intros i Hi. apply in_seq in Hi.
    rewrite (map_seq_double _ mid). f_equal.
    + apply map_ext_in. intros j Hj. apply in_seq in Hj. symmetry. apply H11; lia.
    + apply map_ext_in. intros j Hj. apply in_seq in Hj. symmetry. apply H12; lia.
  - apply map_ext_in. intros i Hi. apply in_seq in Hi.
    rewrite (map_seq_double _ mid). f_equal.
    + apply map_ext_in. intros j Hj. apply in_seq in Hj. symmetry. apply H21; lia.
    + apply map_ext_in. intros j Hj. apply in_seq in Hj. symmetry. apply H22; lia.
Qed.


(** ** Strassen's identities *)

Ltac sum_ring :=
  rewrite sumZ_double;
  repeat (rewrite <- sumZ_add || rewrite <- sumZ_sub);
  apply sumZ_ext; intros; cbv beta; ring.

Lemma strassen_level_matrix_of mid a b :
  strassen_level mid (matrix_of (mid * 2) a) (matrix_of (mid * 2) b)
  = mmul (mid * 2) (matrix_of (mid * 2) a) (matrix_of (mid * 2) b).
Proof.
  unfold strassen_level.
  rewrite !quadrant11_matrix_of, !quadrant12_matrix_of,
          !quadrant21_matrix_of, !quadrant22_matrix_of.
  rewrite !madd_matrix_of, !msub_matrix_of, !mmul_matrix_of.
  rewrite !madd_matrix_of, !msub_matrix_of.
  rewrite !madd_matrix_of.
  apply mcombine_matrix_of; intros i j Hi Hj; sum_ring.
Qed.

Lemma strassen_level_correct mid vA vB :
  square (mid * 2) vA → square (mid * 2) vB →
  strassen_level mid vA vB = mmul (mid * 2) vA vB.
Proof.
  intros HA HB.
  rewrite (square_matrix_of _ _ HA), (square_matrix_of _ _ HB).
  apply strassen_level_matrix_of.
Qed.


(** ** strassen.py: the recursion *)

Lemma madd_square n v w : square n v → square n w → square n (madd v w).
Proof.
  intros Hv Hw. rewrite (square_matrix_of _ _ Hv), (square_matrix_of _ _ Hw).
  rewrite madd_matrix_of. apply matrix_of_square.
Qed.

Lemma msub_square n v w : square n v → square n w → square n (msub v w).
Proof.
  intros Hv Hw. rewrite (square_matrix_of _ _ Hv), (square_matrix_of _ _ Hw).
  rewrite msub_matrix_of. apply matrix_of_square.
Qed.

Lemma quadrant11_square mid v : square (mid * 2) v → square mid (quadrant11 v).
Proof.
  intros Hv. rewrite (square_matrix_of _ _ Hv), quadrant11_matrix_of.
  apply matrix_of_square.
Qed.

Lemma quadrant12_square mid v : square (mid * 2) v → square mid (quadrant12 v).
Proof.
  intros Hv. rewrite (square_matrix_of _ _ Hv), quadrant12_matrix_of.
  apply matrix_of_square.
Qed.

Lemma quadrant21_square mid v : square (mid * 2) v → square mid (quadrant21 v).
Proof.
  intros Hv. rewrite (square_matrix_of _ _ Hv), quadrant21_matrix_of.
  apply matrix_of_square.
Qed.

Lemma quadrant22_square mid v : square (mid * 2) v → square mid (quadrant22 v).
Proof.
  intros Hv. rewrite (square_matrix_of _ _ Hv), quadrant22_matrix_of.
  apply matrix_of_square.
Qed.

Create HintDb squares.
#[local] Hint Resolve madd_square msub_square mmul_square quadrant11_square
  quadrant12_square quadrant21_square quadrant22_square : squares.

Lemma new_matrix_weaken s0 s s' C v :
  heap s0 ⊆ heap s → new_matrix s s' C v → new_matrix s0 s' C v.
Proof.
  intros Hsub (cs & HC & Hnew & Hrn & Hrows). exists cs. repeat split; try done.
  - by eapply lookup_weaken_None.
  - eapply Forall_impl; [done|]. intros l Hl. simpl in *.
    eapply lookup_weaken_None; eassumption.
Qed.

Lemma track_refl s : track s s 0.
Proof. split; [done|]. split; [done|lia]. Qed.

Lemma track_extends s0 s s' dt : track s0 s dt → extends s s' → track s0 s' dt.
Proof.
  intros (H1 & H2 & H3) (H4 & H5 & H6). split; [by etrans|]. split; congruence.
Qed.

Lemma track_trans s0 s s' dt dt' :
  track s0 s dt → track s s' dt' → track s0 s' (dt + dt').
Proof.
  intros (H1 & H2 & H3) (H4 & H5 & H6). split; [by etrans|].
  split; [congruence|lia].
Qed.

Lemma intervals_app clock t0 n m :
  intervals clock t0 (n + m)
  = (intervals clock t0 n + intervals clock (t0 + 2 * n)%nat m)%Z.
Proof.
  unfold intervals. rewrite sumZ_app. f_equal. apply sumZ_ext. intros i _.
  f_equal; f_equal; lia.
Qed.

Lemma intervals_one clock t0 :
  intervals clock t0 1 = (clock (t0 + 1)%nat - clock t0)%Z.
Proof.
  unfold intervals. simpl. by rewrite Nat.add_0_r.
Qed.

Lemma intervals_idx clock t t' n : t = t' → intervals clock t n = intervals clock t' n.
Proof. by intros <-. Qed.

Ltac same_readings :=
  repeat match goal with
  | |- (_ + _)%Z = (_ + _)%Z => f_equal
  | |- (_ - _)%Z = (_ - _)%Z => f_equal
  | |- intervals _ _ _ = intervals _ _ _ => apply intervals_idx; lia
  | |- ?c _ = ?c _ => f_equal; lia
  end.

(** The timed sections of one invocation that recurses: its own first
    section, those of its seven recursive calls, its own last section. *)
Lemma intervals_frame clock t P x :
  (x + intervals clock t (2 + 7 * P)%nat)%Z
  = (x + (clock (t + 1)%nat - clock t)
     + intervals clock (t + 2)%nat P
     + intervals clock (t + 2 + 2 * P)%nat P
     + intervals clock (t + 2 + 4 * P)%nat P
     + intervals clock (t + 2 + 6 * P)%nat P
     + intervals clock (t + 2 + 8 * P)%nat P
     + intervals clock (t + 2 + 10 * P)%nat P
     + intervals clock (t + 2 + 12 * P)%nat P
     + (clock (t + 3 + 14 * P)%nat - clock (t + 2 + 14 * P)%nat))%Z.
Proof.
  replace (2 + 7 * P) with (1 + P + P + P + P + P + P + P + 1) by lia.
  rewrite !intervals_app, !intervals_one, !Z.add_assoc.
  same_readings; done.
Qed.

Lemma pow2_succ k : 2 ^ S k = 2 ^ k * 2.
Proof. rewrite Nat.pow_succ_r'. lia. Qed.

Lemma pow2_pos k : 0 < 2 ^ k.
Proof. apply Nat.neq_0_lt_0, Nat.pow_nonzero. lia. Qed.

Lemma track_of_extends s s' : extends s s' → track s s' 0.
Proof. intros (H1 & H2 & H3). split; [done|]. split; [done|lia]. Qed.

Lemma track_eq s s' dt dt' : track s s' dt → dt = dt' → track s s' dt'.
Proof. by intros H <-. Qed.

Lemma perf_counter_returns s0 s dt (Q : Z → state → Prop) :
  track s0 s dt →
  (∀ s', track s0 s' (S dt) → heap s ⊆ heap s' → heap s' ⊆ heap s →
         Q (perf s0 (ticks s0 + dt)) s') →
  returns perf_counter s Q.
Proof.
  intros Htr HQ. eapply returns_eq; [reflexivity|].
  destruct Htr as (H1 & H2 & H3). rewrite H2, H3.
  apply HQ; [|done|done]. split; [done|]. split; [done|]. simpl. lia.
Qed.

(** Facts about the store survive every step that only adds to it. *)
Ltac carry Hsub :=
  repeat match goal with
  | Hm : mat_at ?s1 _ _ |- _ =>
      lazymatch type of Hsub with
      | heap s1 ⊆ _ => apply (mat_at_mono _ _ _ _ Hsub) in Hm
      end
  end.

Ltac run_op lem X :=
  apply returns_bind; eapply returns_mono;
  [ eapply lem; [eassumption|eassumption|eauto with squares|eauto with squares] | ];
  let s' := fresh "s" in
  let Hext := fresh "Hext" in
  let Hnew := fresh "Hnew" in
  intros X s' [Hext Hnew]; cbv beta;
  apply new_matrix_at in Hnew; carry (proj1 Hext);
  match goal with
  | Ht : track _ _ _ |- _ => apply (λ H, track_extends _ _ _ _ H Hext) in Ht
  end;
  clear Hext.

Ltac run_tick :=
  apply returns_bind;
  match goal with
  | Ht : track _ _ _ |- _ =>
      eapply (perf_counter_returns _ _ _ _ Ht); clear Ht;
      let s' := fresh "s" in
      let Hsub := fresh "Hsub" in
      intros s' Ht Hsub _; carry Hsub; clear Hsub
  end.

Ltac run_split X11 X12 X21 X22 :=
  apply returns_bind; eapply returns_mono; [eapply split_returns; eassumption|];
  let s' := fresh "s" in
  let Hext := fresh "Hext" in
  let N1 := fresh "Hnew" in
  let N2 := fresh "Hnew" in
  let N3 := fresh "Hnew" in
  let N4 := fresh "Hnew" in
  intros [[[X11 X12] X21] X22] s' (Hext & N1 & N2 & N3 & N4); cbv beta;
  apply new_matrix_at in N1; apply new_matrix_at in N2;
  apply new_matrix_at in N3; apply new_matrix_at in N4;
  carry (proj1 Hext);
  match goal with
  | Ht : track _ _ _ |- _ => apply (λ H, track_extends _ _ _ _ H Hext) in Ht
  end;
  clear Hext.

Ltac run_rec IH Mi sti Hc Ht :=
  apply returns_bind; eapply returns_mono;
  [ eapply IH; [lia|eassumption|eassumption|eauto with squares|eauto with squares] | ];
  let s' := fresh "s" in
  let Htr' := fresh "Htr" in
  let Hnew := fresh "Hnew" in
  intros [Mi sti] s' (Htr' & Hnew & Hc & Ht); cbn [fst snd] in Hnew, Hc, Ht;
  apply new_matrix_at in Hnew; carry (proj1 Htr');
  match goal with
  | Htr : track ?sa ?sb ?dt |- _ =>
      lazymatch type of Htr' with
      | track sb _ _ =>
          rewrite (proj1 (proj2 Htr)), (proj2 (proj2 Htr)) in Ht;
          apply (track_trans _ _ _ _ _ Htr) in Htr'; clear Htr
      end
  end.

Lemma strassen_rec_returns k :
  ∀ fuel cutoff A B vA vB st s,
    k < fuel → mat_at s A vA → mat_at s B vB →
    square (2 ^ k) vA → square (2 ^ k) vB →
    returns (_strassen_rec fuel A B cutoff st) s
      (rec_post k cutoff s st (mmul (2 ^ k) vA vB)).
Proof.
  induction k as [|k IH]; intros fuel cutoff A B vA vB st s Hfuel HA HB HsA HsB.
  - destruct fuel as [|fuel]; [lia|]. cbn [_strassen_rec].
    pose proof HsA as [HlA _].
    eapply returns_bind_eq; [by apply mat_at_len|]. rewrite HlA.
    rewrite decide_True by done.
    destruct (square_entry 1 vA 0 0 HsA) as (ra & Hra & _ & Ha); [lia..|].
    destruct (square_entry 1 vB 0 0 HsB) as (rb & Hrb & _ & Hb); [lia..|].
    destruct (mat_getitem_ext s s A vA 0 ra HA (extends_refl s) Hra) as (la & Hla & Hrowa).
    destruct (mat_getitem_ext s s B vB 0 rb HB (extends_refl s) Hrb) as (lb & Hlb & Hrowb).
    eapply returns_bind_eq; [exact Hla|].
    eapply returns_bind_eq; [by eapply getitem_row_eq|].
    eapply returns_bind_eq; [exact Hlb|].
    eapply returns_bind_eq; [by eapply getitem_row_eq|].
    destruct (alloc_eq (ORow [(entry vA 0 0 * entry vB 0 0)%Z]) s) as (r & Hr & Heq).
    eapply returns_bind_eq; [exact Heq|].
    apply returns_bind. eapply returns_mono.
    { apply (new_mat_filling s _ [r] [[(entry vA 0 0 * entry vB 0 0)%Z]]).
      - by apply extends_insert.
      - apply NoDup_singleton.
      - by constructor.
      - constructor; [|done]. unfold row_at. simpl. by rewrite lookup_insert_eq. }
    intros C s2 Hf. apply returns_ret. apply filling_done in Hf as [Hext Hnew].
    split; [by apply track_of_extends|]. split; [exact Hnew|].
    split; [done|]. simpl. unfold intervals. simpl. lia.
  - destruct fuel as [|fuel]; [lia|]. cbn [_strassen_rec].
    pose proof HsA as [HlA _].
    eapply returns_bind_eq; [by apply mat_at_len|]. rewrite HlA.
    pose proof (pow2_pos k) as Hpos. pose proof (pow2_succ k) as Hpow.
    rewrite decide_False by lia.
    destruct (decide (Z.of_nat (2 ^ S k) ≤ cutoff)%Z) as [Hcut|Hcut].
    + apply returns_bind. eapply returns_mono; [by eapply mul_classic_produces|].
      intros C s1 [Hext Hnew]. apply returns_ret.
      unfold rec_post. cbn [calls_added timed_pairs]. rewrite !decide_True by done.
      split; [by apply track_of_extends|]. split; [exact Hnew|].
      split; [done|]. simpl. unfold intervals. simpl. lia.
    + rewrite Hpow in HsA, HsB |- *. set (mid := 2 ^ k) in *.
      pose proof (track_refl s) as Htr.
      run_tick.
      run_split A11 A12 A21 A22. run_split B11 B12 B21 B22.
      run_op add_produces A11_plus_A22. run_op add_produces B11_plus_B22.
      run_op add_produces A21_plus_A22. run_op sub_produces B12_minus_B22.
      run_op sub_produces B21_minus_B11. run_op add_produces A11_plus_A12.
      run_op sub_produces A21_minus_A11. run_op add_produces B11_plus_B12.
      run_op sub_produces A12_minus_A22. run_op add_produces B21_plus_B22.
      run_tick.
      run_rec IH M1 st1 Hc1 Ht1. run_rec IH M2 st2 Hc2 Ht2.
      run_rec IH M3 st3 Hc3 Ht3. run_rec IH M4 st4 Hc4 Ht4.
      run_rec IH M5 st5 Hc5 Ht5. run_rec IH M6 st6 Hc6 Ht6.
      run_rec IH M7 st7 Hc7 Ht7.
      run_tick.
      run_op add_produces S1. run_op sub_produces S2. run_op add_produces C11.
      run_op add_produces C12. run_op add_produces C21.
      run_op add_produces S3. run_op sub_produces S4. run_op add_produces C22.
      apply returns_bind. eapply returns_mono.
      { eapply combine_produces; [eassumption..| | | |]; eauto with squares. }
      intros C sc [Hext HnewC]. cbv beta.
      match goal with Ht : track s _ _ |- _ => rename Ht into Htrack end.
      apply (new_matrix_weaken s) in HnewC; [|apply Htrack].
      apply (λ H, track_extends _ _ _ _ H Hext) in Htrack.
      apply returns_bind. eapply (perf_counter_returns _ _ _ _ Htrack).
      intros s' Htr' Hsub _. apply returns_ret.
      unfold rec_post. cbn [fst snd calls_added timed_pairs].
      rewrite !decide_False by done.
      split; [eapply track_eq; [exact Htr'|lia]|].
      split; [|split].
      * rewrite <- strassen_level_correct by done.
        eapply new_matrix_mono; [exact Hsub|exact HnewC].
      * cbn [calls split_combine_time] in *. lia.
      * cbn [calls split_combine_time] in *.
        rewrite Ht7, Ht6, Ht5, Ht4, Ht3, Ht2, Ht1.
        rewrite intervals_frame. same_readings; done.
Qed.


(** ** strassen.py: padding and the entry point *)

Lemma next_power_of_two_loop_pow fuel : ∀ j n,
  n - 2 ^ j ≤ fuel →
  ∃ k, next_power_of_two_loop fuel (2 ^ j) n = 2 ^ k ∧ n ≤ 2 ^ k ∧ j ≤ k ∧
       (k = j ∨ 2 ^ (k - 1) < n).
Proof.
  induction fuel as [|fuel IH]; intros j n Hfuel; simpl.
  - exists j. repeat split; [lia|done|by left].
  - pose proof (pow2_pos j) as Hpos. destruct (decide (2 ^ j < n)) as [Hlt|Hge].
    + destruct (IH (S j) n) as (k & Hk & Hn & Hj & Hmin).
      { rewrite pow2_succ. lia. }
      rewrite <- pow2_succ. exists k. repeat split; [done|done|lia|]. right.
      destruct Hmin as [->|Hmin]; [|done].
      by replace (S j - 1) with j by lia.
    + exists j. repeat split; [lia|done|by left].
Qed.

(** [next_power_of_two n] is the least power of two that is at least [n]. *)
Lemma next_power_of_two_spec n :
  ∃ k, next_power_of_two n = 2 ^ k ∧ n ≤ 2 ^ k ∧ (k = 0 ∨ 2 ^ (k - 1) < n).
Proof.
  destruct (next_power_of_two_loop_pow n 0 n) as (k & Hk & Hn & _ & Hmin);
    [simpl; lia|].
  exists k. done.
Qed.

Lemma next_power_of_two_depth n : next_power_of_two n = 2 ^ depth n.
Proof.
  destruct (next_power_of_two_spec n) as (k & Hk & _). unfold depth.
  by rewrite Hk, Nat.log2_pow2 by lia.
Qed.

Lemma next_power_of_two_ge n : n ≤ next_power_of_two n.
Proof. destruct (next_power_of_two_spec n) as (k & -> & Hn & _). done. Qed.

Lemma next_power_of_two_pow k : next_power_of_two (2 ^ k) = 2 ^ k.
Proof.
  destruct (next_power_of_two_spec (2 ^ k)) as (j & -> & Hn & Hmin).
  destruct Hmin as [->|Hmin].
  - simpl in *. pose proof (pow2_pos k). lia.
  - destruct (decide (j ≤ k)) as [Hjk|Hjk].
    + apply Nat.le_antisymm; [by apply Nat.pow_le_mono_r|done].
    + assert (2 ^ k ≤ 2 ^ (j - 1)); [apply Nat.pow_le_mono_r; lia|lia].
Qed.

Lemma mpad_square n m v : square n v → n ≤ m → square m (mpad m v).
Proof.
  intros [Hl Hrows] Hnm. split; [apply mpad_length; lia|].
  unfold mpad. apply Forall_app. split.
  - apply Forall_fmap. eapply Forall_impl; [done|]. intros r Hr. simpl in *.
    rewrite length_app, length_replicate. lia.
  - apply Forall_replicate. by rewrite length_replicate.
Qed.

Lemma entry_mpad_inside n m v i j :
  square n v → i < n → j < n → entry (mpad m v) i j = entry v i j.
Proof.
  intros Hv Hi Hj. destruct (square_entry n v i j Hv Hi Hj) as (r & Hr & Hlr & Hx).
  eapply entry_lookup; [by apply mpad_lookup|].
  rewrite lookup_app_l by lia. done.
Qed.

Lemma entry_mpad_outside n m v i j :
  square n v → n ≤ m → i < m → j < m → ¬ (i < n ∧ j < n) →
  entry (mpad m v) i j = 0%Z.
Proof.
  intros Hv Hnm Hi Hj Hout. pose proof Hv as [Hl _].
  destruct (decide (i < n)) as [Hin|Hin].
  - destruct (lookup_lt_is_Some_2 v i) as [r Hr]; [lia|].
    pose proof (dims_lookup _ _ _ _ _ Hv Hr) as Hlr.
    eapply entry_lookup; [by apply mpad_lookup|].
    rewrite lookup_app_r by lia. apply lookup_replicate_2. lia.
  - eapply entry_lookup.
    + unfold mpad. rewrite lookup_app_r by (rewrite length_map; lia).
      apply lookup_replicate_2. rewrite length_map. lia.
    + by apply lookup_replicate_2.
Qed.

Lemma mcrop_matrix_of n m f : n ≤ m → mcrop n (matrix_of m f) = matrix_of n f.
Proof.
  intros Hnm. unfold mcrop, matrix_of.
  rewrite <- fmap_take, take_seq, Nat.min_l, map_map by done.
  apply map_ext. intros i.
  by rewrite <- fmap_take, take_seq, Nat.min_l by done.
Qed.

(** The product of the padded matrices, cropped, is the product. *)
Lemma mcrop_mmul_mpad n m vA vB :
  square n vA → square n vB → n ≤ m →
  mcrop n (mmul m (mpad m vA) (mpad m vB)) = mmul n vA vB.
Proof.
  intros HA HB Hnm. unfold mmul. rewrite mcrop_matrix_of by done.
  apply matrix_of_ext. intros i j Hi Hj.
  replace m with (n + (m - n)) at 1 by lia. rewrite sumZ_app.
  rewrite (sumZ_ext _ (λ k, (entry vA i k * entry vB k j)%Z) n).
  - rewrite (sumZ_ext _ (λ _, 0%Z) (m - n)); [rewrite sumZ_zero; lia|].
    intros k Hk. rewrite (entry_mpad_outside n m vA) by (done || lia). lia.
  - intros k Hk. by rewrite !(entry_mpad_inside n m) by done.
Qed.

(** Padding and cropping back gives the matrix again. *)
Lemma mcrop_mpad n m v : square n v → n ≤ m → mcrop n (mpad m v) = v.
Proof.
  intros [Hl Hrows] Hnm. unfold mcrop, mpad.
  rewrite take_app_length' by by rewrite length_map.
  rewrite map_map. rewrite <- (map_id v) at 2. apply map_ext_in.
  intros r Hr. rewrite Forall_forall in Hrows.
  apply take_app_length'. symmetry. apply Hrows. by apply list_elem_of_In.
Qed.

Lemma mul_strassen_returns fuel cutoff stats A B vA vB n s :
  mat_at s A vA → mat_at s B vB → square n vA → square n vB →
  depth n < fuel →
  returns (mul_strassen fuel A B cutoff stats) s
    (strassen_post n cutoff s (default (Stats 0 0) stats) (mmul n vA vB)).
Proof.
  intros HA HB HsA HsB Hfuel. pose proof HsA as [HlA _]. pose proof HsB as [HlB _].
  unfold mul_strassen.
  eapply returns_bind_eq; [by eapply assert_square_ok, square_is_square_val|].
  eapply returns_bind_eq; [by eapply assert_square_ok, square_is_square_val|].
  eapply returns_bind_eq; [by apply mat_at_len|].
  eapply returns_bind_eq; [by apply mat_at_len|].
  rewrite HlA, HlB. rewrite decide_False by (intros H; by apply H).
  pose proof (next_power_of_two_depth n) as Hm.
  pose proof (next_power_of_two_ge n) as Hge.
  set (st := match stats with Some st => st | None => Stats 0 0 end).
  replace (default (Stats 0 0) stats) with st by by destruct stats.
  destruct (decide (next_power_of_two n ≠ n)) as [Hne|Heq].
  - rewrite Hm in Hge |- *. set (m := 2 ^ depth n) in *.
    apply returns_bind. eapply returns_mono; [by eapply pad_to_size_produces|].
    intros A_pad s1 [Hext1 HnA]. apply new_matrix_at in HnA. cbv beta.
    apply (mat_at_mono _ _ _ _ (proj1 Hext1)) in HB.
    apply returns_bind. eapply returns_mono; [by eapply pad_to_size_produces|].
    intros B_pad s2 [Hext2 HnB]. apply new_matrix_at in HnB. cbv beta.
    apply (mat_at_mono _ _ _ _ (proj1 Hext2)) in HnA.
    pose proof (extends_trans _ _ _ Hext1 Hext2) as Hext12.
    apply returns_bind. eapply returns_mono.
    { apply (strassen_rec_returns (depth n) fuel cutoff A_pad B_pad
               (mpad m vA) (mpad m vB) st s2); try done.
      - by apply (mpad_square n).
      - by apply (mpad_square n). }
    intros [C_pad st'] s3 (Htr & Hnew & Hc & Ht). cbn [fst snd] in *.
    apply new_matrix_at in Hnew.
    apply returns_bind. eapply returns_mono; [by eapply crop_produces|].
    intros C s4 [Hext4 HnC]. apply returns_ret.
    rewrite mcrop_mmul_mpad in HnC by done.
    unfold strassen_post, rec_post. cbn [fst snd].
    destruct Hext12 as (Hh12 & Ht12 & Hp12).
    split; [|split; [|split]].
    + apply (track_extends _ s3); [|done].
      destruct Htr as (H1 & H2 & H3). split; [by etrans|]. split; congruence.
    + eapply new_matrix_weaken; [|exact HnC]. etrans; [exact Hh12|apply Htr].
    + done.
    + by rewrite Ht, Ht12, Hp12.
  - assert (next_power_of_two n = n) as Hn by (by destruct (decide (next_power_of_two n = n)); [|exfalso; auto]).
    apply returns_bind. eapply returns_mono.
    { apply (strassen_rec_returns (depth n) fuel cutoff A B vA vB st s); try done.
      - by rewrite <- Hm, Hn.
      - by rewrite <- Hm, Hn. }
    intros [C st'] s3 Hpost. apply returns_ret.
    unfold strassen_post. by rewrite <- Hm, Hn in Hpost.
Qed.


(** * The properties of the specification *)

Lemma valid_square v n : is_square_val v = true → length v = n → square n v.
Proof. intros H <-. by apply is_square_val_true. Qed.

Lemma new_matrix_read s s' C v : new_matrix s s' C v → read_matrix s' C = Some v.
Proof. intros H. by apply read_matrix_at, (new_matrix_at s). Qed.

(** The scenarios of the specification, run on the embedding. *)

Example test_2x2_classic :
  result_matrix (run2 [[1; 2]; [3; 4]] [[5; 6]; [7; 8]] mul_classic)%Z
  = Some [[19; 22]; [43; 50]]%Z.
Proof. reflexivity. Qed.

Example test_2x2_strassen :
  run_strassen 2 [[1; 2]; [3; 4]]%Z [[5; 6]; [7; 8]]%Z 1
  = Some ([[19; 22]; [43; 50]]%Z, 8%Z).
Proof. reflexivity. Qed.

Example test_3x3_cutoff_4 :
  run_strassen 1 [[1; 2; 3]; [3; 4; 5]; [1; 1; 1]]%Z [[5; 6; 0]; [7; 8; 1]; [1; 0; 0]]%Z 4
  = Some ([[22; 22; 2]; [48; 50; 4]; [13; 14; 1]]%Z, 1%Z)
  ∧ result_matrix (run2 [[1; 2; 3]; [3; 4; 5]; [1; 1; 1]]%Z
                        [[5; 6; 0]; [7; 8; 1]; [1; 0; 0]]%Z mul_classic)
    = Some [[22; 22; 2]; [48; 50; 4]; [13; 14; 1]]%Z.
Proof. split; reflexivity. Qed.

Example test_4x4_cutoff_1 :
  snd <$> run_strassen 3 (replicate 4 (replicate 4 1%Z)) (replicate 4 (replicate 4 1%Z)) 1
  = Some 57%Z.
Proof. vm_compute. reflexivity. Qed.

Example test_3x3_by_2x2 :
  mul_classic 4%positive 7%positive store_3x3_2x2
  = Raise (ValueError size_message) store_3x3_2x2
  ∧ mul_strassen 3 4%positive 7%positive 1 None store_3x3_2x2
    = Raise (ValueError size_message) store_3x3_2x2.
Proof. split; reflexivity. Qed.

Example test_split_3x3 :
  (match split 4%positive store_3x3_2x2 with
   | Ret (A11, A12, A21, A22) s =>
       [read_matrix s A11; read_matrix s A12; read_matrix s A21; read_matrix s A22]
   | _ => []
   end)
  = [Some [[1]]; Some [[2; 3]]; Some [[4]; [7]]; Some [[5; 6]; [8; 9]]]%Z.
Proof. reflexivity. Qed.

(** ** Validation failures *)

Lemma mul_classic_invalid s A B vA vB :
  mat_at s A vA → mat_at s B vB → invalid_pair vA vB →
  ∃ msg, mul_classic A B s = Raise (ValueError msg) s.
Proof.
  intros HA HB Hinv. unfold mul_classic. unfold invalid_pair in Hinv.
  destruct (is_square_val vA) eqn:HsA.
  - destruct (is_square_val vB) eqn:HsB.
    + destruct Hinv as [?|[?|Hlen]]; [done..|]. exists size_message.
      unfold bind at 1. rewrite (assert_square_ok s A vA) by done.
      unfold bind at 1. rewrite (assert_square_ok s B vB) by done.
      unfold bind at 1. rewrite (mat_at_len s A vA) by done.
      unfold bind at 1. rewrite (mat_at_len s B vB) by done.
      rewrite decide_True; [done|]. intros Heq. by apply Hlen.
    + eexists. unfold bind at 1. rewrite (assert_square_ok s A vA) by done.
      unfold bind at 1. by rewrite (assert_square_raises s B vB) by done.
  - eexists. unfold bind at 1. by rewrite (assert_square_raises s A vA) by done.
Qed.

Lemma mul_strassen_invalid fuel cutoff stats s A B vA vB :
  mat_at s A vA → mat_at s B vB → invalid_pair vA vB →
  ∃ msg, mul_strassen fuel A B cutoff stats s = Raise (ValueError msg) s.
Proof.
  intros HA HB Hinv. unfold mul_strassen. unfold invalid_pair in Hinv.
  destruct (is_square_val vA) eqn:HsA.
  - destruct (is_square_val vB) eqn:HsB.
    + destruct Hinv as [?|[?|Hlen]]; [done..|]. exists size_message.
      unfold bind at 1. rewrite (assert_square_ok s A vA) by done.
      unfold bind at 1. rewrite (assert_square_ok s B vB) by done.
      unfold bind at 1. rewrite (mat_at_len s A vA) by done.
      unfold bind at 1. rewrite (mat_at_len s B vB) by done.
      rewrite decide_True; [done|]. intros Heq. by apply Hlen.
    + eexists. unfold bind at 1. rewrite (assert_square_ok s A vA) by done.
      unfold bind at 1. by rewrite (assert_square_raises s B vB) by done.
  - eexists. unfold bind at 1. by rewrite (assert_square_raises s A vA) by done.
Qed.

Lemma invalid_pair_dec vA vB :
  invalid_pair vA vB ∨
  (is_square_val vA = true ∧ is_square_val vB = true ∧ length vA = length vB).
Proof.
  unfold invalid_pair. destruct (is_square_val vA), (is_square_val vB);
    destruct (decide (length vA = length vB)); auto.
Qed.

(** ** C1 *)

(** C1: on every pair of square matrices of the same size, [mul_strassen]
    (with any cutoff, and a recursion budget above the depth) and
    [mul_classic] both return, and the two result matrices hold the same
    entries.  The bounds [n >= 1] and [cutoff >= 1] of the claim are not
    needed. *)
Theorem strassen_equals_classic s A B vA vB n cutoff stats fuel :
  read_matrix s A = Some vA → read_matrix s B = Some vB →
  is_square_val vA = true → is_square_val vB = true →
  length vA = n → length vB = n → depth n < fuel →
  ∃ C st s1 C' s2 v,
    mul_strassen fuel A B cutoff stats s = Ret (C, st) s1 ∧
    mul_classic A B s = Ret C' s2 ∧
    read_matrix s1 C = Some v ∧ read_matrix s2 C' = Some v.
Proof.
  intros HA%read_matrix_at HB%read_matrix_at HsA HsB HlA HlB Hfuel.
  pose proof (valid_square _ _ HsA HlA) as HqA.
  pose proof (valid_square _ _ HsB HlB) as HqB.
  destruct (mul_strassen_returns fuel cutoff stats A B vA vB n s HA HB HqA HqB Hfuel)
    as ([C st] & s1 & Hrun & _ & Hnew & _).
  destruct (mul_classic_produces s A B vA vB n HA HB HqA HqB)
    as (C' & s2 & Hrun' & _ & Hnew').
  exists C, st, s1, C', s2, (mmul n vA vB).
  split; [done|]. split; [done|].
  split; by eapply new_matrix_read.
Qed.

Lemma strassen_equals_classic_witness :
  (read_matrix store_2x2 3%positive = Some [[1; 2]; [3; 4]]%Z ∧
   read_matrix store_2x2 6%positive = Some [[5; 6]; [7; 8]]%Z ∧
   is_square_val [[1; 2]; [3; 4]]%Z = true ∧
   is_square_val [[5; 6]; [7; 8]]%Z = true ∧
   depth 2 < 2) ∧
  ∃ C st s1 C' s2 v,
    mul_strassen 2 3%positive 6%positive 1 None store_2x2 = Ret (C, st) s1 ∧
    mul_classic 3%positive 6%positive store_2x2 = Ret C' s2 ∧
    read_matrix s1 C = Some v ∧ read_matrix s2 C' = Some v.
Proof.
  split.
  - repeat split; vm_compute; reflexivity.
  - apply (strassen_equals_classic store_2x2 3%positive 6%positive
             [[1; 2]; [3; 4]]%Z [[5; 6]; [7; 8]]%Z 2 1%Z None 2);
      reflexivity || (vm_compute; lia).
Defined.

(** ** C2 *)

(** C2: on square matrices of the same size [n], [mul_classic] returns an
    [n] by [n] matrix whose entry [(i, j)] is the sum over [k < n] of
    [A[i][k] * B[k][j]]. *)
Theorem mul_classic_entries s A B vA vB n :
  read_matrix s A = Some vA → read_matrix s B = Some vB →
  is_square_val vA = true → is_square_val vB = true →
  length vA = n → length vB = n →
  ∃ C s' v,
    mul_classic A B s = Ret C s' ∧ read_matrix s' C = Some v ∧
    length v = n ∧ is_square_val v = true ∧
    ∀ i j, i < n → j < n →
      entry v i j = sumZ (λ k, (entry vA i k * entry vB k j)%Z) n.
Proof.
  intros HA%read_matrix_at HB%read_matrix_at HsA HsB HlA HlB.
  pose proof (valid_square _ _ HsA HlA) as HqA.
  pose proof (valid_square _ _ HsB HlB) as HqB.
  destruct (mul_classic_produces s A B vA vB n HA HB HqA HqB)
    as (C & s' & Hrun & _ & Hnew).
  exists C, s', (mmul n vA vB). split; [done|].
  split; [by eapply new_matrix_read|].
  split; [apply matrix_of_length|].
  split; [eapply square_is_square_val, mmul_square|].
  intros i j Hi Hj. by apply entry_matrix_of.
Qed.

Lemma mul_classic_entries_witness :
  (read_matrix store_2x2 3%positive = Some [[1; 2]; [3; 4]]%Z ∧
   read_matrix store_2x2 6%positive = Some [[5; 6]; [7; 8]]%Z ∧
   is_square_val [[1; 2]; [3; 4]]%Z = true ∧
   is_square_val [[5; 6]; [7; 8]]%Z = true) ∧
  ∃ C s' v,
    mul_classic 3%positive 6%positive store_2x2 = Ret C s' ∧
    read_matrix s' C = Some v ∧ length v = 2 ∧ is_square_val v = true ∧
    ∀ i j, i < 2 → j < 2 →
      entry v i j
      = sumZ (λ k, (entry [[1; 2]; [3; 4]] i k * entry [[5; 6]; [7; 8]] k j)%Z) 2.
Proof.
  split.
  - repeat split; reflexivity.
  - apply (mul_classic_entries store_2x2 3%positive 6%positive
             [[1; 2]; [3; 4]]%Z [[5; 6]; [7; 8]]%Z 2); reflexivity.
Defined.

(** ** C3 *)

(** C3: on any two matrices in the store, [mul_classic] and [mul_strassen]
    raise exactly when one of them is not square or their sizes differ;
    the exception is then the [ValueError] of the validation, raised in
    the store of the call: no object was allocated and no result exists. *)
Theorem validation_fails_fast s A B vA vB fuel cutoff stats :
  read_matrix s A = Some vA → read_matrix s B = Some vB →
  depth (length vA) < fuel →
  ((∃ e s', mul_classic A B s = Raise e s') ↔ invalid_pair vA vB) ∧
  ((∃ e s', mul_strassen fuel A B cutoff stats s = Raise e s')
   ↔ invalid_pair vA vB) ∧
  (∀ e s', mul_classic A B s = Raise e s' ∨
           mul_strassen fuel A B cutoff stats s = Raise e s' →
           s' = s ∧ ∃ msg, e = ValueError msg).
Proof.
  intros HA%read_matrix_at HB%read_matrix_at Hfuel.
  destruct (invalid_pair_dec vA vB) as [Hinv|(HsA & HsB & Hlen)].
  - destruct (mul_classic_invalid s A B vA vB HA HB Hinv) as (msg & Hc).
    destruct (mul_strassen_invalid fuel cutoff stats s A B vA vB HA HB Hinv)
      as (msg' & Hs).
    split; [split; [done|eauto]|]. split; [split; [done|eauto]|].
    intros e s' [H|H]; [rewrite Hc in H|rewrite Hs in H];
      injection H as <- <-; eauto.
  - pose proof (valid_square _ _ HsA eq_refl) as HqA.
    pose proof (valid_square _ _ HsB (eq_sym Hlen)) as HqB.
    destruct (mul_classic_produces s A B vA vB _ HA HB HqA HqB)
      as (C & s1 & Hc & _).
    destruct (mul_strassen_returns fuel cutoff stats A B vA vB _ s HA HB HqA HqB Hfuel)
      as (r & s2 & Hs & _).
    assert (¬ invalid_pair vA vB) as Hvalid.
    { intros [H|[H|H]]; congruence. }
    split; [split; [intros (e & s' & H); congruence|done]|].
    split; [split; [intros (e & s' & H); congruence|done]|].
    intros e s' [H|H]; congruence.
Qed.

Lemma validation_fails_fast_witness :
  (read_matrix store_3x3_2x2 4%positive = Some [[1; 2; 3]; [4; 5; 6]; [7; 8; 9]]%Z ∧
   read_matrix store_3x3_2x2 7%positive = Some [[1; 0]; [0; 1]]%Z ∧
   depth 3 < 3) ∧
  ((∃ e s', mul_classic 4%positive 7%positive store_3x3_2x2 = Raise e s')
   ↔ invalid_pair [[1; 2; 3]; [4; 5; 6]; [7; 8; 9]]%Z [[1; 0]; [0; 1]]%Z) ∧
  ((∃ e s', mul_strassen 3 4%positive 7%positive 1 None store_3x3_2x2 = Raise e s')
   ↔ invalid_pair [[1; 2; 3]; [4; 5; 6]; [7; 8; 9]]%Z [[1; 0]; [0; 1]]%Z) ∧
  (∀ e s', mul_classic 4%positive 7%positive store_3x3_2x2 = Raise e s' ∨
           mul_strassen 3 4%positive 7%positive 1 None store_3x3_2x2 = Raise e s' →
           s' = store_3x3_2x2 ∧ ∃ msg, e = ValueError msg).
Proof.
  split.
  - repeat split; vm_compute; reflexivity.
  - apply (validation_fails_fast store_3x3_2x2 4%positive 7%positive
             [[1; 2; 3]; [4; 5; 6]; [7; 8; 9]]%Z [[1; 0]; [0; 1]]%Z 3 1%Z None);
      reflexivity || (vm_compute; lia).
Defined.

(** ** C4 *)

Lemma calls_added_leaf k cutoff :
  (Z.of_nat (2 ^ k) ≤ cutoff)%Z ∨ k = 0 → calls_added k cutoff = 1%Z.
Proof.
  intros [Hle| ->]; [|done]. destruct k as [|k]; [done|].
  cbn [calls_added]. by rewrite decide_True.
Qed.

Lemma calls_added_node k cutoff :
  (cutoff < Z.of_nat (2 ^ k))%Z → (1 ≤ cutoff)%Z ∨ k ≠ 0 →
  calls_added k cutoff = (1 + 7 * calls_added (k - 1) cutoff)%Z.
Proof.
  intros Hlt Hcut. destruct k as [|k]; [simpl in Hlt; lia|].
  cbn [calls_added]. rewrite decide_False by lia.
  by replace (S k - 1) with k by lia.
Qed.

(** C4: an invocation of [_strassen_rec] on [2^k] by [2^k] matrices adds
    [calls_added k cutoff] to [stats.calls]: one for itself, whether it
    stops at the [n = 1] base case, falls back to the classic product or
    recurses, and those of its seven recursive calls.  With [n = 2^k] and
    [n / 2 = 2^(k - 1)], this count is [1] if [n <= cutoff] (or [n = 1])
    and [1 + 7 * calls(n / 2)] if [n > cutoff], for every [cutoff >= 1]
    (and for smaller cutoffs as long as [n > 1]); for [n = 8] and
    [cutoff = 1] it is 400. *)
Theorem calls_recurrence s A B vA vB k cutoff st fuel :
  read_matrix s A = Some vA → read_matrix s B = Some vB →
  is_square_val vA = true → is_square_val vB = true →
  length vA = 2 ^ k → length vB = 2 ^ k → k < fuel →
  (∃ C st' s',
     _strassen_rec fuel A B cutoff st s = Ret (C, st') s' ∧
     calls st' = (calls st + calls_added k cutoff)%Z) ∧
  ((Z.of_nat (2 ^ k) ≤ cutoff)%Z ∨ k = 0 → calls_added k cutoff = 1%Z) ∧
  ((cutoff < Z.of_nat (2 ^ k))%Z → (1 ≤ cutoff)%Z ∨ k ≠ 0 →
   calls_added k cutoff = (1 + 7 * calls_added (k - 1) cutoff)%Z) ∧
  calls_added 3 1 = 400%Z.
Proof.
  intros HA%read_matrix_at HB%read_matrix_at HsA HsB HlA HlB Hfuel.
  pose proof (valid_square _ _ HsA HlA) as HqA.
  pose proof (valid_square _ _ HsB HlB) as HqB.
  destruct (strassen_rec_returns k fuel cutoff A B vA vB st s Hfuel HA HB HqA HqB)
    as ([C st'] & s' & Hrun & _ & _ & Hcalls & _).
  split; [by exists C, st', s'|].
  split; [apply calls_added_leaf|]. split; [apply calls_added_node|done].
Qed.

Lemma calls_recurrence_witness :
  (read_matrix store_2x2 3%positive = Some [[1; 2]; [3; 4]]%Z ∧
   read_matrix store_2x2 6%positive = Some [[5; 6]; [7; 8]]%Z ∧
   is_square_val [[1; 2]; [3; 4]]%Z = true ∧
   is_square_val [[5; 6]; [7; 8]]%Z = true ∧
   length [[1; 2]; [3; 4]]%Z = 2 ^ 1 ∧ length [[5; 6]; [7; 8]]%Z = 2 ^ 1 ∧
   1 < 2) ∧
  (∃ C st' s',
     _strassen_rec 2 3%positive 6%positive 1 (Stats 0 0) store_2x2 = Ret (C, st') s' ∧
     calls st' = (calls (Stats 0 0) + calls_added 1 1)%Z) ∧
  ((Z.of_nat (2 ^ 1) ≤ 1)%Z ∨ 1 = 0 → calls_added 1 1 = 1%Z) ∧
  ((1 < Z.of_nat (2 ^ 1))%Z → (1 ≤ 1)%Z ∨ 1 ≠ 0 →
   calls_added 1 1 = (1 + 7 * calls_added (1 - 1) 1)%Z) ∧
  calls_added 3 1 = 400%Z.
Proof.
  split.
  - repeat split; reflexivity || lia.
  - apply (calls_recurrence store_2x2 3%positive 6%positive
             [[1; 2]; [3; 4]]%Z [[5; 6]; [7; 8]]%Z 1 1%Z (Stats 0 0) 2);
      reflexivity || lia.
Defined.

(** ** C5 *)

(** C5: padding a square matrix of size [n] to any [m >= n] and cropping
    the result back to [n] returns a matrix with the entries of the
    original; [m = next_power_of_two n] is such an [m]. *)
Theorem pad_crop_identity s A vA n m :
  read_matrix s A = Some vA → is_square_val vA = true → length vA = n →
  n ≤ m →
  (∃ P s1 C s2,
     pad_to_size A m s = Ret P s1 ∧ crop P n s1 = Ret C s2 ∧
     read_matrix s2 C = Some vA) ∧
  n ≤ next_power_of_two n.
Proof.
  intros HA%read_matrix_at HsA HlA Hnm.
  pose proof (valid_square _ _ HsA HlA) as HqA.
  split; [|apply next_power_of_two_ge].
  destruct (pad_to_size_produces s A vA n m HA HqA Hnm)
    as (P & s1 & Hpad & _ & HP%new_matrix_at).
  destruct (crop_produces s1 P (mpad m vA) n HP) as (C & s2 & Hcrop & _ & HC).
  exists P, s1, C, s2. split; [done|]. split; [done|].
  rewrite mcrop_mpad in HC by done. by eapply new_matrix_read.
Qed.

Lemma pad_crop_identity_witness :
  (read_matrix store_3x3_2x2 4%positive = Some [[1; 2; 3]; [4; 5; 6]; [7; 8; 9]]%Z ∧
   is_square_val [[1; 2; 3]; [4; 5; 6]; [7; 8; 9]]%Z = true ∧
   3 ≤ next_power_of_two 3) ∧
  (∃ P s1 C s2,
     pad_to_size 4%positive (next_power_of_two 3) store_3x3_2x2 = Ret P s1 ∧
     crop P 3 s1 = Ret C s2 ∧
     read_matrix s2 C = Some [[1; 2; 3]; [4; 5; 6]; [7; 8; 9]]%Z) ∧
  3 ≤ next_power_of_two 3.
Proof.
  split.
  - repeat split; reflexivity || (vm_compute; lia).
  - apply (pad_crop_identity store_3x3_2x2 4%positive
             [[1; 2; 3]; [4; 5; 6]; [7; 8; 9]]%Z 3 (next_power_of_two 3));
      reflexivity || (vm_compute; lia).
Defined.

(** ** C6 *)

Lemma mcombine_quadrants mid v :
  square (mid * 2) v →
  mcombine (quadrant11 v) (quadrant12 v) (quadrant21 v) (quadrant22 v) = v.
Proof.
  intros Hv. rewrite (square_matrix_of _ _ Hv).
  rewrite quadrant11_matrix_of, quadrant12_matrix_of,
          quadrant21_matrix_of, quadrant22_matrix_of.
  by apply mcombine_matrix_of.
Qed.

Lemma mcombine_square mid v11 v12 v21 v22 :
  square mid v11 → square mid v12 → square mid v21 → square mid v22 →
  square (mid * 2) (mcombine v11 v12 v21 v22).
Proof.
  intros H11 H12 H21 H22.
  rewrite (square_matrix_of _ _ H11), (square_matrix_of _ _ H12),
          (square_matrix_of _ _ H21), (square_matrix_of _ _ H22).
  erewrite (mcombine_matrix_of mid _ _ _ _
    (λ i j, if decide (i < mid)
            then if decide (j < mid) then entry v11 i j else entry v12 i (j - mid)
            else if decide (j < mid) then entry v21 (i - mid) j
                 else entry v22 (i - mid) (j - mid))).
  - apply matrix_of_square.
  - intros i j Hi Hj. by rewrite !decide_True.
  - intros i j Hi Hj. rewrite decide_True, decide_False by lia.
    by replace (mid + j - mid) with j by lia.
  - intros i j Hi Hj. rewrite decide_False, decide_True by lia.
    by replace (mid + i - mid) with i by lia.
  - intros i j Hi Hj. rewrite !decide_False by lia.
    by replace (mid + i - mid) with i by lia;
       replace (mid + j - mid) with j by lia.
Qed.

(** C6: [split] cuts a square matrix of even size [2 * mid] into four
    [mid] by [mid] quadrants, and [combine] applied to them, in the order
    top-left, top-right, bottom-left, bottom-right, returns a matrix with
    the entries of the original; [combine] applied to any four [mid'] by
    [mid'] matrices returns a [2 * mid'] by [2 * mid'] matrix. *)
Theorem split_combine_inverse s A vA mid s0 C11 C12 C21 C22 v11 v12 v21 v22 mid' :
  read_matrix s A = Some vA → is_square_val vA = true → length vA = mid * 2 →
  read_matrix s0 C11 = Some v11 → read_matrix s0 C12 = Some v12 →
  read_matrix s0 C21 = Some v21 → read_matrix s0 C22 = Some v22 →
  is_square_val v11 = true → is_square_val v12 = true →
  is_square_val v21 = true → is_square_val v22 = true →
  length v11 = mid' → length v12 = mid' → length v21 = mid' → length v22 = mid' →
  (∃ A11 A12 A21 A22 s1 C s2,
     split A s = Ret (A11, A12, A21, A22) s1 ∧
     read_matrix s1 A11 = Some (quadrant11 vA) ∧
     read_matrix s1 A12 = Some (quadrant12 vA) ∧
     read_matrix s1 A21 = Some (quadrant21 vA) ∧
     read_matrix s1 A22 = Some (quadrant22 vA) ∧
     square mid (quadrant11 vA) ∧ square mid (quadrant12 vA) ∧
     square mid (quadrant21 vA) ∧ square mid (quadrant22 vA) ∧
     combine A11 A12 A21 A22 s1 = Ret C s2 ∧
     read_matrix s2 C = Some vA) ∧
  (∃ C s' v,
     combine C11 C12 C21 C22 s0 = Ret C s' ∧ read_matrix s' C = Some v ∧
     square (mid' * 2) v).
Proof.
  intros HA%read_matrix_at HsA HlA H11%read_matrix_at H12%read_matrix_at
    H21%read_matrix_at H22%read_matrix_at Hs11 Hs12 Hs21 Hs22 Hl11 Hl12 Hl21 Hl22.
  pose proof (valid_square _ _ HsA HlA) as HqA.
  pose proof (valid_square _ _ Hs11 Hl11) as Hq11.
  pose proof (valid_square _ _ Hs12 Hl12) as Hq12.
  pose proof (valid_square _ _ Hs21 Hl21) as Hq21.
  pose proof (valid_square _ _ Hs22 Hl22) as Hq22.
  split.
  - destruct (split_returns s A vA HA)
      as ([[[A11 A12] A21] A22] & s1 & Hsplit & _ & N11 & N12 & N21 & N22).
    pose proof (quadrant11_square _ _ HqA) as Q11.
    pose proof (quadrant12_square _ _ HqA) as Q12.
    pose proof (quadrant21_square _ _ HqA) as Q21.
    pose proof (quadrant22_square _ _ HqA) as Q22.
    destruct (combine_produces s1 A11 A12 A21 A22 _ _ _ _ mid
                (new_matrix_at _ _ _ _ N11) (new_matrix_at _ _ _ _ N12)
                (new_matrix_at _ _ _ _ N21) (new_matrix_at _ _ _ _ N22)
                Q11 Q12 Q21 Q22) as (C & s2 & Hcombine & _ & HC).
    rewrite (mcombine_quadrants mid) in HC by done.
    exists A11, A12, A21, A22, s1, C, s2.
    repeat (split; [done || by eapply new_matrix_read|]).
    by eapply new_matrix_read.
  - destruct (combine_produces s0 C11 C12 C21 C22 v11 v12 v21 v22 mid'
                H11 H12 H21 H22 Hq11 Hq12 Hq21 Hq22) as (C & s' & Hcombine & _ & HC).
    exists C, s', (mcombine v11 v12 v21 v22). split; [done|].
    split; [by eapply new_matrix_read|]. by apply mcombine_square.
Qed.

Lemma split_combine_inverse_witness :
  (read_matrix store_2x2 3%positive = Some [[1; 2]; [3; 4]]%Z ∧
   read_matrix store_2x2 6%positive = Some [[5; 6]; [7; 8]]%Z ∧
   is_square_val [[1; 2]; [3; 4]]%Z = true ∧
   is_square_val [[5; 6]; [7; 8]]%Z = true ∧
   length [[1; 2]; [3; 4]]%Z = 1 * 2 ∧ length [[5; 6]; [7; 8]]%Z = 2) ∧
  (∃ A11 A12 A21 A22 s1 C s2,
     split 3%positive store_2x2 = Ret (A11, A12, A21, A22) s1 ∧
     read_matrix s1 A11 = Some (quadrant11 [[1; 2]; [3; 4]]%Z) ∧
     read_matrix s1 A12 = Some (quadrant12 [[1; 2]; [3; 4]]%Z) ∧
     read_matrix s1 A21 = Some (quadrant21 [[1; 2]; [3; 4]]%Z) ∧
     read_matrix s1 A22 = Some (quadrant22 [[1; 2]; [3; 4]]%Z) ∧
     square 1 (quadrant11 [[1; 2]; [3; 4]]%Z) ∧
     square 1 (quadrant12 [[1; 2]; [3; 4]]%Z) ∧
     square 1 (quadrant21 [[1; 2]; [3; 4]]%Z) ∧
     square 1 (quadrant22 [[1; 2]; [3; 4]]%Z) ∧
     combine A11 A12 A21 A22 s1 = Ret C s2 ∧
     read_matrix s2 C = Some [[1; 2]; [3; 4]]%Z) ∧
  (∃ C s' v,
     combine 3%positive 6%positive 6%positive 3%positive store_2x2 = Ret C s' ∧
     read_matrix s' C = Some v ∧ square (2 * 2) v).
Proof.
  split.
  - repeat split; reflexivity.
  - apply (split_combine_inverse store_2x2 3%positive [[1; 2]; [3; 4]]%Z 1
             store_2x2 3%positive 6%positive 6%positive 3%positive
             [[1; 2]; [3; 4]]%Z [[5; 6]; [7; 8]]%Z [[5; 6]; [7; 8]]%Z
             [[1; 2]; [3; 4]]%Z 2); reflexivity.
Defined.

(** ** C7 *)

(** C7: on square matrices of the same size [n], and for every cutoff,
    [mul_strassen] returns as soon as the recursion budget exceeds
    [depth n], the binary logarithm of the padded size: the padded size is
    the power of two [2 ^ depth n], at least [n], and every level of the
    recursion halves it. *)
Theorem mul_strassen_terminates s A B vA vB n cutoff stats :
  read_matrix s A = Some vA → read_matrix s B = Some vB →
  is_square_val vA = true → is_square_val vB = true →
  length vA = n → length vB = n →
  next_power_of_two n = 2 ^ depth n ∧ n ≤ 2 ^ depth n ∧
  ∀ fuel, depth n < fuel →
    ∃ C st s', mul_strassen fuel A B cutoff stats s = Ret (C, st) s'.
Proof.
  intros HA%read_matrix_at HB%read_matrix_at HsA HsB HlA HlB.
  pose proof (valid_square _ _ HsA HlA) as HqA.
  pose proof (valid_square _ _ HsB HlB) as HqB.
  split; [apply next_power_of_two_depth|].
  split; [rewrite <- next_power_of_two_depth; apply next_power_of_two_ge|].
  intros fuel Hfuel.
  destruct (mul_strassen_returns fuel cutoff stats A B vA vB n s HA HB HqA HqB Hfuel)
    as ([C st] & s' & Hrun & _).
  by exists C, st, s'.
Qed.

Lemma mul_strassen_terminates_witness :
  (read_matrix store_2x2 3%positive = Some [[1; 2]; [3; 4]]%Z ∧
   read_matrix store_2x2 6%positive = Some [[5; 6]; [7; 8]]%Z ∧
   is_square_val [[1; 2]; [3; 4]]%Z = true ∧
   is_square_val [[5; 6]; [7; 8]]%Z = true) ∧
  next_power_of_two 2 = 2 ^ depth 2 ∧ 2 ≤ 2 ^ depth 2 ∧
  ∀ fuel, depth 2 < fuel →
    ∃ C st s',
      mul_strassen fuel 3%positive 6%positive (-3) None store_2x2 = Ret (C, st) s'.
Proof.
  split.
  - repeat split; reflexivity.
  - apply (mul_strassen_terminates store_2x2 3%positive 6%positive
             [[1; 2]; [3; 4]]%Z [[5; 6]; [7; 8]]%Z 2 (-3)%Z None); reflexivity.
Defined.

(** ** C8 *)






(** ** C9 *)

Lemma produces_returns_new (m : M loc) s v :
  returns m s (produces s v) → returns_new s (m s).
Proof.
  intros (C & s' & Hrun & Hext & Hnew). exists C, s', v.
  split; [done|]. split; [apply Hext|done].
Qed.

Lemma read_matrix_kept s s' A v :
  heap s ⊆ heap s' → read_matrix s A = Some v → read_matrix s' A = Some v.
Proof.
  intros Hsub H%read_matrix_at. by apply read_matrix_at, (mat_at_mono s).
Qed.

(** C9: on valid inputs, [add], [sub], [combine], [pad_to_size], [crop],
    [mul_classic], [split] and [mul_strassen] return matrices none of whose
    list objects, the matrix or its rows, existed in the store of the
    call, and every object of that store is still there with the contents
    it had: the argument matrices read as before. *)
Theorem inputs_not_mutated s A B A' B' vA vB vA' vB' n m j fuel cutoff stats :
  read_matrix s A = Some vA → read_matrix s B = Some vB →
  read_matrix s A' = Some vA' → read_matrix s B' = Some vB' →
  is_square_val vA = true → is_square_val vB = true →
  is_square_val vA' = true → is_square_val vB' = true →
  length vA = n → length vB = n → length vA' = n → length vB' = n →
  n ≤ m → depth n < fuel →
  returns_new s (add A B s) ∧ returns_new s (sub A B s) ∧
  returns_new s (combine A B A' B' s) ∧
  returns_new s (pad_to_size A m s) ∧ returns_new s (crop A j s) ∧
  returns_new s (mul_classic A B s) ∧
  (∃ A11 A12 A21 A22 s' v11 v12 v21 v22,
     split A s = Ret (A11, A12, A21, A22) s' ∧ heap s ⊆ heap s' ∧
     new_matrix s s' A11 v11 ∧ new_matrix s s' A12 v12 ∧
     new_matrix s s' A21 v21 ∧ new_matrix s s' A22 v22) ∧
  (∃ C st s' v,
     mul_strassen fuel A B cutoff stats s = Ret (C, st) s' ∧
     heap s ⊆ heap s' ∧ new_matrix s s' C v) ∧
  (∀ s', heap s ⊆ heap s' →
         read_matrix s' A = Some vA ∧ read_matrix s' B = Some vB ∧
         read_matrix s' A' = Some vA' ∧ read_matrix s' B' = Some vB').
Proof.
  intros RA RB RA' RB' HsA HsB HsA' HsB' HlA HlB HlA' HlB' Hnm Hfuel.
  pose proof RA as HA%read_matrix_at. pose proof RB as HB%read_matrix_at.
  pose proof RA' as HA'%read_matrix_at. pose proof RB' as HB'%read_matrix_at.
  pose proof (valid_square _ _ HsA HlA) as HqA.
  pose proof (valid_square _ _ HsB HlB) as HqB.
  pose proof (valid_square _ _ HsA' HlA') as HqA'.
  pose proof (valid_square _ _ HsB' HlB') as HqB'.
  split; [by eapply produces_returns_new, add_produces|].
  split; [by eapply produces_returns_new, sub_produces|].
  split; [by eapply produces_returns_new, (combine_produces _ _ _ _ _ _ _ _ _ n)|].
  split; [by eapply produces_returns_new, pad_to_size_produces|].
  split; [by eapply produces_returns_new, crop_produces|].
  split; [by eapply produces_returns_new, mul_classic_produces|].
  split; [|split].
  - destruct (split_returns s A vA HA)
      as ([[[A11 A12] A21] A22] & s' & Hsplit & Hext & N11 & N12 & N21 & N22).
    exists A11, A12, A21, A22, s'. do 4 eexists.
    split; [done|]. split; [apply Hext|done].
  - destruct (mul_strassen_returns fuel cutoff stats A B vA vB n s HA HB HqA HqB Hfuel)
      as ([C st] & s' & Hrun & (Hsub & _) & Hnew & _).
    exists C, st, s', (mmul n vA vB). done.
  - intros s' Hsub. repeat split; by eapply read_matrix_kept.
Qed.

Lemma inputs_not_mutated_witness :
  (read_matrix store_2x2 3%positive = Some [[1; 2]; [3; 4]]%Z ∧
   read_matrix store_2x2 6%positive = Some [[5; 6]; [7; 8]]%Z ∧
   is_square_val [[1; 2]; [3; 4]]%Z = true ∧
   is_square_val [[5; 6]; [7; 8]]%Z = true ∧
   2 ≤ 4 ∧ depth 2 < 2) ∧
  returns_new store_2x2 (add 3%positive 6%positive store_2x2) ∧
  returns_new store_2x2 (sub 3%positive 6%positive store_2x2) ∧
  returns_new store_2x2 (combine 3%positive 6%positive 6%positive 3%positive store_2x2) ∧
  returns_new store_2x2 (pad_to_size 3%positive 4 store_2x2) ∧
  returns_new store_2x2 (crop 3%positive 1 store_2x2) ∧
  returns_new store_2x2 (mul_classic 3%positive 6%positive store_2x2) ∧
  (∃ A11 A12 A21 A22 s' v11 v12 v21 v22,
     split 3%positive store_2x2 = Ret (A11, A12, A21, A22) s' ∧
     heap store_2x2 ⊆ heap s' ∧
     new_matrix store_2x2 s' A11 v11 ∧ new_matrix store_2x2 s' A12 v12 ∧
     new_matrix store_2x2 s' A21 v21 ∧ new_matrix store_2x2 s' A22 v22) ∧
  (∃ C st s' v,
     mul_strassen 2 3%positive 6%positive 1 None store_2x2 = Ret (C, st) s' ∧
     heap store_2x2 ⊆ heap s' ∧ new_matrix store_2x2 s' C v) ∧
  (∀ s', heap store_2x2 ⊆ heap s' →
         read_matrix s' 3%positive = Some [[1; 2]; [3; 4]]%Z ∧
         read_matrix s' 6%positive = Some [[5; 6]; [7; 8]]%Z ∧
         read_matrix s' 6%positive = Some [[5; 6]; [7; 8]]%Z ∧
         read_matrix s' 3%positive = Some [[1; 2]; [3; 4]]%Z).
Proof.
  split.
  - repeat split; try reflexivity; vm_compute; lia.
  - apply (inputs_not_mutated store_2x2 3%positive 6%positive 6%positive 3%positive
             [[1; 2]; [3; 4]]%Z [[5; 6]; [7; 8]]%Z [[5; 6]; [7; 8]]%Z
             [[1; 2]; [3; 4]]%Z 2 4 1 2 1%Z None);
      try reflexivity; vm_compute; lia.
Defined.

(** ** C10 *)

Lemma quadrant_dims n v :
  square n v →
  dims (n / 2) (n / 2) (quadrant11 v) ∧ dims (n / 2) (n - n / 2) (quadrant12 v) ∧
  dims (n - n / 2) (n / 2) (quadrant21 v) ∧
  dims (n - n / 2) (n - n / 2) (quadrant22 v).
Proof.
  intros [Hl Hrows].
  assert (n / 2 ≤ n) as Hle by (apply Nat.Div0.div_le_upper_bound; lia).
  unfold quadrant11, quadrant12, quadrant21, quadrant22, dims.
  rewrite Hl, !length_map, length_take, length_drop, Hl.
  repeat split; try lia; apply Forall_fmap.
  - apply Forall_take. eapply Forall_impl; [done|]. intros r Hr. simpl in *.
    rewrite length_take. lia.
  - apply Forall_take. eapply Forall_impl; [done|]. intros r Hr. simpl in *.
    rewrite length_drop. lia.
  - apply Forall_drop. eapply Forall_impl; [done|]. intros r Hr. simpl in *.
    rewrite length_take. lia.
  - apply Forall_drop. eapply Forall_impl; [done|]. intros r Hr. simpl in *.
    rewrite length_drop. lia.
Qed.

(** C10: [split] never raises on a square matrix.  On one of odd size
    [n = 2 * h + 1] it returns four matrices of unequal shapes, cut at
    [mid = h]: the top-left is [h] by [h], the top-right [h] by [h + 1],
    the bottom-left [h + 1] by [h] and the bottom-right [h + 1] by
    [h + 1]. *)
Theorem split_odd_unequal s A vA n h :
  read_matrix s A = Some vA → is_square_val vA = true → length vA = n →
  n = 2 * h + 1 →
  ∃ A11 A12 A21 A22 s',
    split A s = Ret (A11, A12, A21, A22) s' ∧
    read_matrix s' A11 = Some (quadrant11 vA) ∧
    read_matrix s' A12 = Some (quadrant12 vA) ∧
    read_matrix s' A21 = Some (quadrant21 vA) ∧
    read_matrix s' A22 = Some (quadrant22 vA) ∧
    dims h h (quadrant11 vA) ∧ dims h (h + 1) (quadrant12 vA) ∧
    dims (h + 1) h (quadrant21 vA) ∧ dims (h + 1) (h + 1) (quadrant22 vA).
Proof.
  intros HA%read_matrix_at HsA HlA Hodd.
  pose proof (valid_square _ _ HsA HlA) as HqA.
  destruct (split_returns s A vA HA)
    as ([[[A11 A12] A21] A22] & s' & Hsplit & _ & N11 & N12 & N21 & N22).
  destruct (quadrant_dims n vA HqA) as (D11 & D12 & D21 & D22).
  assert (n / 2 = h) as Hhalf.
  { symmetry. apply (Nat.div_unique n 2 h 1); lia. }
  rewrite Hhalf in D11, D12, D21, D22.
  replace (n - h) with (h + 1) in D12, D21, D22 by lia.
  exists A11, A12, A21, A22, s'.
  repeat (split; [done || by eapply new_matrix_read|]). done.
Qed.

Lemma split_odd_unequal_witness :
  (read_matrix store_3x3_2x2 4%positive = Some [[1; 2; 3]; [4; 5; 6]; [7; 8; 9]]%Z ∧
   is_square_val [[1; 2; 3]; [4; 5; 6]; [7; 8; 9]]%Z = true ∧
   3 = 2 * 1 + 1) ∧
  ∃ A11 A12 A21 A22 s',
    split 4%positive store_3x3_2x2 = Ret (A11, A12, A21, A22) s' ∧
    read_matrix s' A11 = Some (quadrant11 [[1; 2; 3]; [4; 5; 6]; [7; 8; 9]]%Z) ∧
    read_matrix s' A12 = Some (quadrant12 [[1; 2; 3]; [4; 5; 6]; [7; 8; 9]]%Z) ∧
    read_matrix s' A21 = Some (quadrant21 [[1; 2; 3]; [4; 5; 6]; [7; 8; 9]]%Z) ∧
    read_matrix s' A22 = Some (quadrant22 [[1; 2; 3]; [4; 5; 6]; [7; 8; 9]]%Z) ∧
    dims 1 1 (quadrant11 [[1; 2; 3]; [4; 5; 6]; [7; 8; 9]]%Z) ∧
    dims 1 (1 + 1) (quadrant12 [[1; 2; 3]; [4; 5; 6]; [7; 8; 9]]%Z) ∧
    dims (1 + 1) 1 (quadrant21 [[1; 2; 3]; [4; 5; 6]; [7; 8; 9]]%Z) ∧
    dims (1 + 1) (1 + 1) (quadrant22 [[1; 2; 3]; [4; 5; 6]; [7; 8; 9]]%Z).
Proof.
  split.
  - repeat split; reflexivity.
  - apply (split_odd_unequal store_3x3_2x2 4%positive
             [[1; 2; 3]; [4; 5; 6]; [7; 8; 9]]%Z 3 1); reflexivity.
Defined.


(** * Further properties of the code *)

(** ** matrix.py *)

(** X1: [next_power_of_two n] is a power of two, it is at least [n], and no
    smaller power of two is; so it is [1] for [n = 0] and [n] itself when
    [n] is a power of two. *)
Theorem next_power_of_two_least n :
  (∃ k, next_power_of_two n = 2 ^ k ∧ n ≤ 2 ^ k ∧ ∀ j, n ≤ 2 ^ j → k ≤ j) ∧
  next_power_of_two 0 = 1 ∧
  (∀ k, n = 2 ^ k → next_power_of_two n = n).
Proof.
  split; [|split; [done|]].
  - destruct (next_power_of_two_spec n) as (k & Hk & Hn & Hmin).
    exists k. split; [done|]. split; [done|]. intros j Hj.
    destruct Hmin as [->|Hmin]; [lia|].
    destruct (decide (k ≤ j)) as [|Hkj]; [done|].
    assert (2 ^ j ≤ 2 ^ (k - 1)) as Hpow by (apply Nat.pow_le_mono_r; lia). lia.
  - intros k ->. apply next_power_of_two_pow.
Qed.

(** X2: [zeros n] returns a new matrix of [n] rows of [n] zeros, and its
    rows are [n] different new list objects: storing into one row leaves
    the others as they are. *)
Theorem zeros_distinct_rows n s :
  ∃ C s' cs,
    zeros n s = Ret C s' ∧ heap s ⊆ heap s' ∧
    heap s !! C = None ∧ heap s' !! C = Some (OMat cs) ∧
    length cs = n ∧ NoDup cs ∧
    Forall (λ l, heap s !! l = None ∧
                 heap s' !! l = Some (ORow (replicate n 0%Z))) cs ∧
    read_matrix s' C = Some (replicate n (replicate n 0%Z)).
Proof.
  destruct (zeros_filling n s) as (C & s' & Hrun & cs & Hf).
  pose proof Hf as [Hext HC Hnew Hnd Hrn Hrows].
  exists C, s', cs. split; [done|]. split; [apply Hext|].
  split; [done|]. split; [done|].
  pose proof (Forall2_length _ _ _ Hrows) as Hlen. rewrite length_replicate in Hlen.
  split; [done|]. split; [done|]. split.
  - apply Forall_forall. intros l Hl. split.
    + rewrite Forall_forall in Hrn. by apply Hrn.
    + apply list_elem_of_lookup in Hl as [i Hi].
      destruct (Forall2_lookup_l _ _ _ _ _ Hrows Hi) as (r & Hr & Hlr).
      apply lookup_replicate in Hr as [-> _]. exact Hlr.
  - apply read_matrix_at. by exists cs.
Qed.

(** X3: [pad_to_size A m] with [m >= n] returns a new [m] by [m] matrix
    that holds [A] in its top-left corner and zero everywhere else. *)
Theorem pad_to_size_entries s A vA n m :
  read_matrix s A = Some vA → is_square_val vA = true → length vA = n →
  n ≤ m →
  ∃ P s' vP,
    pad_to_size A m s = Ret P s' ∧ read_matrix s' P = Some vP ∧
    square m vP ∧
    ∀ i j, i < m → j < m →
      entry vP i j = if decide (i < n ∧ j < n) then entry vA i j else 0%Z.
Proof.
  intros HA%read_matrix_at HsA HlA Hnm.
  pose proof (valid_square _ _ HsA HlA) as HqA.
  destruct (pad_to_size_produces s A vA n m HA HqA Hnm)
    as (P & s' & Hpad & _ & HP).
  exists P, s', (mpad m vA). split; [done|].
  split; [by eapply new_matrix_read|]. split; [by eapply mpad_square|].
  intros i j Hi Hj. destruct (decide (i < n ∧ j < n)) as [[Hin Hjn]|Hout].
  - by apply (entry_mpad_inside n).
  - by apply (entry_mpad_outside n).
Qed.

Lemma pad_to_size_entries_witness :
  (read_matrix store_2x2 3%positive = Some [[1; 2]; [3; 4]]%Z ∧
   is_square_val [[1; 2]; [3; 4]]%Z = true ∧ 2 ≤ 4) ∧
  ∃ P s' vP,
    pad_to_size 3%positive 4 store_2x2 = Ret P s' ∧ read_matrix s' P = Some vP ∧
    square 4 vP ∧
    ∀ i j, i < 4 → j < 4 →
      entry vP i j
      = if decide (i < 2 ∧ j < 2) then entry [[1; 2]; [3; 4]]%Z i j else 0%Z.
Proof.
  split.
  - repeat split; reflexivity || lia.
  - apply (pad_to_size_entries store_2x2 3%positive [[1; 2]; [3; 4]]%Z 2 4);
      reflexivity || lia.
Defined.

Lemma mcrop_entry n v i j : i < n → j < n → entry (mcrop n v) i j = entry v i j.
Proof.
  intros Hi Hj. unfold entry, mcrop.
  rewrite !list_lookup_total_alt, list_lookup_fmap, lookup_take_lt by done.
  destruct (v !! i) as [r|]; simpl; [|done].
  by rewrite lookup_take_lt.
Qed.

Lemma mcrop_all n v :
  length v ≤ n → Forall (λ r, length r ≤ n) v → mcrop n v = v.
Proof.
  intros Hl Hrows. unfold mcrop. rewrite take_ge by done.
  rewrite <- (map_id v) at 2. apply map_ext_in. intros r Hr.
  rewrite Forall_forall in Hrows. apply take_ge, Hrows. by apply list_elem_of_In.
Qed.

(** X4: [crop A n] never raises, whatever the shape of [A]: it returns a
    new matrix with the first [n] items of each of the first [n] rows, so
    with the entries of [A] at every position below [n]; when [A] has at
    most [n] rows of at most [n] items, that is a copy of [A]. *)
Theorem crop_slices s A v n :
  read_matrix s A = Some v →
  ∃ C s',
    crop A n s = Ret C s' ∧ new_matrix s s' C (mcrop n v) ∧
    read_matrix s' C = Some (mcrop n v) ∧
    length (mcrop n v) = Nat.min n (length v) ∧
    (∀ i j, i < n → j < n → entry (mcrop n v) i j = entry v i j) ∧
    (length v ≤ n → Forall (λ r, length r ≤ n) v → mcrop n v = v).
Proof.
  intros HA%read_matrix_at.
  destruct (crop_produces s A v n HA) as (C & s' & Hcrop & _ & HC).
  exists C, s'. split; [done|]. split; [done|].
  split; [by eapply new_matrix_read|].
  split; [unfold mcrop; by rewrite length_map, length_take|].
  split; [apply mcrop_entry|apply mcrop_all].
Qed.

Lemma crop_slices_witness :
  read_matrix store_3x3_2x2 4%positive = Some [[1; 2; 3]; [4; 5; 6]; [7; 8; 9]]%Z ∧
  ∃ C s',
    crop 4%positive 5 store_3x3_2x2 = Ret C s' ∧
    new_matrix store_3x3_2x2 s' C (mcrop 5 [[1; 2; 3]; [4; 5; 6]; [7; 8; 9]]%Z) ∧
    read_matrix s' C = Some (mcrop 5 [[1; 2; 3]; [4; 5; 6]; [7; 8; 9]]%Z) ∧
    length (mcrop 5 [[1; 2; 3]; [4; 5; 6]; [7; 8; 9]]%Z) = Nat.min 5 3 ∧
    (∀ i j, i < 5 → j < 5 →
       entry (mcrop 5 [[1; 2; 3]; [4; 5; 6]; [7; 8; 9]]%Z) i j
       = entry [[1; 2; 3]; [4; 5; 6]; [7; 8; 9]]%Z i j) ∧
    (3 ≤ 5 → Forall (λ r, length r ≤ 5) [[1; 2; 3]; [4; 5; 6]; [7; 8; 9]]%Z →
     mcrop 5 [[1; 2; 3]; [4; 5; 6]; [7; 8; 9]]%Z = [[1; 2; 3]; [4; 5; 6]; [7; 8; 9]]%Z).
Proof.
  split.
  - reflexivity.
  - apply (crop_slices store_3x3_2x2 4%positive
             [[1; 2; 3]; [4; 5; 6]; [7; 8; 9]]%Z 5). reflexivity.
Defined.

(** X5: [is_square] answers whether every row has as many items as the
    matrix has rows, without touching the store (so the empty matrix is
    square); [assert_square] returns on a square matrix and otherwise
    raises the [ValueError] that names the matrix, in the store of the
    call. *)
Theorem assert_square_checks s A v name :
  read_matrix s A = Some v →
  ∃ b,
    is_square A s = Ret b s ∧
    (b = true ↔ Forall (λ r, length r = length v) v) ∧
    (v = [] → b = true) ∧
    assert_square A name s
    = (if b then Ret tt s
       else Raise (ValueError ("Matriz " ++ name ++ " não é quadrada.")) s).
Proof.
  intros HA%read_matrix_at. exists (is_square_val v).
  split; [by apply is_square_eq|]. split; [|split].
  - rewrite is_square_val_true. unfold square, dims. split; [by intros [_ H']|done].
  - by intros ->.
  - destruct (is_square_val v) eqn:Hsq.
    + by eapply assert_square_ok.
    + by eapply assert_square_raises.
Qed.

Lemma assert_square_checks_witness :
  read_matrix store_2x2 3%positive = Some [[1; 2]; [3; 4]]%Z ∧
  ∃ b,
    is_square 3%positive store_2x2 = Ret b store_2x2 ∧
    (b = true ↔ Forall (λ r, length r = length [[1; 2]; [3; 4]]%Z) [[1; 2]; [3; 4]]%Z) ∧
    ([[1; 2]; [3; 4]]%Z = [] → b = true) ∧
    assert_square 3%positive "A" store_2x2
    = (if b then Ret tt store_2x2
       else Raise (ValueError ("Matriz " ++ "A" ++ " não é quadrada.")) store_2x2).
Proof.
  split.
  - reflexivity.
  - apply (assert_square_checks store_2x2 3%positive [[1; 2]; [3; 4]]%Z "A").
    reflexivity.
Defined.

(** *** [add] and [sub] *)

Lemma covers_lookup n v i r :
  covers n v = true → i < n → v !! i = Some r → n ≤ length r.
Proof.
  unfold covers. intros [_ H]%andb_prop Hi Hr. rewrite forallb_forall in H.
  eapply bool_decide_eq_true_1, H. apply list_elem_of_In, list_elem_of_lookup.
  exists i. by rewrite lookup_take_lt.
Qed.

Lemma covers_length n v : covers n v = true → n ≤ length v.
Proof. unfold covers. intros [H _]%andb_prop. by eapply bool_decide_eq_true_1. Qed.

Lemma square_covers n v : square n v → covers n v = true.
Proof.
  intros [Hl Hrows]. unfold covers. apply andb_true_intro. split.
  - apply bool_decide_eq_true_2. lia.
  - apply forallb_forall. intros r Hr. apply bool_decide_eq_true_2.
    rewrite Forall_forall in Hrows. apply list_elem_of_In in Hr.
    apply list_elem_of_lookup in Hr as [i Hr]. apply lookup_take_Some in Hr as [Hr _].
    rewrite (Hrows r); [done|]. by eapply list_elem_of_lookup_2.
Qed.

(** The loops of [add] and [sub] only read the top-left [n] by [n] part of
    [B]. *)
Lemma elementwise_covering op s A B vA vB n :
  mat_at s A vA → mat_at s B vB → square n vA → covers n vB = true →
  returns (elementwise op A B) s (produces s (zip_with (zip_with op) vA vB)).
Proof.
  intros HA HB HsA HcB. pose proof HsA as [HlA _].
  pose proof (covers_length _ _ HcB) as HlB.
  unfold elementwise.
  eapply returns_bind_eq; [by apply mat_at_len|]. rewrite HlA.
  apply returns_bind. eapply returns_mono; [apply zeros_filling|].
  intros C s1 (cs & Hfill). simpl.
  set (F := zip_with (zip_with op) vA vB).
  assert (length F = n) as HlF by (unfold F; rewrite length_zip_with; lia).
  apply returns_bind. eapply returns_mono.
  { apply (fill_matrix_loop s s1 C cs 0 n n (replicate n 0%Z) F);
      [by apply filling_zero_start|lia|lia|].
    intros i s2 vs Fi Hi Hf2 Hlen Hvi HFi. simpl in Hvi, HFi |- *.
    unfold F in HFi. apply lookup_zip_with_Some in HFi as (ra & rb & -> & Hra & Hrb).
    pose proof (dims_lookup _ _ _ _ _ HsA Hra) as Hlra.
    pose proof (covers_lookup _ _ _ _ HcB Hi Hrb) as Hlrb.
    destruct (mat_getitem_ext s s2 A vA i ra HA (fill_ext _ _ _ _ _ Hf2) Hra)
      as (la & Hla & Hrowa).
    destruct (mat_getitem_ext s s2 B vB i rb HB (fill_ext _ _ _ _ _ Hf2) Hrb)
      as (lb & Hlb & Hrowb).
    destruct (filling_getitem s s2 C cs vs i Hf2) as (lc & rc & Hlc & Hcs & Hvs & _);
      [lia|].
    eapply returns_bind_eq; [exact Hla|].
    eapply returns_bind_eq; [exact Hlb|].
    eapply returns_bind_eq; [exact Hlc|].
    eapply returns_mono.
    { apply (fill_row_loop s s2 C cs vs i lc n n (zip_with op ra rb)); try done.
      { rewrite length_zip_with. lia. }
      intros j s3 r x Hj Hext Hr Hjr Hx.
      apply lookup_zip_with_Some in Hx as (a & b & -> & Ha & Hb).
      unfold bind.
      rewrite (row_getitem_ext s s3 la ra j a), (row_getitem_ext s s3 lb rb j b) by done.
      by eapply setitem_row_eq. }
    intros [] s3 Hf3. simpl in Hf3.
    rewrite fill_end in Hf3; [done|]. rewrite length_zip_with. lia. }
  intros [] s2 Hf2. apply returns_ret. simpl in Hf2.
  rewrite fill_end in Hf2 by done. by eapply filling_done.
Qed.

Lemma zip_entry op n vA vB i j :
  square n vA → covers n vB = true → i < n → j < n →
  entry (zip_with (zip_with op) vA vB) i j = op (entry vA i j) (entry vB i j).
Proof.
  intros HsA HcB Hi Hj.
  destruct (square_entry n vA i j HsA Hi Hj) as (ra & Hra & Hlra & Ha).
  pose proof (covers_length _ _ HcB) as HlB.
  destruct (lookup_lt_is_Some_2 vB i) as [rb Hrb]; [lia|].
  pose proof (covers_lookup _ _ _ _ HcB Hi Hrb) as Hlrb.
  destruct (lookup_lt_is_Some_2 rb j) as [b Hb]; [lia|].
  rewrite (entry_lookup vB i rb j b) by done.
  eapply entry_lookup.
  - rewrite lookup_zip_with, Hra. simpl. by rewrite Hrb.
  - rewrite lookup_zip_with, Ha. simpl. by rewrite Hb.
Qed.

Lemma zip_square op n vA vB :
  square n vA → covers n vB = true → square n (zip_with (zip_with op) vA vB).
Proof.
  intros HsA HcB. pose proof HsA as [HlA HrA].
  pose proof (covers_length _ _ HcB) as HlB.
  split; [rewrite length_zip_with; lia|].
  apply Forall_forall. intros r Hr.
  apply list_elem_of_lookup in Hr as [i Hi].
  apply lookup_zip_with_Some in Hi as (ra & rb & -> & Hra & Hrb).
  pose proof (dims_lookup _ _ _ _ _ HsA Hra) as Hlra.
  assert (i < n) as Hilt by (rewrite <- HlA; by eapply lookup_lt_Some).
  pose proof (covers_lookup _ _ _ _ HcB Hilt Hrb) as Hlrb.
  rewrite length_zip_with. lia.
Qed.

(** X6: on a square [A] of size [n] and a [B] with at least [n] rows of at
    least [n] items, [add] and [sub] return new [n] by [n] matrices with
    the entry-wise sum and difference; rows and items of [B] beyond [n]
    are ignored without an error. *)
Theorem add_sub_entries s A B vA vB n :
  read_matrix s A = Some vA → read_matrix s B = Some vB →
  is_square_val vA = true → length vA = n → covers n vB = true →
  ∃ C s1 vC D s2 vD,
    add A B s = Ret C s1 ∧ read_matrix s1 C = Some vC ∧ square n vC ∧
    sub A B s = Ret D s2 ∧ read_matrix s2 D = Some vD ∧ square n vD ∧
    ∀ i j, i < n → j < n →
      entry vC i j = (entry vA i j + entry vB i j)%Z ∧
      entry vD i j = (entry vA i j - entry vB i j)%Z.
Proof.
  intros HA%read_matrix_at HB%read_matrix_at HsA HlA HcB.
  pose proof (valid_square _ _ HsA HlA) as HqA.
  destruct (elementwise_covering Z.add s A B vA vB n HA HB HqA HcB)
    as (C & s1 & Hadd & _ & HC).
  destruct (elementwise_covering Z.sub s A B vA vB n HA HB HqA HcB)
    as (D & s2 & Hsub & _ & HD).
  exists C, s1, (zip_with (zip_with Z.add) vA vB),
         D, s2, (zip_with (zip_with Z.sub) vA vB).
  split; [done|]. split; [by eapply new_matrix_read|].
  split; [by apply zip_square|].
  split; [done|]. split; [by eapply new_matrix_read|].
  split; [by apply zip_square|].
  intros i j Hi Hj. split; by apply (zip_entry _ n).
Qed.

Lemma add_sub_entries_witness :
  (read_matrix store_3x3_2x2 7%positive = Some [[1; 0]; [0; 1]]%Z ∧
   read_matrix store_3x3_2x2 4%positive = Some [[1; 2; 3]; [4; 5; 6]; [7; 8; 9]]%Z ∧
   is_square_val [[1; 0]; [0; 1]]%Z = true ∧
   covers 2 [[1; 2; 3]; [4; 5; 6]; [7; 8; 9]]%Z = true) ∧
  ∃ C s1 vC D s2 vD,
    add 7%positive 4%positive store_3x3_2x2 = Ret C s1 ∧
    read_matrix s1 C = Some vC ∧ square 2 vC ∧
    sub 7%positive 4%positive store_3x3_2x2 = Ret D s2 ∧
    read_matrix s2 D = Some vD ∧ square 2 vD ∧
    ∀ i j, i < 2 → j < 2 →
      entry vC i j
      = (entry [[1; 0]; [0; 1]] i j + entry [[1; 2; 3]; [4; 5; 6]; [7; 8; 9]] i j)%Z ∧
      entry vD i j
      = (entry [[1; 0]; [0; 1]] i j - entry [[1; 2; 3]; [4; 5; 6]; [7; 8; 9]] i j)%Z.
Proof.
  split.
  - repeat split; reflexivity.
  - apply (add_sub_entries store_3x3_2x2 7%positive 4%positive
             [[1; 0]; [0; 1]]%Z [[1; 2; 3]; [4; 5; 6]; [7; 8; 9]]%Z 2); reflexivity.
Defined.

Lemma msub_madd n v w : square n v → square n w → msub (madd v w) w = v.
Proof.
  intros Hv Hw. rewrite (square_matrix_of _ _ Hv), (square_matrix_of _ _ Hw).
  rewrite madd_matrix_of, msub_matrix_of. apply matrix_of_ext. intros. lia.
Qed.

Lemma madd_msub n v w : square n v → square n w → madd (msub v w) w = v.
Proof.
  intros Hv Hw. rewrite (square_matrix_of _ _ Hv), (square_matrix_of _ _ Hw).
  rewrite msub_matrix_of, madd_matrix_of. apply matrix_of_ext. intros. lia.
Qed.

(** X7: on square matrices of the same size, subtracting [B] from
    [add(A, B)] and adding [B] to [sub(A, B)] both give back the entries
    of [A]. *)
Theorem add_sub_cancel s A B vA vB n :
  read_matrix s A = Some vA → read_matrix s B = Some vB →
  is_square_val vA = true → is_square_val vB = true →
  length vA = n → length vB = n →
  (∃ S s1 D s2,
     add A B s = Ret S s1 ∧ sub S B s1 = Ret D s2 ∧ read_matrix s2 D = Some vA) ∧
  (∃ D s1 S s2,
     sub A B s = Ret D s1 ∧ add D B s1 = Ret S s2 ∧ read_matrix s2 S = Some vA).
Proof.
  intros HA%read_matrix_at HB%read_matrix_at HsA HsB HlA HlB.
  pose proof (valid_square _ _ HsA HlA) as HqA.
  pose proof (valid_square _ _ HsB HlB) as HqB.
  split.
  - destruct (add_produces s A B vA vB n HA HB HqA HqB)
      as (S' & s1 & Hadd & Hext & HS%new_matrix_at).
    destruct (sub_produces s1 S' B (madd vA vB) vB n HS
                (mat_at_mono _ _ _ _ (proj1 Hext) HB) (madd_square _ _ _ HqA HqB) HqB)
      as (D & s2 & Hsub & _ & HD).
    rewrite (msub_madd n) in HD by done.
    exists S', s1, D, s2. split; [done|]. split; [done|]. by eapply new_matrix_read.
  - destruct (sub_produces s A B vA vB n HA HB HqA HqB)
      as (D & s1 & Hsub & Hext & HD%new_matrix_at).
    destruct (add_produces s1 D B (msub vA vB) vB n HD
                (mat_at_mono _ _ _ _ (proj1 Hext) HB) (msub_square _ _ _ HqA HqB) HqB)
      as (S' & s2 & Hadd & _ & HS).
    rewrite (madd_msub n) in HS by done.
    exists D, s1, S', s2. split; [done|]. split; [done|]. by eapply new_matrix_read.
Qed.

Lemma add_sub_cancel_witness :
  (read_matrix store_2x2 3%positive = Some [[1; 2]; [3; 4]]%Z ∧
   read_matrix store_2x2 6%positive = Some [[5; 6]; [7; 8]]%Z ∧
   is_square_val [[1; 2]; [3; 4]]%Z = true ∧
   is_square_val [[5; 6]; [7; 8]]%Z = true) ∧
  (∃ S s1 D s2,
     add 3%positive 6%positive store_2x2 = Ret S s1 ∧ sub S 6%positive s1 = Ret D s2 ∧
     read_matrix s2 D = Some [[1; 2]; [3; 4]]%Z) ∧
  (∃ D s1 S s2,
     sub 3%positive 6%positive store_2x2 = Ret D s1 ∧ add D 6%positive s1 = Ret S s2 ∧
     read_matrix s2 S = Some [[1; 2]; [3; 4]]%Z).
Proof.
  split.
  - repeat split; reflexivity.
  - apply (add_sub_cancel store_2x2 3%positive 6%positive
             [[1; 2]; [3; 4]]%Z [[5; 6]; [7; 8]]%Z 2); reflexivity.
Defined.

(** *** Index errors *)

Lemma raises_bind {A B} (m : M A) (k : A → M B) s e (Q : state → Prop) :
  returns m s (λ a s', raises (k a) s' e Q) → raises (bind m k) s e Q.
Proof.
  intros (a & s' & Hm & s'' & Hk & HQ). exists s''. unfold bind. by rewrite Hm.
Qed.

Lemma raises_bind_eq {A B} (m : M A) (k : A → M B) s a s' e (Q : state → Prop) :
  m s = Ret a s' → raises (k a) s' e Q → raises (bind m k) s e Q.
Proof. intros Hm (s'' & Hk & HQ). exists s''. unfold bind. by rewrite Hm. Qed.

Lemma raises_here {A B} (m : M A) (k : A → M B) s e (Q : state → Prop) :
  raises m s e Q → raises (bind m k) s e Q.
Proof. intros (s' & Hm & HQ). exists s'. unfold bind. by rewrite Hm. Qed.

Lemma for_each_app {A} (xs ys : list A) (body : A → M unit) s :
  for_each (xs ++ ys) body s = bind (for_each xs body) (λ _, for_each ys body) s.
Proof.
  revert s. induction xs as [|x xs IH]; intros s; simpl; [done|].
  unfold bind. destruct (body x s) as [[] s'| |]; [|done..].
  rewrite IH. done.
Qed.

(** A loop raises when the iterations before [i] return and iteration [i]
    raises. *)
Lemma for_range_raises (I : state → Prop) n i body s e (Q : state → Prop) :
  i < n →
  returns (for_range i body) s (λ _ s', I s') →
  (∀ s', I s' → raises (body i) s' e Q) →
  raises (for_range n body) s e Q.
Proof.
  intros Hi Hbefore Hbody. unfold for_range.
  replace n with (i + S (n - S i)) by lia.
  rewrite seq_app. simpl.
  destruct Hbefore as ([] & s1 & Hrun & HI).
  destruct (Hbody s1 HI) as (s2 & Hraise & HQ).
  exists s2. rewrite for_each_app. unfold bind at 1. unfold for_range in Hrun.
  rewrite Hrun. simpl. unfold bind. by rewrite Hraise.
Qed.

Lemma getitem_mat_out s0 s A v i :
  mat_at s0 A v → extends s0 s → length v ≤ i →
  getitem_mat A i s = Raise IndexError s.
Proof.
  intros (ls & HA & Hrows) Hext Hi. unfold getitem_mat, bind.
  rewrite (mat_of_eq s A ls) by (eapply lookup_weaken; [done|apply Hext]).
  rewrite lookup_ge_None_2; [done|]. by rewrite (Forall2_length _ _ _ Hrows).
Qed.

Lemma getitem_row_out s0 s l r j :
  row_at s0 l r → extends s0 s → length r ≤ j →
  getitem_row l j s = Raise IndexError s.
Proof.
  intros Hr Hext Hj. unfold getitem_row, bind.
  rewrite (row_of_eq s l r) by (eapply row_at_mono; [apply Hext|done]).
  by rewrite lookup_ge_None_2.
Qed.

Lemma setitem_row_out s l r j x :
  row_at s l r → length r ≤ j → setitem_row l j x s = Raise IndexError s.
Proof.
  intros Hr Hj. unfold setitem_row, bind. rewrite (row_of_eq s l r) by done.
  by rewrite decide_False by lia.
Qed.

Lemma elementwise_too_small op s A B vA vB n m :
  mat_at s A vA → mat_at s B vB → square n vA → square m vB → m < n →
  raises (elementwise op A B) s IndexError (λ s', heap s ⊆ heap s').
Proof.
  intros HA HB HsA HsB Hmn. pose proof HsA as [HlA _]. pose proof HsB as [HlB _].
  unfold elementwise.
  eapply raises_bind_eq; [by apply mat_at_len|]. rewrite HlA.
  apply raises_bind. eapply returns_mono; [apply zeros_filling|].
  intros C s1 (cs & Hfill). simpl. apply raises_here.
  apply (for_range_raises (λ s', s' = s1) n 0); [lia|by apply returns_ret|].
  intros ? ->.
  destruct (lookup_lt_is_Some_2 vA 0) as [ra Hra]; [lia|].
  pose proof (dims_lookup _ _ _ _ _ HsA Hra) as Hlra.
  destruct (mat_getitem_ext s s1 A vA 0 ra HA (fill_ext _ _ _ _ _ Hfill) Hra)
    as (la & Hla & Hrowa).
  eapply raises_bind_eq; [exact Hla|].
  destruct m as [|m'].
  - apply raises_here. exists s1. split; [|apply Hfill].
    eapply getitem_mat_out; [done|apply Hfill|lia].
  - destruct (lookup_lt_is_Some_2 vB 0) as [rb Hrb]; [lia|].
    pose proof (dims_lookup _ _ _ _ _ HsB Hrb) as Hlrb.
    destruct (mat_getitem_ext s s1 B vB 0 rb HB (fill_ext _ _ _ _ _ Hfill) Hrb)
      as (lb & Hlb & Hrowb).
    destruct (filling_getitem s s1 C cs (replicate n (replicate n 0%Z)) 0 Hfill)
      as (lc & rc & Hlc & Hcs & Hvs & _); [rewrite length_replicate; lia|].
    apply lookup_replicate in Hvs as [-> _].
    eapply raises_bind_eq; [exact Hlb|].
    eapply raises_bind_eq; [exact Hlc|].
    eapply (for_range_raises _ n (S m')); [lia| |].
    + apply (fill_row_loop s s1 C cs (replicate n (replicate n 0%Z)) 0 lc (S m') n
               (zip_with op ra rb));
        [done|done|apply lookup_replicate_2; lia|lia|rewrite length_zip_with; lia|].
      intros j s3 r x Hj Hext Hr Hjr Hx.
        apply lookup_zip_with_Some in Hx as (a & b & -> & Ha & Hb).
        unfold bind.
        rewrite (row_getitem_ext s s3 la ra j a), (row_getitem_ext s s3 lb rb j b) by done.
        by eapply setitem_row_eq.
    + intros s3 Hf3. simpl in Hf3.
      destruct (lookup_lt_is_Some_2 ra (S m')) as [a Ha]; [lia|].
      eapply raises_bind_eq;
        [exact (row_getitem_ext s s3 la ra (S m') a Hrowa (fill_ext _ _ _ _ _ Hf3) Ha)|].
      apply raises_here. exists s3. split; [|apply Hf3].
      eapply getitem_row_out; [done|apply Hf3|lia].
Qed.

(** X8: when [B] is a square matrix smaller than the square matrix [A],
    [add(A, B)] and [sub(A, B)] raise [IndexError] rather than return a
    truncated result; every object of the store of the call is as it
    was. *)
Theorem add_sub_smaller_operand s A B vA vB n m :
  read_matrix s A = Some vA → read_matrix s B = Some vB →
  is_square_val vA = true → is_square_val vB = true →
  length vA = n → length vB = m → m < n →
  (∃ s', add A B s = Raise IndexError s' ∧ heap s ⊆ heap s') ∧
  (∃ s', sub A B s = Raise IndexError s' ∧ heap s ⊆ heap s').
Proof.
  intros HA%read_matrix_at HB%read_matrix_at HsA HsB HlA HlB Hmn.
  pose proof (valid_square _ _ HsA HlA) as HqA.
  pose proof (valid_square _ _ HsB HlB) as HqB.
  split.
  - apply (elementwise_too_small Z.add s A B vA vB n m); done.
  - apply (elementwise_too_small Z.sub s A B vA vB n m); done.
Qed.

Lemma add_sub_smaller_operand_witness :
  (read_matrix store_3x3_2x2 4%positive = Some [[1; 2; 3]; [4; 5; 6]; [7; 8; 9]]%Z ∧
   read_matrix store_3x3_2x2 7%positive = Some [[1; 0]; [0; 1]]%Z ∧
   is_square_val [[1; 2; 3]; [4; 5; 6]; [7; 8; 9]]%Z = true ∧
   is_square_val [[1; 0]; [0; 1]]%Z = true ∧ 2 < 3) ∧
  (∃ s', add 4%positive 7%positive store_3x3_2x2 = Raise IndexError s' ∧
         heap store_3x3_2x2 ⊆ heap s') ∧
  (∃ s', sub 4%positive 7%positive store_3x3_2x2 = Raise IndexError s' ∧
         heap store_3x3_2x2 ⊆ heap s').
Proof.
  split.
  - repeat split; reflexivity || lia.
  - apply (add_sub_smaller_operand store_3x3_2x2 4%positive 7%positive
             [[1; 2; 3]; [4; 5; 6]; [7; 8; 9]]%Z [[1; 0]; [0; 1]]%Z 3 2);
      reflexivity || lia.
Defined.

(** X9: [pad_to_size A new_n] with [new_n] smaller than the size of the
    square matrix [A] raises [IndexError]: the assumption [new_n >= n] of
    its docstring is not checked, and breaking it does not shrink [A]. *)
Theorem pad_to_size_smaller s A vA n m :
  read_matrix s A = Some vA → is_square_val vA = true → length vA = n →
  m < n →
  ∃ s', pad_to_size A m s = Raise IndexError s' ∧ heap s ⊆ heap s'.
Proof.
  intros HA%read_matrix_at HsA HlA Hmn.
  pose proof (valid_square _ _ HsA HlA) as HqA.
  unfold pad_to_size.
  eapply raises_bind_eq; [by apply mat_at_len|]. rewrite HlA.
  apply raises_bind. eapply returns_mono; [apply zeros_filling|].
  intros P s1 (cs & Hfill). simpl. apply raises_here.
  apply (for_range_raises (λ s', s' = s1) n 0); [lia|by apply returns_ret|].
  intros ? ->.
  destruct m as [|m'].
  - apply raises_here. exists s1. split; [|apply Hfill].
    destruct Hfill as [_ HP _ _ _ Hrows]. apply Forall2_length in Hrows.
    destruct cs; [|done]. unfold getitem_mat, bind. by rewrite (mat_of_eq s1 P []).
  - destruct (filling_getitem s s1 P cs (replicate (S m') (replicate (S m') 0%Z)) 0 Hfill)
      as (lc & rc & Hlc & Hcs & Hvs & _); [rewrite length_replicate; lia|].
    apply lookup_replicate in Hvs as [-> _].
    destruct (lookup_lt_is_Some_2 vA 0) as [ra Hra]; [lia|].
    pose proof (dims_lookup _ _ _ _ _ HqA Hra) as Hlra.
    destruct (mat_getitem_ext s s1 A vA 0 ra HA (fill_ext _ _ _ _ _ Hfill) Hra)
      as (la & Hla & Hrowa).
    eapply raises_bind_eq; [exact Hlc|].
    eapply raises_bind_eq; [exact Hla|].
    eapply (for_range_raises _ n (S m')); [lia| |].
    + apply (fill_row_loop s s1 P cs (replicate (S m') (replicate (S m') 0%Z)) 0 lc
               (S m') (S m') ra);
        [done|done|apply lookup_replicate_2; lia|lia|lia|].
      intros j s3 r x Hj Hext Hr Hjr Hx. unfold bind.
        rewrite (row_getitem_ext s s3 la ra j x) by done.
        by eapply setitem_row_eq.
    + intros s3 Hf3. simpl in Hf3.
      destruct (lookup_lt_is_Some_2 ra (S m')) as [a Ha]; [lia|].
      eapply raises_bind_eq;
        [exact (row_getitem_ext s s3 la ra (S m') a Hrowa (fill_ext _ _ _ _ _ Hf3) Ha)|].
      exists s3. split; [|apply Hf3].
      eapply setitem_row_out.
      * eapply Forall2_lookup_lr; [apply Hf3|exact Hcs|reflexivity].
      * rewrite length_app, length_take, length_replicate. lia.
Qed.

Lemma pad_to_size_smaller_witness :
  (read_matrix store_3x3_2x2 4%positive = Some [[1; 2; 3]; [4; 5; 6]; [7; 8; 9]]%Z ∧
   is_square_val [[1; 2; 3]; [4; 5; 6]; [7; 8; 9]]%Z = true ∧ 2 < 3) ∧
  ∃ s', pad_to_size 4%positive 2 store_3x3_2x2 = Raise IndexError s' ∧
        heap store_3x3_2x2 ⊆ heap s'.
Proof.
  split.
  - repeat split; reflexivity || lia.
  - apply (pad_to_size_smaller store_3x3_2x2 4%positive
             [[1; 2; 3]; [4; 5; 6]; [7; 8; 9]]%Z 3 2); reflexivity || lia.
Defined.

(** ** classic.py: [matrices_equal] *)

Lemma for_each_exit_pure {A R} (xs : list A) (body : A → M (option R))
    (f : A → option R) s :
  (∀ x, x ∈ xs → body x s = Ret (f x) s) →
  for_each_exit xs body s = Ret (first_exit f xs) s.
Proof.
  induction xs as [|x xs IH]; intros Hbody; simpl; [done|].
  unfold bind. rewrite Hbody by set_solver.
  destruct (f x); [done|]. apply IH. intros y Hy. apply Hbody. set_solver.
Qed.

(** The loop exits at the first index where the body does. *)
Lemma first_exit_seq {R} (f : nat → option R) n : ∀ a,
  (first_exit f (seq a n) = None ∧ ∀ k, a ≤ k < a + n → f k = None) ∨
  (∃ k v, a ≤ k < a + n ∧ f k = Some v ∧ (∀ k', a ≤ k' < k → f k' = None) ∧
          first_exit f (seq a n) = Some v).
Proof.
  induction n as [|n IH]; intros a; simpl.
  - left. split; [done|]. intros k Hk. lia.
  - destruct (f a) as [v|] eqn:Hfa.
    + right. exists a, v. split; [lia|]. split; [done|]. split; [|done].
      intros k' Hk'. lia.
    + destruct (IH (S a)) as [[Hnone Hall]|(k & v & Hk & Hfk & Hbefore & Hsome)].
      * left. split; [done|]. intros k Hk.
        destruct (decide (k = a)) as [->|]; [done|]. apply Hall. lia.
      * right. exists k, v. split; [lia|]. split; [done|]. split; [|done].
        intros k' Hk'. destruct (decide (k' = a)) as [->|]; [done|].
        apply Hbefore. lia.
Qed.

Lemma matrices_equal_eq s A B vA vB :
  mat_at s A vA → mat_at s B vB →
  matrices_equal A B s = Ret (bool_decide (vA = vB)) s.
Proof.
  intros HA HB. unfold matrices_equal.
  unfold bind at 1. rewrite (mat_at_len s A vA HA).
  unfold bind at 1. rewrite (mat_at_len s B vB HB).
  destruct (decide (length vA ≠ length vB)) as [Hne|Heq].
  { rewrite bool_decide_eq_false_2; [done|]. intros ->. by apply Hne. }
  assert (length vA = length vB) as Hlen by (destruct (decide (length vA = length vB)); [done|by exfalso; apply Heq]).
  unfold bind at 1. rewrite (mat_at_len s A vA HA).
  set (f := λ i : nat, if decide (vA !! i ≠ vB !! i) then Some false else None).
  unfold bind at 1, for_range_exit.
  rewrite (for_each_exit_pure (seq 0 (length vA)) _ f s).
  - destruct (first_exit_seq f (length vA) 0)
      as [[-> Hall]|(k & v & Hk & Hfk & _ & ->)].
    + rewrite bool_decide_eq_true_2; [done|].
      apply list_eq. intros i. destruct (decide (i < length vA)) as [Hi|Hi].
      * specialize (Hall i ltac:(lia)). unfold f in Hall.
        destruct (decide (vA !! i ≠ vB !! i)) as [|Hii]; [done|].
        destruct (decide (vA !! i = vB !! i)); [done|by exfalso; apply Hii].
      * rewrite !lookup_ge_None_2 by lia. done.
    + unfold f in Hfk. destruct (decide (vA !! k ≠ vB !! k)) as [Hkk|]; [|done].
      injection Hfk as <-. rewrite bool_decide_eq_false_2; [done|].
      intros ->. by apply Hkk.
  - intros i Hi%elem_of_seq.
    destruct (lookup_lt_is_Some_2 vA i) as [ra Hra]; [lia|].
    destruct (lookup_lt_is_Some_2 vB i) as [rb Hrb]; [lia|].
    destruct (mat_getitem_ext s s A vA i ra HA (extends_refl s) Hra) as (la & Hla & Hrowa).
    destruct (mat_getitem_ext s s B vB i rb HB (extends_refl s) Hrb) as (lb & Hlb & Hrowb).
    unfold bind. rewrite Hla, (row_of_eq s la ra Hrowa), Hlb, (row_of_eq s lb rb Hrowb).
    unfold f. rewrite Hra, Hrb.
    destruct (decide (ra ≠ rb)) as [Hr|Hr].
    + rewrite decide_True; [done|]. intros [= ->]. by apply Hr.
    + rewrite decide_False; [done|]. intros H. apply Hr. intros ->. by apply H.
Qed.

(** X10: [matrices_equal(A, B)] returns [True] exactly when the two
    matrices hold the same rows, of whatever shapes; it never raises and
    leaves the store as it was. *)
Theorem matrices_equal_decides s A B vA vB :
  read_matrix s A = Some vA → read_matrix s B = Some vB →
  ∃ b, matrices_equal A B s = Ret b s ∧ (b = true ↔ vA = vB).
Proof.
  intros HA%read_matrix_at HB%read_matrix_at. exists (bool_decide (vA = vB)).
  split; [by apply matrices_equal_eq|]. apply bool_decide_eq_true.
Qed.

Lemma matrices_equal_decides_witness :
  (read_matrix store_3x3_2x2 4%positive = Some [[1; 2; 3]; [4; 5; 6]; [7; 8; 9]]%Z ∧
   read_matrix store_3x3_2x2 7%positive = Some [[1; 0]; [0; 1]]%Z) ∧
  ∃ b, matrices_equal 4%positive 7%positive store_3x3_2x2 = Ret b store_3x3_2x2 ∧
       (b = true ↔ [[1; 2; 3]; [4; 5; 6]; [7; 8; 9]]%Z = [[1; 0]; [0; 1]]%Z).
Proof.
  split.
  - split; reflexivity.
  - apply (matrices_equal_decides store_3x3_2x2 4%positive 7%positive
             [[1; 2; 3]; [4; 5; 6]; [7; 8; 9]]%Z [[1; 0]; [0; 1]]%Z); reflexivity.
Defined.

(** ** strassen.py *)

Lemma calls_added_pos k cutoff : (1 ≤ calls_added k cutoff)%Z.
Proof.
  induction k as [|k IH]; [done|]. cbn [calls_added].
  destruct (decide (Z.of_nat (2 ^ S k) ≤ cutoff)%Z); lia.
Qed.

(** X11: on square matrices of any size [n], [mul_strassen] adds to
    [stats.calls] the count of the padded size [next_power_of_two n]: at
    least one, and exactly one when the padded size is at most [cutoff].
    A statistics object passed in is continued, not reset: a second call
    with the statistics of the first ends with twice the count added. *)
Theorem mul_strassen_counts s A B vA vB n cutoff stats fuel :
  read_matrix s A = Some vA → read_matrix s B = Some vB →
  is_square_val vA = true → is_square_val vB = true →
  length vA = n → length vB = n → depth n < fuel →
  let st0 := default (Stats 0 0) stats in
  let added := calls_added (depth n) cutoff in
  ∃ C1 st1 s1 C2 st2 s2,
    mul_strassen fuel A B cutoff stats s = Ret (C1, st1) s1 ∧
    calls st1 = (calls st0 + added)%Z ∧
    (1 ≤ added)%Z ∧
    ((Z.of_nat (next_power_of_two n) ≤ cutoff)%Z → added = 1%Z) ∧
    mul_strassen fuel A B cutoff (Some st1) s1 = Ret (C2, st2) s2 ∧
    calls st2 = (calls st0 + 2 * added)%Z.
Proof.
  intros HA%read_matrix_at HB%read_matrix_at HsA HsB HlA HlB Hfuel st0 added.
  pose proof (valid_square _ _ HsA HlA) as HqA.
  pose proof (valid_square _ _ HsB HlB) as HqB.
  destruct (mul_strassen_returns fuel cutoff stats A B vA vB n s HA HB HqA HqB Hfuel)
    as ([C1 st1] & s1 & Hrun1 & (Hsub & _) & _ & Hc1 & _).
  destruct (mul_strassen_returns fuel cutoff (Some st1) A B vA vB n s1
              (mat_at_mono _ _ _ _ Hsub HA) (mat_at_mono _ _ _ _ Hsub HB) HqA HqB Hfuel)
    as ([C2 st2] & s2 & Hrun2 & _ & _ & Hc2 & _).
  cbn [fst snd default] in *. unfold id in Hc2.
  fold st0 added in Hc1. fold added in Hc2.
  exists C1, st1, s1, C2, st2, s2.
  split; [done|]. split; [done|]. split; [apply calls_added_pos|].
  split; [|split; [done|lia]].
  intros Hcut. apply calls_added_leaf. left.
  by rewrite <- next_power_of_two_depth.
Qed.

Lemma mul_strassen_counts_witness :
  (read_matrix store_2x2 3%positive = Some [[1; 2]; [3; 4]]%Z ∧
   read_matrix store_2x2 6%positive = Some [[5; 6]; [7; 8]]%Z ∧
   is_square_val [[1; 2]; [3; 4]]%Z = true ∧
   is_square_val [[5; 6]; [7; 8]]%Z = true ∧ depth 2 < 2) ∧
  ∃ C1 st1 s1 C2 st2 s2,
    mul_strassen 2 3%positive 6%positive 1 None store_2x2 = Ret (C1, st1) s1 ∧
    calls st1 = (calls (Stats 0 0) + calls_added (depth 2) 1)%Z ∧
    (1 ≤ calls_added (depth 2) 1)%Z ∧
    ((Z.of_nat (next_power_of_two 2) ≤ 1)%Z → calls_added (depth 2) 1 = 1%Z) ∧
    mul_strassen 2 3%positive 6%positive 1 (Some st1) s1 = Ret (C2, st2) s2 ∧
    calls st2 = (calls (Stats 0 0) + 2 * calls_added (depth 2) 1)%Z.
Proof.
  split.
  - repeat split; reflexivity || (vm_compute; lia).
  - apply (mul_strassen_counts store_2x2 3%positive 6%positive
             [[1; 2]; [3; 4]]%Z [[5; 6]; [7; 8]]%Z 2 1%Z None 2);
      reflexivity || (vm_compute; lia).
Defined.

(** X12: on two empty matrices [mul_classic] returns a new empty matrix,
    and so does [mul_strassen], for every cutoff: it pads the pair to 1 by
    1, makes one call of [_strassen_rec] and crops the result back. *)
Theorem empty_product s A B cutoff stats fuel :
  read_matrix s A = Some [] → read_matrix s B = Some [] → 0 < fuel →
  (∃ C s', mul_classic A B s = Ret C s' ∧ new_matrix s s' C []) ∧
  (∃ C st s',
     mul_strassen fuel A B cutoff stats s = Ret (C, st) s' ∧
     new_matrix s s' C [] ∧
     calls st = (calls (default (Stats 0 0) stats) + 1)%Z).
Proof.
  intros HA%read_matrix_at HB%read_matrix_at Hfuel.
  assert (square 0 []) as Hsq by (split; [done|constructor]).
  split.
  - destruct (mul_classic_produces s A B [] [] 0 HA HB Hsq Hsq)
      as (C & s' & Hrun & _ & Hnew).
    by exists C, s'.
  - destruct (mul_strassen_returns fuel cutoff stats A B [] [] 0 s HA HB Hsq Hsq Hfuel)
      as ([C st] & s' & Hrun & _ & Hnew & Hc & _).
    by exists C, st, s'.
Qed.

Lemma empty_product_witness :
  (read_matrix store_empty 1%positive = Some [] ∧ 0 < 1) ∧
  (∃ C s', mul_classic 1%positive 1%positive store_empty = Ret C s' ∧
           new_matrix store_empty s' C []) ∧
  (∃ C st s',
     mul_strassen 1 1%positive 1%positive (-1) None store_empty = Ret (C, st) s' ∧
     new_matrix store_empty s' C [] ∧
     calls st = (calls (default (Stats 0 0) None) + 1)%Z).
Proof.
  split.
  - split; reflexivity || lia.
  - apply (empty_product store_empty 1%positive 1%positive (-1)%Z None 1);
      reflexivity || lia.
Defined.

(** X13: the product of the zero-padded matrices, cropped back, is the
    product: [crop(mul_classic(pad_to_size(A, m), pad_to_size(B, m)), n)]
    has the entries of [mul_classic(A, B)], for every [m >= n]. *)
Theorem padded_product s A B vA vB n m :
  read_matrix s A = Some vA → read_matrix s B = Some vB →
  is_square_val vA = true → is_square_val vB = true →
  length vA = n → length vB = n → n ≤ m →
  ∃ PA s1 PB s2 PC s3 C s4 C' s5 v,
    pad_to_size A m s = Ret PA s1 ∧ pad_to_size B m s1 = Ret PB s2 ∧
    mul_classic PA PB s2 = Ret PC s3 ∧ crop PC n s3 = Ret C s4 ∧
    mul_classic A B s = Ret C' s5 ∧
    read_matrix s4 C = Some v ∧ read_matrix s5 C' = Some v.
Proof.
  intros HA%read_matrix_at HB%read_matrix_at HsA HsB HlA HlB Hnm.
  pose proof (valid_square _ _ HsA HlA) as HqA.
  pose proof (valid_square _ _ HsB HlB) as HqB.
  destruct (pad_to_size_produces s A vA n m HA HqA Hnm)
    as (PA & s1 & Hpa & Hext1 & HPA%new_matrix_at).
  destruct (pad_to_size_produces s1 B vB n m (mat_at_mono _ _ _ _ (proj1 Hext1) HB) HqB Hnm)
    as (PB & s2 & Hpb & Hext2 & HPB%new_matrix_at).
  destruct (mul_classic_produces s2 PA PB (mpad m vA) (mpad m vB) m
              (mat_at_mono _ _ _ _ (proj1 Hext2) HPA) HPB
              (mpad_square _ _ _ HqA Hnm) (mpad_square _ _ _ HqB Hnm))
    as (PC & s3 & Hpc & _ & HPC%new_matrix_at).
  destruct (crop_produces s3 PC _ n HPC) as (C & s4 & Hc & _ & HC).
  destruct (mul_classic_produces s A B vA vB n HA HB HqA HqB)
    as (C' & s5 & Hc' & _ & HC').
  rewrite mcrop_mmul_mpad in HC by done.
  exists PA, s1, PB, s2, PC, s3, C, s4, C', s5, (mmul n vA vB).
  repeat (split; [done|]). split; by eapply new_matrix_read.
Qed.

Lemma padded_product_witness :
  (read_matrix store_2x2 3%positive = Some [[1; 2]; [3; 4]]%Z ∧
   read_matrix store_2x2 6%positive = Some [[5; 6]; [7; 8]]%Z ∧
   is_square_val [[1; 2]; [3; 4]]%Z = true ∧
   is_square_val [[5; 6]; [7; 8]]%Z = true ∧ 2 ≤ 3) ∧
  ∃ PA s1 PB s2 PC s3 C s4 C' s5 v,
    pad_to_size 3%positive 3 store_2x2 = Ret PA s1 ∧
    pad_to_size 6%positive 3 s1 = Ret PB s2 ∧
    mul_classic PA PB s2 = Ret PC s3 ∧ crop PC 2 s3 = Ret C s4 ∧
    mul_classic 3%positive 6%positive store_2x2 = Ret C' s5 ∧
    read_matrix s4 C = Some v ∧ read_matrix s5 C' = Some v.
Proof.
  split.
  - repeat split; reflexivity || lia.
  - apply (padded_product store_2x2 3%positive 6%positive
             [[1; 2]; [3; 4]]%Z [[5; 6]; [7; 8]]%Z 2 3); reflexivity || lia.
Defined.

(** ** benchmark.py: [medir_tempo] *)

Lemma clock_monotone clock a b :
  (∀ t, clock t ≤ clock (S t))%Z → a ≤ b → (clock a ≤ clock b)%Z.
Proof.
  intros Hmono Hab. induction Hab as [|b Hab IH]; [lia|].
  specialize (Hmono b). lia.
Qed.




(** ** strassen.py: [_strassen_rec] on an empty pair *)

Lemma exhausts_bind {A B} (m : M A) (k : A → M B) s :
  returns m s (λ a s', exhausts (k a) s') → exhausts (bind m k) s.
Proof. intros (a & s' & Hm & Hk). unfold exhausts, bind. by rewrite Hm. Qed.

Lemma exhausts_here {A B} (m : M A) (k : A → M B) s :
  exhausts m s → exhausts (bind m k) s.
Proof. intros Hm. unfold exhausts, bind. by rewrite Hm. Qed.

Lemma square_nil : square 0 [].
Proof. split; [done|constructor]. Qed.

Ltac empty_op lem X :=
  apply exhausts_bind; eapply returns_mono;
  [ eapply (lem _ _ _ _ _ 0); [eassumption|eassumption|exact square_nil|exact square_nil] | ];
  let s' := fresh "s" in
  let Hext := fresh "Hext" in
  let Hnew := fresh "Hnew" in
  intros X s' [Hext Hnew]; cbv beta;
  apply new_matrix_at in Hnew; carry (proj1 Hext); clear Hext.

Ltac empty_split X11 X12 X21 X22 :=
  apply exhausts_bind; eapply returns_mono; [eapply split_returns; eassumption|];
  let s' := fresh "s" in
  let Hext := fresh "Hext" in
  let N1 := fresh "Hnew" in
  let N2 := fresh "Hnew" in
  let N3 := fresh "Hnew" in
  let N4 := fresh "Hnew" in
  intros [[[X11 X12] X21] X22] s' (Hext & N1 & N2 & N3 & N4); cbv beta;
  apply new_matrix_at in N1; apply new_matrix_at in N2;
  apply new_matrix_at in N3; apply new_matrix_at in N4;
  carry (proj1 Hext); clear Hext.

Ltac empty_tick :=
  apply exhausts_bind; eapply returns_eq; [reflexivity|];
  match goal with
  | |- exhausts _ (State (heap ?s1) _ _) =>
      repeat match goal with
      | Hm : mat_at s1 _ _ |- _ =>
          apply (mat_at_mono s1 (State (heap s1) (S (ticks s1)) (perf s1)) _ _
                   (reflexivity (heap s1))) in Hm
      end
  end.

Lemma strassen_rec_empty_exhausts cutoff fuel :
  (cutoff < 0)%Z →
  ∀ A B st s, mat_at s A [] → mat_at s B [] →
              exhausts (_strassen_rec fuel A B cutoff st) s.
Proof.
  intros Hcut. induction fuel as [|fuel IH]; intros A B st s HA HB; [done|].
  cbn [_strassen_rec].
  apply exhausts_bind. eapply returns_eq; [by apply mat_at_len|]. simpl.
  rewrite decide_False by lia.
  empty_tick.
  empty_split A11 A12 A21 A22. empty_split B11 B12 B21 B22.
  empty_op add_produces A11_plus_A22. empty_op add_produces B11_plus_B22.
  empty_op add_produces A21_plus_A22. empty_op sub_produces B12_minus_B22.
  empty_op sub_produces B21_minus_B11. empty_op add_produces A11_plus_A12.
  empty_op sub_produces A21_minus_A11. empty_op add_produces B11_plus_B12.
  empty_op sub_produces A12_minus_A22. empty_op add_produces B21_plus_B22.
  empty_tick.
  apply exhausts_here. apply IH; assumption.
Qed.

(** X15: called on two empty matrices, [_strassen_rec] returns a new empty
    matrix through the classic product when [cutoff >= 0], but with a
    negative [cutoff] it never returns: every call splits the empty pair
    into empty quadrants and calls itself on them, whatever the budget of
    nested calls (CPython ends this with [RecursionError]).
    [mul_strassen] pads an empty pair to 1 by 1 before the first call. *)
Theorem strassen_rec_empty_pair s A B cutoff st :
  read_matrix s A = Some [] → read_matrix s B = Some [] →
  ((cutoff < 0)%Z → ∀ fuel, _strassen_rec fuel A B cutoff st s = OutOfFuel) ∧
  ((0 ≤ cutoff)%Z → ∀ fuel, 0 < fuel →
     ∃ C st' s', _strassen_rec fuel A B cutoff st s = Ret (C, st') s' ∧
                 new_matrix s s' C [] ∧ calls st' = (calls st + 1)%Z).
Proof.
  intros HA%read_matrix_at HB%read_matrix_at. split.
  - intros Hcut fuel. by apply strassen_rec_empty_exhausts.
  - intros Hcut [|fuel] Hfuel; [lia|]. cbn [_strassen_rec].
    destruct (mul_classic_produces s A B [] [] 0 HA HB square_nil square_nil)
      as (C & s' & Hrun & _ & Hnew).
    exists C, (Stats (calls st + 1) (split_combine_time st)), s'.
    split; [|done]. unfold bind at 1. rewrite (mat_at_len s A [] HA). simpl.
    rewrite decide_True by lia. unfold bind. by rewrite Hrun.
Qed.

Lemma strassen_rec_empty_pair_witness :
  read_matrix store_empty 1%positive = Some [] ∧
  (-1 < 0)%Z ∧
  _strassen_rec 5 1%positive 1%positive (-1) (Stats 0 0) store_empty = OutOfFuel.
Proof.
  split; [reflexivity|]. split; [lia|].
  destruct (strassen_rec_empty_pair store_empty 1%positive 1%positive (-1)%Z (Stats 0 0))
    as [Hloops _]; [reflexivity..|].
  apply Hloops. lia.
Defined.

(** ** tests_smoke.py *)

Lemma garantir_iguais_same s C1 C2 v msg :
  mat_at s C1 v → mat_at s C2 v → garantir_iguais C1 C2 msg s = Ret Passed s.
Proof.
  intros H1 H2. unfold garantir_iguais, bind.
  rewrite (matrices_equal_eq s C1 C2 v v H1 H2). by rewrite bool_decide_eq_true_2.
Qed.

Lemma garantir_iguais_differ s C1 C2 v w n msg :
  mat_at s C1 v → mat_at s C2 w → square n v → square n w → v ≠ w →
  ∃ i j, first_difference n v w i j ∧
         garantir_iguais C1 C2 msg s
         = Ret (AssertionError
                  (difference_message msg i j (entry v i j) (entry w i j))) s.
Proof.
  intros H1 H2 Hv Hw Hne. pose proof Hv as [Hlv _].
  set (g := λ i j : nat,
         if decide (entry v i j ≠ entry w i j)
         then Some (AssertionError
                      (difference_message msg i j (entry v i j) (entry w i j)))
         else None).
  set (f := λ i : nat, first_exit (g i) (seq 0 n)).
  assert (∀ i j, g i j = None → entry v i j = entry w i j) as Hg.
  { intros i j. unfold g. destruct (decide (entry v i j ≠ entry w i j)) as [|Hd]; [done|].
    intros _. destruct (decide (entry v i j = entry w i j)); [done|by exfalso; apply Hd]. }
  assert (∀ i, i < n → f i = None → ∀ j, j < n → entry v i j = entry w i j) as Hrow.
  { intros i Hi Hfi j Hj. apply Hg. unfold f in Hfi.
    destruct (first_exit_seq (g i) n 0) as [[_ Hall]|(k & e & _ & _ & _ & Hsome)].
    - apply Hall. lia.
    - congruence. }
  assert (garantir_iguais C1 C2 msg s
          = match first_exit f (seq 0 n) with
            | Some e => Ret e s
            | None => Ret (AssertionError msg) s
            end) as Hrun.
  { unfold garantir_iguais. unfold bind at 1.
    rewrite (matrices_equal_eq s C1 C2 v w H1 H2), bool_decide_eq_false_2 by done.
    unfold bind at 1. rewrite (mat_at_len s C1 v H1), Hlv.
    unfold bind at 1, for_range_exit.
    rewrite (for_each_exit_pure (seq 0 n) _ f s); [by destruct (first_exit f (seq 0 n))|].
    intros i Hi%elem_of_seq. unfold f.
    apply for_each_exit_pure. intros j Hj%elem_of_seq.
    destruct (square_entry n v i j Hv) as (rv & Hrv & _ & Hx); [lia..|].
    destruct (square_entry n w i j Hw) as (rw & Hrw & _ & Hy); [lia..|].
    destruct (mat_getitem_ext s s C1 v i rv H1 (extends_refl s) Hrv) as (l1 & Hl1 & Hr1).
    destruct (mat_getitem_ext s s C2 w i rw H2 (extends_refl s) Hrw) as (l2 & Hl2 & Hr2).
    unfold bind. rewrite Hl1, (getitem_row_eq s l1 rv j _ Hr1 Hx).
    rewrite Hl2, (getitem_row_eq s l2 rw j _ Hr2 Hy). unfold g.
    destruct (decide (entry v i j ≠ entry w i j)); [|done].
    by rewrite Hl1, (getitem_row_eq s l1 rv j _ Hr1 Hx),
               Hl2, (getitem_row_eq s l2 rw j _ Hr2 Hy). }
  rewrite Hrun.
  destruct (first_exit_seq f n 0) as [[_ Hall]|(i & e & Hi & Hfi & Hbefore & ->)].
  - exfalso. apply Hne.
    rewrite (square_matrix_of _ _ Hv), (square_matrix_of _ _ Hw).
    apply matrix_of_ext. intros i j Hi Hj. apply Hrow; [done| |done]. apply Hall. lia.
  - unfold f in Hfi.
    destruct (first_exit_seq (g i) n 0) as [[Hnone _]|(j & e' & Hj & Hgj & Hbj & Hsome)];
      [congruence|].
    rewrite Hsome in Hfi. injection Hfi as ->.
    unfold g in Hgj. destruct (decide (entry v i j ≠ entry w i j)) as [Hd|]; [|done].
    injection Hgj as <-. exists i, j. split; [|done].
    split; [lia|]. split; [lia|]. split; [done|].
    intros i' j' Hi' Hj' [Hlt|[-> Hlt]].
    + apply Hrow; [done| |done]. apply Hbefore. lia.
    + apply Hg, Hbj. lia.
Qed.

(** X16: [garantir_iguais] returns when the two matrices hold the same
    rows.  When two square matrices of the same size differ it raises
    [AssertionError], and the message names the first position at which
    they differ, rows first, with the two entries found there; the store
    is as it was. *)
Theorem garantir_iguais_reports s C1 C2 v w n msg :
  read_matrix s C1 = Some v → read_matrix s C2 = Some w →
  is_square_val v = true → is_square_val w = true →
  length v = n → length w = n →
  (v = w → garantir_iguais C1 C2 msg s = Ret Passed s) ∧
  (v ≠ w →
   ∃ i j, first_difference n v w i j ∧
          garantir_iguais C1 C2 msg s
          = Ret (AssertionError
                   (difference_message msg i j (entry v i j) (entry w i j))) s).
Proof.
  intros H1%read_matrix_at H2%read_matrix_at Hsv Hsw Hlv Hlw.
  split.
  - intros <-. by apply garantir_iguais_same with v.
  - intros Hne. apply garantir_iguais_differ; try done; by apply valid_square.
Qed.

Lemma garantir_iguais_reports_witness :
  (read_matrix store_2x2 3%positive = Some [[1; 2]; [3; 4]]%Z ∧
   read_matrix store_2x2 6%positive = Some [[5; 6]; [7; 8]]%Z ∧
   is_square_val [[1; 2]; [3; 4]]%Z = true ∧
   is_square_val [[5; 6]; [7; 8]]%Z = true) ∧
  ∃ i j, first_difference 2 [[1; 2]; [3; 4]]%Z [[5; 6]; [7; 8]]%Z i j ∧
         garantir_iguais 3%positive 6%positive "x" store_2x2
         = Ret (AssertionError
                  (difference_message "x" i j
                     (entry [[1; 2]; [3; 4]]%Z i j) (entry [[5; 6]; [7; 8]]%Z i j)))
             store_2x2.
Proof.
  split.
  - repeat split; reflexivity.
  - destruct (garantir_iguais_reports store_2x2 3%positive 6%positive
                [[1; 2]; [3; 4]]%Z [[5; 6]; [7; 8]]%Z 2 "x") as [_ Hdiffer];
      [reflexivity..|].
    apply Hdiffer. discriminate.
Defined.

Example test_garantir_iguais_message :
  garantir_iguais 3%positive 6%positive "Clássico != Strassen" store_2x2
  = Ret (AssertionError
           ("Clássico != Strassen" ++ newline
            ++ "Diferença em (0,0): clássico=1 strassen=5")) store_2x2.
Proof. reflexivity. Qed.

(** X17: [comparar_classico_vs_strassen] returns, without an
    [AssertionError], on every pair of square matrices of the same size
    and for every cutoff: the check that the smoke tests make on chosen
    inputs holds on all of them. *)
Theorem comparar_never_fails s A B vA vB n cutoff fuel :
  read_matrix s A = Some vA → read_matrix s B = Some vB →
  is_square_val vA = true → is_square_val vB = true →
  length vA = n → length vB = n → depth n < fuel →
  ∃ s', comparar_classico_vs_strassen fuel A B cutoff s = Ret Passed s'.
Proof.
  intros HA%read_matrix_at HB%read_matrix_at HsA HsB HlA HlB Hfuel.
  pose proof (valid_square _ _ HsA HlA) as HqA.
  pose proof (valid_square _ _ HsB HlB) as HqB.
  destruct (mul_classic_produces s A B vA vB n HA HB HqA HqB)
    as (C & s1 & Hc & Hext1 & HC%new_matrix_at).
  destruct (mul_strassen_returns fuel cutoff (Some (Stats 0 0)) A B vA vB n s1
              (mat_at_mono _ _ _ _ (proj1 Hext1) HA)
              (mat_at_mono _ _ _ _ (proj1 Hext1) HB) HqA HqB Hfuel)
    as ([C' st] & s2 & Hs & (Hsub & _) & HC'%new_matrix_at & _).
  cbn [fst] in HC'. exists s2. unfold comparar_classico_vs_strassen.
  unfold bind at 1. rewrite Hc. unfold bind at 1. rewrite Hs.
  apply garantir_iguais_same with (mmul n vA vB); [|done].
  by apply (mat_at_mono s1).
Qed.

Lemma comparar_never_fails_witness :
  (read_matrix store_2x2 3%positive = Some [[1; 2]; [3; 4]]%Z ∧
   read_matrix store_2x2 6%positive = Some [[5; 6]; [7; 8]]%Z ∧
   is_square_val [[1; 2]; [3; 4]]%Z = true ∧
   is_square_val [[5; 6]; [7; 8]]%Z = true ∧ depth 2 < 2) ∧
  ∃ s', comparar_classico_vs_strassen 2 3%positive 6%positive 1 store_2x2
        = Ret Passed s'.
Proof.
  split.
  - repeat split; reflexivity || (vm_compute; lia).
  - apply (comparar_never_fails store_2x2 3%positive 6%positive
             [[1; 2]; [3; 4]]%Z [[5; 6]; [7; 8]]%Z 2 1%Z 2);
      reflexivity || (vm_compute; lia).
Defined.

(** ** matrix.py: [combine], then [split] *)

Lemma mcombine_blocks mid v11 v12 v21 v22 :
  square mid v11 → square mid v12 → square mid v21 → square mid v22 →
  mcombine v11 v12 v21 v22 = matrix_of (mid * 2) (block_entry mid v11 v12 v21 v22).
Proof.
  intros H11 H12 H21 H22.
  pose proof (mcombine_matrix_of mid (entry v11) (entry v12) (entry v21) (entry v22)
                (block_entry mid v11 v12 v21 v22)) as H.
  rewrite <- (square_matrix_of mid v11 H11), <- (square_matrix_of mid v12 H12),
          <- (square_matrix_of mid v21 H21), <- (square_matrix_of mid v22 H22) in H.
  apply H; intros i j Hi Hj; unfold block_entry.
  - by rewrite !decide_True.
  - rewrite decide_True, decide_False by lia.
    by replace (mid + j - mid) with j by lia.
  - rewrite decide_False, decide_True by lia.
    by replace (mid + i - mid) with i by lia.
  - rewrite !decide_False by lia.
    by replace (mid + i - mid) with i by lia;
       replace (mid + j - mid) with j by lia.
Qed.

Lemma quadrants_mcombine mid v11 v12 v21 v22 :
  square mid v11 → square mid v12 → square mid v21 → square mid v22 →
  let v := mcombine v11 v12 v21 v22 in
  quadrant11 v = v11 ∧ quadrant12 v = v12 ∧ quadrant21 v = v21 ∧ quadrant22 v = v22.
Proof.
  intros H11 H12 H21 H22 v. unfold v. rewrite (mcombine_blocks mid) by done.
  rewrite quadrant11_matrix_of, quadrant12_matrix_of,
          quadrant21_matrix_of, quadrant22_matrix_of.
  repeat split.
  - etrans; [|symmetry; exact (square_matrix_of mid v11 H11)].
    apply matrix_of_ext. intros i j Hi Hj. unfold block_entry.
    by rewrite !decide_True.
  - etrans; [|symmetry; exact (square_matrix_of mid v12 H12)].
    apply matrix_of_ext. intros i j Hi Hj. unfold block_entry.
    rewrite decide_True, decide_False by lia.
    by replace (mid + j - mid) with j by lia.
  - etrans; [|symmetry; exact (square_matrix_of mid v21 H21)].
    apply matrix_of_ext. intros i j Hi Hj. unfold block_entry.
    rewrite decide_False, decide_True by lia.
    by replace (mid + i - mid) with i by lia.
  - etrans; [|symmetry; exact (square_matrix_of mid v22 H22)].
    apply matrix_of_ext. intros i j Hi Hj. unfold block_entry.
    rewrite !decide_False by lia.
    by replace (mid + i - mid) with i by lia;
       replace (mid + j - mid) with j by lia.
Qed.

(** X18: [combine] of four [mid] by [mid] matrices returns a new matrix
    of size [2 * mid] that holds them as its top-left, top-right,
    bottom-left and bottom-right blocks, and [split] of that matrix
    returns four new matrices with the rows of the four that were
    combined: [split] undoes [combine]. *)
Theorem combine_then_split s C11 C12 C21 C22 v11 v12 v21 v22 mid :
  read_matrix s C11 = Some v11 → read_matrix s C12 = Some v12 →
  read_matrix s C21 = Some v21 → read_matrix s C22 = Some v22 →
  is_square_val v11 = true → is_square_val v12 = true →
  is_square_val v21 = true → is_square_val v22 = true →
  length v11 = mid → length v12 = mid → length v21 = mid → length v22 = mid →
  ∃ C s1 vC A11 A12 A21 A22 s2,
    combine C11 C12 C21 C22 s = Ret C s1 ∧ new_matrix s s1 C vC ∧
    square (mid * 2) vC ∧
    (∀ i j, i < mid * 2 → j < mid * 2 →
            entry vC i j = block_entry mid v11 v12 v21 v22 i j) ∧
    split C s1 = Ret (A11, A12, A21, A22) s2 ∧
    new_matrix s1 s2 A11 v11 ∧ new_matrix s1 s2 A12 v12 ∧
    new_matrix s1 s2 A21 v21 ∧ new_matrix s1 s2 A22 v22.
Proof.
  intros H11%read_matrix_at H12%read_matrix_at H21%read_matrix_at H22%read_matrix_at
    Hs11 Hs12 Hs21 Hs22 Hl11 Hl12 Hl21 Hl22.
  pose proof (valid_square _ _ Hs11 Hl11) as Hq11.
  pose proof (valid_square _ _ Hs12 Hl12) as Hq12.
  pose proof (valid_square _ _ Hs21 Hl21) as Hq21.
  pose proof (valid_square _ _ Hs22 Hl22) as Hq22.
  destruct (combine_produces s C11 C12 C21 C22 v11 v12 v21 v22 mid
              H11 H12 H21 H22 Hq11 Hq12 Hq21 Hq22) as (C & s1 & Hcombine & _ & HC).
  destruct (split_returns s1 C _ (new_matrix_at _ _ _ _ HC))
    as ([[[A11 A12] A21] A22] & s2 & Hsplit & _ & N11 & N12 & N21 & N22).
  destruct (quadrants_mcombine mid v11 v12 v21 v22 Hq11 Hq12 Hq21 Hq22)
    as (E11 & E12 & E21 & E22).
  rewrite E11 in N11. rewrite E12 in N12. rewrite E21 in N21. rewrite E22 in N22.
  exists C, s1, (mcombine v11 v12 v21 v22), A11, A12, A21, A22, s2.
  split; [done|]. split; [done|]. split; [by apply mcombine_square|].
  split; [|done].
  intros i j Hi Hj. rewrite (mcombine_blocks mid) by done.
  by apply entry_matrix_of.
Qed.

Lemma combine_then_split_witness :
  (read_matrix store_2x2 3%positive = Some [[1; 2]; [3; 4]]%Z ∧
   read_matrix store_2x2 6%positive = Some [[5; 6]; [7; 8]]%Z ∧
   is_square_val [[1; 2]; [3; 4]]%Z = true ∧
   is_square_val [[5; 6]; [7; 8]]%Z = true) ∧
  ∃ C s1 vC A11 A12 A21 A22 s2,
    combine 3%positive 6%positive 6%positive 3%positive store_2x2 = Ret C s1 ∧
    new_matrix store_2x2 s1 C vC ∧ square (2 * 2) vC ∧
    (∀ i j, i < 2 * 2 → j < 2 * 2 →
            entry vC i j
            = block_entry 2 [[1; 2]; [3; 4]]%Z [[5; 6]; [7; 8]]%Z
                            [[5; 6]; [7; 8]]%Z [[1; 2]; [3; 4]]%Z i j) ∧
    split C s1 = Ret (A11, A12, A21, A22) s2 ∧
    new_matrix s1 s2 A11 [[1; 2]; [3; 4]]%Z ∧ new_matrix s1 s2 A12 [[5; 6]; [7; 8]]%Z ∧
    new_matrix s1 s2 A21 [[5; 6]; [7; 8]]%Z ∧ new_matrix s1 s2 A22 [[1; 2]; [3; 4]]%Z.
Proof.
  split.
  - repeat split; reflexivity.
  - apply (combine_then_split store_2x2 3%positive 6%positive 6%positive 3%positive
             [[1; 2]; [3; 4]]%Z [[5; 6]; [7; 8]]%Z [[5; 6]; [7; 8]]%Z [[1; 2]; [3; 4]]%Z 2);
      reflexivity.
Defined.

(** ** matrix.py: [combine] on quadrants of different sizes *)

Lemma combine_short s C11 C12 C21 C22 v11 v12 mid m :
  mat_at s C11 v11 → mat_at s C12 v12 → square mid v11 →
  length v12 = m → m < mid →
  raises (combine C11 C12 C21 C22) s IndexError (λ s', heap s ⊆ heap s').
Proof.
  intros H11 H12 Hs11 Hl12 Hm. pose proof Hs11 as [Hl11 _].
  unfold combine.
  eapply raises_bind_eq; [by apply mat_at_len|]. rewrite Hl11.
  apply raises_bind. eapply returns_mono; [apply zeros_filling|].
  intros C s1 (cs & Hfill). cbv beta.
  set (z := replicate (mid * 2) 0%Z) in *.
  set (F := zip_with app v11 v12).
  assert (length F = m) as HlF by (unfold F; rewrite length_zip_with; lia).
  apply raises_here.
  apply (for_range_raises
           (λ s', filling s s' C cs (take m F ++ replicate (mid * 2 - m) z)) mid m);
    [lia| |].
  - eapply returns_mono.
    { apply (fill_matrix_loop s s1 C cs 0 m (mid * 2) z F);
        [by apply filling_zero_start|lia|lia|].
      intros i s2 vs Fi Hi Hf2 Hlen Hvi HFi. simpl in Hvi, HFi |- *.
      destruct (lookup_lt_is_Some_2 v11 i) as [xs Hxs]; [lia|].
      destruct (lookup_lt_is_Some_2 v12 i) as [ys Hys]; [lia|].
      unfold F in HFi. rewrite lookup_zip_with, Hxs in HFi. simpl in HFi.
      rewrite Hys in HFi. injection HFi as <-.
      eapply (combine_row s s2 C cs vs i mid C11 C12 v11 v12 i xs ys); try done.
      exact (dims_lookup _ _ _ _ _ Hs11 Hxs). }
    intros [] s2 Hf2. exact Hf2.
  - intros s2 Hf2.
    destruct (lookup_lt_is_Some_2 v11 m) as [xs Hxs]; [lia|].
    destruct (mat_getitem_ext s s2 C11 v11 m xs H11 (fill_ext _ _ _ _ _ Hf2) Hxs)
      as (lx & Hlx & Hrowx).
    destruct (filling_getitem s s2 C cs _ m Hf2) as (lc & rc & Hlc & Hcs & Hvs & Hrc).
    { rewrite length_app, length_take, length_replicate. lia. }
    apply raises_bind.
    eapply returns_bind_eq; [exact Hlx|].
    eapply returns_bind_eq; [exact Hlc|].
    eapply returns_bind_eq.
    { apply row_of_eq. eapply row_at_mono; [apply Hf2|exact Hrowx]. }
    eapply returns_eq; [by eapply setslice_to_eq|].
    pose proof (filling_store _ _ _ _ _ m lc (xs ++ drop mid rc) Hf2 Hcs) as Hf3.
    apply raises_here. eexists. split.
    + eapply getitem_mat_out; [exact H12|apply Hf3|lia].
    + apply Hf3.
Qed.

(** X19: [combine] takes the size from [C11] alone and checks no other
    quadrant: when [C12] has fewer rows than the square matrix [C11],
    [combine] raises [IndexError] on the first row that [C12] lacks, and
    every object of the store of the call is as it was. *)
Theorem combine_short_quadrant s C11 C12 C21 C22 v11 v12 mid m :
  read_matrix s C11 = Some v11 → read_matrix s C12 = Some v12 →
  is_square_val v11 = true → length v11 = mid → length v12 = m → m < mid →
  ∃ s', combine C11 C12 C21 C22 s = Raise IndexError s' ∧ heap s ⊆ heap s'.
Proof.
  intros H11%read_matrix_at H12%read_matrix_at Hs11 Hl11 Hl12 Hm.
  apply (combine_short s C11 C12 C21 C22 v11 v12 mid m); try done.
  by apply valid_square.
Qed.

Lemma combine_short_quadrant_witness :
  (read_matrix store_3x3_2x2 4%positive = Some [[1; 2; 3]; [4; 5; 6]; [7; 8; 9]]%Z ∧
   read_matrix store_3x3_2x2 7%positive = Some [[1; 0]; [0; 1]]%Z ∧
   is_square_val [[1; 2; 3]; [4; 5; 6]; [7; 8; 9]]%Z = true ∧ 2 < 3) ∧
  ∃ s', combine 4%positive 7%positive 4%positive 4%positive store_3x3_2x2
        = Raise IndexError s' ∧
        heap store_3x3_2x2 ⊆ heap s'.
Proof.
  split.
  - repeat split; reflexivity || lia.
  - apply (combine_short_quadrant store_3x3_2x2 4%positive 7%positive 4%positive
             4%positive [[1; 2; 3]; [4; 5; 6]; [7; 8; 9]]%Z [[1; 0]; [0; 1]]%Z 3 2);
      reflexivity || lia.
Defined.

